(** * graphql-compiler: fragment inlining, selection merging, definition
      splitting and grouping

    A shallow embedding of the TypeScript sources

    - [src/lib/inline-relay-query.ts] (module [InlineRelayQuery]:
      [mergeSelections], [inlineFragments], [inlineRelayQueryFromAST]),
    - the second revision of the same file, with canonical argument keys
      (module [Inliner]: [createArgumentKey], [deduplicateSelections],
      [inlineFragmentSpreads], [inlineFragmentsInDocument]),
    - [src/lib/graphql-parser.ts] (module [Parser]:
      [parseGraphQLDefinitions]),
    - [src/lib/graphql-merge.ts] (module [Merge]: [mergeDefinitions]),
    - [compileRelay], as far as it calls the two (module [CompileRelay]),
    - the error text of [src/lib/components/EditorPanel.svelte] (module
      [EditorPanel]: [userFriendlyError]),
    - [src/lib/stores/tab-store.svelte.ts] (module [TabStore]:
      [loadFromStorage], [createTabStore] and the actions of the store),

    followed by the properties of the specification that concern them,
    and by further properties of the code. *)

From Stdlib Require Import ZArith Ascii String List Permutation Sorted Lia.
From stdpp Require Import base option list gmap strings pretty sorting.

#[local] Set Warnings "-register-all".
Local Open Scope string_scope.
Local Open Scope list_scope.
Local Open Scope nat_scope.

(** ** Outcomes of a call

    A call returns, or throws an error ([new Error(message)], or a
    [TypeError] of the engine) with a message, or uses up the stack it is
    given. The stack of the model is [fuel]; a call that is
    [OutOfFuel] with every [fuel] is a recursion that does not end by
    itself, and that a JavaScript engine cuts at its stack limit. *)

Inductive result (A : Type) : Type :=
  | Ok (a : A)
  | Throw (message : string)
  | OutOfFuel.
Arguments Ok {A} a.
Arguments Throw {A} message.
Arguments OutOfFuel {A}.

Definition result_bind {A B} (f : A → result B) (m : result A) : result B :=
  match m with
  | Ok a => f a
  | Throw e => Throw e
  | OutOfFuel => OutOfFuel
  end.

#[global] Instance result_mret : MRet result := @Ok.
#[global] Instance result_mbind : MBind result := @result_bind.

(** ** The JavaScript runtime: collation, sorting, keyed collections *)

(** [String.prototype.localeCompare] is the host's collation: a negative,
    zero or positive number. Which order it is depends on the locale of
    the runtime, so it is an interface of the model. *)
Class Locale := { localeCompare : string → string → Z }.

(** A collation orders all strings; it may hold different strings
    equal, as the Unicode collation does for strings that differ in
    ignorable code points only. This is what ECMAScript asks of a
    comparator for [sort] to sort. *)
Class Collation (locale : Locale) : Prop := {
  collation_antisym : ∀ a b, (localeCompare a b < 0 ↔ 0 < localeCompare b a)%Z;
  collation_trans : ∀ a b c,
    (localeCompare a b ≤ 0 → localeCompare b c ≤ 0 → localeCompare a c ≤ 0)%Z
}.

(** A collation that is a total order on strings and tells any two
    different strings apart. *)
Class ConsistentLocale (locale : Locale) : Prop := {
  localeCompare_refl : ∀ a, localeCompare a a = 0%Z;
  localeCompare_antisym : ∀ a b, (localeCompare a b < 0 ↔ 0 < localeCompare b a)%Z;
  localeCompare_trans : ∀ a b c,
    (localeCompare a b ≤ 0 → localeCompare b c ≤ 0 → localeCompare a c ≤ 0)%Z;
  localeCompare_eq : ∀ a b, localeCompare a b = 0%Z → a = b
}.

(** The message of the [TypeError] that the engine throws when what is
    called is not a function; its wording is the engine's own. *)
Class Engine := { notAFunction : string }.

Module Js.

(** [Array.prototype.sort(comparefn)]: a stable sort; [x] goes before the
    first element it does not compare greater than. With a consistent
    comparator every stable sort returns this list; with another one
    ECMAScript leaves the order to the engine. *)
Section Sort.
Context {A : Type} (comparefn : A → A → Z).

(** The comparators that [sort] can rely on (the "consistent"
    comparators of ECMAScript). *)
Class Consistent : Prop := {
  comparefn_antisym : ∀ a b, (comparefn a b < 0 ↔ 0 < comparefn b a)%Z;
  comparefn_trans : ∀ a b c,
    (comparefn a b ≤ 0 → comparefn b c ≤ 0 → comparefn a c ≤ 0)%Z
}.

(** [x] may stand before [y] in a sorted array. *)
Definition before (x y : A) : Prop := (comparefn x y ≤ 0)%Z.

Fixpoint insertSorted (x : A) (l : list A) : list A :=
  match l with
  | [] => [x]
  | y :: rest =>
      if (comparefn x y <=? 0)%Z then x :: y :: rest
      else y :: insertSorted x rest
  end.

Fixpoint sort (l : list A) : list A :=
  match l with
  | [] => []
  | x :: rest => insertSorted x (sort rest)
  end.
End Sort.

(** A [Map<string, V>], and likewise the own properties of an object in
    the order of their creation: entries in insertion order, a key that
    is set again keeps its place. *)
Section Keyed.
Context {V : Type}.

Fixpoint get (key : string) (m : list (string * V)) : option V :=
  match m with
  | [] => None
  | (k, v) :: rest => if String.eqb k key then Some v else get key rest
  end.

Fixpoint set (key : string) (value : V) (m : list (string * V))
  : list (string * V) :=
  match m with
  | [] => [(key, value)]
  | (k, v) :: rest =>
      if String.eqb k key then (k, value) :: rest
      else (k, v) :: set key value rest
  end.

Definition values (m : list (string * V)) : list V := map snd m.
End Keyed.

(** *** Plain objects

    An object created by [{}] inherits the properties of
    [Object.prototype]: its methods, and the accessor [__proto__], whose
    getter returns the prototype of the object and whose setter replaces
    it. *)
Definition objectPrototypeMethods : list string :=
  ["constructor"; "hasOwnProperty"; "isPrototypeOf"; "propertyIsEnumerable";
   "toLocaleString"; "toString"; "valueOf"; "__defineGetter__";
   "__defineSetter__"; "__lookupGetter__"; "__lookupSetter__"].

(** [key in Object.prototype] *)
Definition inObjectPrototype (key : string) : bool :=
  String.eqb key "__proto__" || bool_decide (key ∈ objectPrototypeMethods).

Definition digit (c : ascii) : option N :=
  let n := N_of_ascii c in
  if ((48 <=? n) && (n <=? 57))%N then Some (n - 48)%N else None.

Fixpoint digits (acc : N) (s : string) : option N :=
  match s with
  | EmptyString => Some acc
  | String c rest =>
      match digit c with
      | Some d => digits (10 * acc + d) rest
      | None => None
      end
  end.

(** A property key that is an array index: the canonical decimal numeral
    of an integer from 0 to 2^32 - 2. *)
Definition arrayIndex (key : string) : option N :=
  match key with
  | EmptyString => None
  | String c rest =>
      if Ascii.eqb c "0" && negb (String.eqb rest "") then None
      else match digits 0 key with
           | Some n => if (n <? 4294967295)%N then Some n else None
           | None => None
           end
  end.

Definition isArrayIndex {V} (entry : string * V) : bool :=
  match arrayIndex entry.1 with Some _ => true | None => false end.

Definition compareIndices {V} (a b : string * V) : Z :=
  (Z.of_N (default 0%N (arrayIndex a.1)) - Z.of_N (default 0%N (arrayIndex b.1)))%Z.

(** [Object.entries(o)], and the order in which [JSON.stringify] goes
    through the properties of [o], given the own properties of [o] in
    the order of their creation: the array indices first, ascending, then
    the other keys as created. *)
Definition entries {V} (properties : list (string * V)) : list (string * V) :=
  sort compareIndices (List.filter isArrayIndex properties)
  ++ List.filter (λ entry, negb (isArrayIndex entry)) properties.

(** A loop over an array whose body may throw: the first failure ends it. *)
Fixpoint forEach {A B} (body : A → B → result A) (a : A) (l : list B) : result A :=
  match l with
  | [] => Ok a
  | x :: rest => a' ← body a x; forEach body a' rest
  end.

(** [Array.prototype.map] with a callback that may throw. *)
Fixpoint mapArray {A B} (callback : A → result B) (l : list A) : result (list B) :=
  match l with
  | [] => Ok []
  | x :: rest => y ← callback x; ys ← mapArray callback rest; Ok (y :: ys)
  end.

(** [Array.prototype.findIndex], with [None] for [-1]. *)
Fixpoint findIndex {A} (p : A → bool) (l : list A) : option nat :=
  match l with
  | [] => None
  | x :: rest => if p x then Some O else S <$> findIndex p rest
  end.

End Js.

(** ** JSON values and [JSON.stringify] *)

Module Json.

Inductive json : Type :=
  | JNull
  | JBool (b : bool)
  | JNumber (n : nat)
  | JString (s : string)
  | JArray (items : list json)
  | JObject (members : list (string * json)).

Definition hexDigit (n : N) : ascii :=
  if (n <? 10)%N then ascii_of_N (48 + n) else ascii_of_N (87 + n).

Definition dquote : ascii := ascii_of_N 34.

(** QuoteJSONString on one code unit. *)
Definition quoteChar (c : ascii) : string :=
  let n := N_of_ascii c in
  if (n =? 34)%N then String "\" (String dquote "") else
  if (n =? 92)%N then "\\" else
  if (n =? 8)%N then "\b" else
  if (n =? 12)%N then "\f" else
  if (n =? 10)%N then "\n" else
  if (n =? 13)%N then "\r" else
  if (n =? 9)%N then "\t" else
  if (n <? 32)%N
  then "\u00" +:+ String (hexDigit (n / 16)) (String (hexDigit (n mod 16)) "")
  else String c "".

Fixpoint quoteChars (s : string) : string :=
  match s with
  | EmptyString => ""
  | String c rest => quoteChar c +:+ quoteChars rest
  end.

Definition quote (s : string) : string :=
  String dquote (quoteChars s) +:+ String dquote "".

Fixpoint join (sep : string) (parts : list string) : string :=
  match parts with
  | [] => ""
  | [p] => p
  | p :: rest => p +:+ sep +:+ join sep rest
  end.

Fixpoint stringify (v : json) : string :=
  match v with
  | JNull => "null"
  | JBool true => "true"
  | JBool false => "false"
  | JNumber n => pretty n
  | JString s => quote s
  | JArray items =>
      "[" +:+ join "," ((fix each (l : list json) : list string :=
                           match l with
                           | [] => []
                           | x :: r => stringify x :: each r
                           end) items) +:+ "]"
  | JObject members =>
      "{" +:+ join "," ((fix each (l : list (string * json)) : list string :=
                           match l with
                           | [] => []
                           | (k, x) :: r => (quote k +:+ ":" +:+ stringify x) :: each r
                           end) members) +:+ "}"
  end.

End Json.

(** ** The GraphQL AST (the node types of graphql-js that the sources use)

    A node records its kind (here: its constructor or record type) and,
    where a function modelled here can read it, its [loc] as the parser
    sets it when it parses with locations; [Location.toJSON] shows
    [start] and [end]. Directives and variable definitions are outside the
    functions modelled here and are left out: nodes are those the parser
    builds for text without directives. The [loc] of a selection set, of
    an operation and of the document, which the sources copy or leave out
    without reading it, is not represented: a selection set stands for
    its selections and a document for its definitions, and nothing is
    stated below about the positions of those nodes. *)

Module Ast.
Import Json.

Record Location := { loc_start : nat; loc_end : nat }.

Record NameNode := { name_value : string; name_loc : option Location }.

Record NamedTypeNode := { type_name : NameNode; type_loc : option Location }.

Inductive ValueNode : Type :=
  | VariableNode (name : NameNode) (loc : option Location)
  | IntValue (value : string) (loc : option Location)
  | FloatValue (value : string) (loc : option Location)
  | StringValue (value : string) (block : bool) (loc : option Location)
  | BooleanValue (value : bool) (loc : option Location)
  | NullValue (loc : option Location)
  | EnumValue (value : string) (loc : option Location)
  | ListValue (values : list ValueNode) (loc : option Location)
  | ObjectValue (fields : list ObjectFieldNode) (loc : option Location)
with ObjectFieldNode : Type :=
  | ObjectField (name : NameNode) (value : ValueNode) (loc : option Location).

Record ArgumentNode := {
  arg_name : NameNode;
  arg_value : ValueNode;
  arg_loc : option Location
}.

(** A [SelectionSetNode] is represented by its [selections]. A field's
    [arguments] is the array the parser always sets ([[]] when the field
    has none). *)
Inductive SelectionNode : Type :=
  | Field (alias : option NameNode) (name : NameNode)
          (arguments : list ArgumentNode)
          (selectionSet : option (list SelectionNode))
          (loc : option Location)
  | InlineFragment (typeCondition : option NamedTypeNode)
                   (selectionSet : list SelectionNode)
                   (loc : option Location)
  | FragmentSpread (name : NameNode) (loc : option Location).

Inductive OperationTypeNode := QUERY | MUTATION | SUBSCRIPTION.

Record OperationDefinitionNode := {
  op_operation : OperationTypeNode;
  op_name : option NameNode;
  op_selectionSet : list SelectionNode
}.

Record FragmentDefinitionNode := {
  frag_name : NameNode;
  frag_typeCondition : NamedTypeNode;
  frag_selectionSet : list SelectionNode;
  frag_loc : option Location
}.

(** The executable definitions, and any type-system definition, of which
    only the kind matters here. *)
Inductive DefinitionNode : Type :=
  | OperationDefinition (def : OperationDefinitionNode)
  | FragmentDefinition (def : FragmentDefinitionNode)
  | TypeSystemDefinition (kind : string).

(** A [DocumentNode] is represented by its [definitions]. *)
Definition DocumentNode := list DefinitionNode.

(** The constraint [T extends { selectionSet?: SelectionSetNode }] of the
    inliners, with [{ ...node, selectionSet: { ..., selections } }] as
    [withSelectionSet]. *)
Class HasSelectionSet (T : Type) := {
  selectionSetOf : T → option (list SelectionNode);
  withSelectionSet : T → list SelectionNode → T
}.

#[global] Instance SelectionNode_selectionSet : HasSelectionSet SelectionNode := {|
  selectionSetOf node :=
    match node with
    | Field _ _ _ ss _ => ss
    | InlineFragment _ ss _ => Some ss
    | FragmentSpread _ _ => None
    end;
  withSelectionSet node selections :=
    match node with
    | Field a n args _ l => Field a n args (Some selections) l
    | InlineFragment t _ l => InlineFragment t selections l
    | FragmentSpread n l => FragmentSpread n l
    end
|}.

#[global] Instance OperationDefinitionNode_selectionSet
  : HasSelectionSet OperationDefinitionNode := {|
  selectionSetOf node := Some (op_selectionSet node);
  withSelectionSet node selections :=
    {| op_operation := op_operation node; op_name := op_name node;
       op_selectionSet := selections |}
|}.

#[global] Instance FragmentDefinitionNode_selectionSet
  : HasSelectionSet FragmentDefinitionNode := {|
  selectionSetOf node := Some (frag_selectionSet node);
  withSelectionSet node selections :=
    {| frag_name := frag_name node;
       frag_typeCondition := frag_typeCondition node;
       frag_selectionSet := selections;
       frag_loc := frag_loc node |}
|}.

(** *** What [JSON.stringify] sees of a node *)

Definition jsonOfLoc (loc : option Location) : list (string * json) :=
  match loc with
  | Some l => [("loc", JObject [("start", JNumber (loc_start l));
                                ("end", JNumber (loc_end l))])]
  | None => []
  end.

Definition jsonOfName (n : NameNode) : json :=
  JObject ([("kind", JString "Name"); ("value", JString (name_value n))]
           ++ jsonOfLoc (name_loc n)).

Fixpoint jsonOfValue (v : ValueNode) : json :=
  match v with
  | VariableNode n l =>
      JObject ([("kind", JString "Variable"); ("name", jsonOfName n)] ++ jsonOfLoc l)
  | IntValue x l =>
      JObject ([("kind", JString "IntValue"); ("value", JString x)] ++ jsonOfLoc l)
  | FloatValue x l =>
      JObject ([("kind", JString "FloatValue"); ("value", JString x)] ++ jsonOfLoc l)
  | StringValue x b l =>
      JObject ([("kind", JString "StringValue"); ("value", JString x);
                ("block", JBool b)] ++ jsonOfLoc l)
  | BooleanValue x l =>
      JObject ([("kind", JString "BooleanValue"); ("value", JBool x)] ++ jsonOfLoc l)
  | NullValue l =>
      JObject ([("kind", JString "NullValue")] ++ jsonOfLoc l)
  | EnumValue x l =>
      JObject ([("kind", JString "EnumValue"); ("value", JString x)] ++ jsonOfLoc l)
  | ListValue xs l =>
      JObject ([("kind", JString "ListValue");
                ("values", JArray ((fix each (vs : list ValueNode) : list json :=
                                      match vs with
                                      | [] => []
                                      | x :: r => jsonOfValue x :: each r
                                      end) xs))] ++ jsonOfLoc l)
  | ObjectValue fs l =>
      JObject ([("kind", JString "ObjectValue");
                ("fields", JArray ((fix each (os : list ObjectFieldNode) : list json :=
                                      match os with
                                      | [] => []
                                      | ObjectField n x fl :: r =>
                                          JObject ([("kind", JString "ObjectField");
                                                    ("name", jsonOfName n);
                                                    ("value", jsonOfValue x)]
                                                   ++ jsonOfLoc fl) :: each r
                                      end) fs))] ++ jsonOfLoc l)
  end.

Definition jsonOfArgument (a : ArgumentNode) : json :=
  JObject ([("kind", JString "Argument"); ("name", jsonOfName (arg_name a));
            ("value", jsonOfValue (arg_value a))] ++ jsonOfLoc (arg_loc a)).

Definition jsonOfFragmentSpread (n : NameNode) (loc : option Location) : json :=
  JObject ([("kind", JString "FragmentSpread"); ("name", jsonOfName n);
            ("directives", JArray [])] ++ jsonOfLoc loc).

(** *** Measures and predicates on selection trees *)

Fixpoint depth (node : SelectionNode) : nat :=
  match node with
  | Field _ _ _ (Some ss) _ => S (list_max (map depth ss))
  | Field _ _ _ None _ => O
  | InlineFragment _ ss _ => S (list_max (map depth ss))
  | FragmentSpread _ _ => O
  end.

Definition depths (selections : list SelectionNode) : nat :=
  list_max (map depth selections).

Fixpoint spreadFree (node : SelectionNode) : bool :=
  match node with
  | Field _ _ _ (Some ss) _ => forallb spreadFree ss
  | Field _ _ _ None _ => true
  | InlineFragment _ ss _ => forallb spreadFree ss
  | FragmentSpread _ _ => false
  end.

(** The fragment names spread anywhere in a selection tree. *)
Fixpoint spreadNames (node : SelectionNode) : list string :=
  match node with
  | Field _ _ _ (Some ss) _ => flat_map spreadNames ss
  | Field _ _ _ None _ => []
  | InlineFragment _ ss _ => flat_map spreadNames ss
  | FragmentSpread n _ => [name_value n]
  end.

Definition spreadsOf (selections : list SelectionNode) : list string :=
  flat_map spreadNames selections.

(** The selections of a node, none when it has no selection set. *)
Definition selectionsOf {T} `{HasSelectionSet T} (node : T) : list SelectionNode :=
  default [] (selectionSetOf node).

(** The operation definitions of a document, in order: what
    [def.kind === Kind.OPERATION_DEFINITION], and likewise
    [def.kind !== 'FragmentDefinition' && 'operation' in def], keep. *)
Fixpoint operations (ast : DocumentNode) : list OperationDefinitionNode :=
  match ast with
  | [] => []
  | OperationDefinition def :: rest => def :: operations rest
  | _ :: rest => operations rest
  end.

Definition isOperation (def : DefinitionNode) : bool :=
  match def with OperationDefinition _ => true | _ => false end.

Definition definitionSelections (def : DefinitionNode) : list SelectionNode :=
  match def with
  | OperationDefinition d => op_selectionSet d
  | FragmentDefinition d => frag_selectionSet d
  | TypeSystemDefinition _ => []
  end.

(** The fragment names spread anywhere in a document. *)
Definition documentSpreads (ast : DocumentNode) : list string :=
  flat_map (λ def, spreadsOf (definitionSelections def)) ast.

Definition documentSpreadFree (ast : DocumentNode) : bool :=
  forallb (λ def, forallb spreadFree (definitionSelections def)) ast.

(** The deepest nesting of selections in an operation of a document. *)
Definition documentDepth (ast : DocumentNode) : nat :=
  list_max (map (λ def, depths (op_selectionSet def)) (operations ast)).

(** *** The fragment map

    [const fragmentMap: Record<string, FragmentDefinitionNode> = {}] is a
    plain object. Its own properties are the fragment definitions
    assigned to it under their names. The name [__proto__] is no own
    property: an assignment to it runs the setter of [Object.prototype],
    which makes the fragment definition the prototype of the object. *)
Record FragmentMap := {
  ownFragments : gmap string FragmentDefinitionNode;
  (* [None] for [Object.prototype] *)
  prototypeNode : option FragmentDefinitionNode
}.

(** [{}] *)
Definition emptyObject : FragmentMap :=
  {| ownFragments := ∅; prototypeNode := None |}.

(** [fragmentMap[name] = def] *)
Definition setProperty (name : string) (def : FragmentDefinitionNode)
    (fragmentMap : FragmentMap) : FragmentMap :=
  if String.eqb name "__proto__" then
    {| ownFragments := ownFragments fragmentMap; prototypeNode := Some def |}
  else
    {| ownFragments := <[name := def]> (ownFragments fragmentMap);
       prototypeNode := prototypeNode fragmentMap |}.

(** The own properties of a fragment definition that the parser built:
    each has a value that is not falsy and has no [selectionSet] of its
    own. *)
Definition nodeProperties (def : FragmentDefinitionNode) : list string :=
  ["kind"; "name"; "typeCondition"; "directives"; "selectionSet"]
  ++ match frag_loc def with Some _ => ["loc"] | None => [] end.

(** What [fragmentMap[name]] is: a fragment definition; or a property
    that the object inherits (a method of [Object.prototype], the
    prototype itself under [__proto__], a property of a fragment
    definition that has become the prototype), which is not falsy and has
    no [selectionSet]; or [undefined]. *)
Inductive Property : Type :=
  | Fragment (def : FragmentDefinitionNode)
  | Inherited
  | Undefined.

Definition getProperty (fragmentMap : FragmentMap) (name : string) : Property :=
  if String.eqb name "__proto__" then
    match prototypeNode fragmentMap with
    | Some def => Fragment def
    | None => Inherited
    end
  else
    match ownFragments fragmentMap !! name with
    | Some def => Fragment def
    | None =>
        if match prototypeNode fragmentMap with
           | Some def => bool_decide (name ∈ nodeProperties def)
           | None => false
           end
           || bool_decide (name ∈ Js.objectPrototypeMethods)
        then Inherited
        else Undefined
    end.

(** The fragment definition that [fragmentMap[name]] is, if it is one. *)
#[global] Instance FragmentMap_lookup
  : Lookup string FragmentDefinitionNode FragmentMap :=
  λ name fragmentMap,
    match getProperty fragmentMap name with
    | Fragment def => Some def
    | _ => None
    end.

(** *** The fragment-reference graph of a fragment map *)

Section References.
Context (fragmentMap : FragmentMap).

(** [reaches selections g]: a spread of [g] is met when the spreads in
    [selections] are expanded, through any number of fragments. *)
Inductive reaches : list SelectionNode → string → Prop :=
  | reaches_here selections g :
      g ∈ spreadsOf selections → reaches selections g
  | reaches_via selections h fragment g :
      h ∈ spreadsOf selections →
      fragmentMap !! h = Some fragment →
      reaches (frag_selectionSet fragment) g →
      reaches selections g.

(** A ranking that goes down along every reference to a defined
    fragment; with one, no fragment is reached from itself
    ([acyclic_not_onCycle]). *)
Definition ranked (rank : string → nat) : Prop :=
  ∀ g fragment h,
    fragmentMap !! g = Some fragment →
    h ∈ spreadsOf (frag_selectionSet fragment) →
    is_Some (fragmentMap !! h) →
    rank h < rank g.

Definition acyclic : Prop := ∃ rank, ranked rank.

(** A fragment that is reached from its own selections. *)
Definition onCycle (g : string) : Prop :=
  ∃ fragment, fragmentMap !! g = Some fragment
              ∧ reaches (frag_selectionSet fragment) g.

(** A spread of [g] is met when an operation of the document is
    expanded. *)
Definition reachedFrom (ast : DocumentNode) (g : string) : Prop :=
  ∃ def, def ∈ operations ast ∧ reaches (op_selectionSet def) g.

(** Expanding the spreads in [selections] comes to no name under which
    the map has nothing and to no fragment on a cycle. *)
Definition settled (selections : list SelectionNode) : Prop :=
  ∀ g, reaches selections g →
       getProperty fragmentMap g ≠ Undefined ∧ ¬ onCycle g.

(** [meetsFirst selections g]: going through [selections] in order, and
    into selection sets and fragments as they come, the first thing that
    is not settled is a spread of [g], under which the map has nothing. *)
Inductive meetsFirst : list SelectionNode → string → Prop :=
  | meetsFirst_here before name loc after :
      settled before →
      getProperty fragmentMap (name_value name) = Undefined →
      meetsFirst (before ++ FragmentSpread name loc :: after) (name_value name)
  | meetsFirst_in_fragment before name loc after fragment g :
      settled before →
      fragmentMap !! name_value name = Some fragment →
      meetsFirst (frag_selectionSet fragment) g →
      meetsFirst (before ++ FragmentSpread name loc :: after) g
  | meetsFirst_in_selection before node selectionSet after g :
      settled before →
      selectionSetOf node = Some selectionSet →
      meetsFirst selectionSet g →
      meetsFirst (before ++ node :: after) g.

(** The same for the operations of a document, in order. *)
Definition failsFirst (ast : DocumentNode) (g : string) : Prop :=
  ∃ before def after,
    operations ast = before ++ def :: after
    ∧ Forall (λ d, settled (op_selectionSet d)) before
    ∧ meetsFirst (op_selectionSet def) g.

End References.

End Ast.

(** ** The recursive walk shared by both revisions of the inliner

    [inlineFragments] of [inline-relay-query.ts] and
    [inlineFragmentSpreads] of its second revision are the same function
    up to the merge applied to the collected selections and the text of
    the error. [fuel] bounds the depth of the call stack. *)

Module Walk.
Import Ast.

(** [buildFragmentMap], the same in both revisions: a later definition
    of a name replaces an earlier one. *)
Definition buildFragmentMap (ast : DocumentNode) : FragmentMap :=
  foldl (λ fragmentMap def,
           match def with
           | FragmentDefinition d => setProperty (name_value (frag_name d)) d fragmentMap
           | _ => fragmentMap
           end) emptyObject ast.

Section Walk.
Context (merge : list SelectionNode → list SelectionNode).
Context (notFound : string → string).
Context (fragmentMap : FragmentMap).

(** The body of the loop over [node.selectionSet.selections]; [recur] is
    the recursive call. A value of [fragmentMap[fragmentName]] that is
    no fragment definition has no [selectionSet]: the recursive call
    returns it as it is and nothing is pushed for it. *)
Definition inlineStep (recur : ∀ T : Type, HasSelectionSet T → T → result T)
    (selections : list SelectionNode) (selection : SelectionNode)
  : result (list SelectionNode) :=
  match selection with
  | FragmentSpread name _ =>
      let fragmentName := name_value name in
      match getProperty fragmentMap fragmentName with
      | Undefined => Throw (notFound fragmentName)
      | Fragment fragment =>
          inlinedFragment ← recur _ _ fragment;
          Ok (selections ++ default [] (selectionSetOf inlinedFragment))
      | Inherited => Ok selections
      end
  | _ =>
      inlined ← recur _ _ selection;
      Ok (selections ++ [inlined])
  end.

Fixpoint inline (fuel : nat) (T : Type) (H : HasSelectionSet T) (node : T) : result T :=
  match selectionSetOf node with
  | None => Ok node
  | Some selectionSet =>
      match fuel with
      | O => OutOfFuel
      | S n =>
          selections ← Js.forEach (inlineStep (inline n)) [] selectionSet;
          Ok (withSelectionSet node (merge selections))
      end
  end.
#[global] Arguments inline fuel {T H} node.

(** [ast.definitions.filter(isOperation).map(def => inline(def, fragmentMap))] *)
Definition inlineOperations (fuel : nat) (ast : DocumentNode) : result DocumentNode :=
  definitions ← Js.mapArray (inline fuel) (operations ast);
  Ok (map OperationDefinition definitions).

(** The selections of a tree merged again at every level, the innermost
    first: what the specification calls the result of recursively merging
    a definition's selections. *)
Fixpoint mergedAgain (node : SelectionNode) : SelectionNode :=
  match node with
  | Field alias name arguments (Some selectionSet) loc =>
      Field alias name arguments (Some (merge (map mergedAgain selectionSet))) loc
  | InlineFragment typeCondition selectionSet loc =>
      InlineFragment typeCondition (merge (map mergedAgain selectionSet)) loc
  | _ => node
  end.

Definition operationMergedAgain (def : OperationDefinitionNode)
  : OperationDefinitionNode :=
  withSelectionSet def (merge (map mergedAgain (op_selectionSet def))).

Definition definitionMergedAgain (def : DefinitionNode) : DefinitionNode :=
  match def with
  | OperationDefinition d => OperationDefinition (operationMergedAgain d)
  | FragmentDefinition d =>
      FragmentDefinition
        (withSelectionSet d (merge (map mergedAgain (frag_selectionSet d))))
  | TypeSystemDefinition _ => def
  end.

End Walk.

(** A check that [rank] goes down along every spread written in a
    fragment definition of the document. *)
Definition rankedBy (rank : string → nat) (ast : DocumentNode) : bool :=
  forallb (λ def,
             match def with
             | FragmentDefinition d =>
                 forallb (λ h, rank h <? rank (name_value (frag_name d)))
                   (spreadsOf (frag_selectionSet d))
             | _ => true
             end) ast.

End Walk.

(** ** [inline-relay-query.ts] *)

Module InlineRelayQuery.
Import Json Ast.

(** [node.alias?.value || node.name.value]: an empty alias is falsy. *)
Definition aliasOrName (alias : option NameNode) (name : NameNode) : string :=
  match alias with
  | Some a => if String.eqb (name_value a) "" then name_value name else name_value a
  | None => name_value name
  end.

(** [node.typeCondition?.name.value || ''] *)
Definition typeNameOf (typeCondition : option NamedTypeNode) : string :=
  match typeCondition with Some t => name_value (type_name t) | None => "" end.

Definition isFieldWithAlias (alias : string) (node : SelectionNode) : bool :=
  match node with
  | Field a n _ _ _ => String.eqb (aliasOrName a n) alias
  | _ => false
  end.

Definition isInlineFragmentOn (typeName : string) (node : SelectionNode) : bool :=
  match node with
  | InlineFragment t _ _ => String.eqb (typeNameOf t) typeName
  | _ => false
  end.

(** [merged[index] = node] when [index !== -1]. *)
Definition replaceAt (index : option nat) (node : SelectionNode)
    (merged : list SelectionNode) : list SelectionNode :=
  match index with
  | Some i => <[i := node]> merged
  | None => merged
  end.

Record MergeState := {
  merged : list SelectionNode;
  seen : gmap string SelectionNode
}.

(** The key of a field in [mergeSelections]:
    [alias + JSON.stringify(selection.arguments || [])]. *)
Definition fieldKey (alias : option NameNode) (name : NameNode)
    (arguments : list ArgumentNode) : string :=
  (match alias with Some a => name_value a | None => name_value name end)
  +:+ stringify (JArray (map jsonOfArgument arguments)).

Definition inlineFragmentKey (typeCondition : option NamedTypeNode) : string :=
  "inline:" +:+ typeNameOf typeCondition.

(** The key under which [mergeSelections] records a field or an inline
    fragment; a fragment spread has none. *)
Definition mergeKey (selection : SelectionNode) : option string :=
  match selection with
  | Field alias name arguments _ _ => Some (fieldKey alias name arguments)
  | InlineFragment typeCondition _ _ => Some (inlineFragmentKey typeCondition)
  | FragmentSpread _ _ => None
  end.

(** No two siblings have the same key, at any level of the tree. *)
Fixpoint distinct (node : SelectionNode) : bool :=
  match node with
  | Field _ _ _ (Some ss) _ =>
      bool_decide (NoDup (omap mergeKey ss)) && forallb distinct ss
  | Field _ _ _ None _ => true
  | InlineFragment _ ss _ =>
      bool_decide (NoDup (omap mergeKey ss)) && forallb distinct ss
  | FragmentSpread _ _ => true
  end.

Definition distinctList (ss : list SelectionNode) : bool :=
  bool_decide (NoDup (omap mergeKey ss)) && forallb distinct ss.

(** One turn of the [forEach] of [mergeSelections]; [mergeSets] is
    [mergeSelectionSets] one level down. *)
Definition mergeStep
    (mergeSets : list SelectionNode → list SelectionNode → list SelectionNode)
    (st : MergeState) (selection : SelectionNode) : MergeState :=
  match selection with
  | Field alias name arguments selectionSet _ =>
      let alias := match alias with Some a => name_value a | None => name_value name end in
      let key := alias +:+ stringify (JArray (map jsonOfArgument arguments)) in
      match seen st !! key with
      | Some existing =>
          match selectionSet with
          | Some s2 =>
              let newField :=
                withSelectionSet existing
                  match selectionSetOf existing with
                  | Some s1 => mergeSets s1 s2
                  | None => s2
                  end in
              {| seen := <[key := newField]> (seen st);
                 merged := replaceAt
                             (Js.findIndex (isFieldWithAlias alias) (merged st))
                             newField (merged st) |}
          | None => st
          end
      | None =>
          {| seen := <[key := selection]> (seen st);
             merged := merged st ++ [selection] |}
      end
  | InlineFragment typeCondition selectionSet _ =>
      let typeName :=
        match typeCondition with Some t => name_value (type_name t) | None => "" end in
      let key := "inline:" +:+ typeName in
      match seen st !! key with
      | Some existing =>
          let newFragment :=
            withSelectionSet existing
              (mergeSets (default [] (selectionSetOf existing)) selectionSet) in
          {| seen := <[key := newFragment]> (seen st);
             merged := replaceAt
                         (Js.findIndex (isInlineFragmentOn typeName) (merged st))
                         newFragment (merged st) |}
      | None =>
          {| seen := <[key := selection]> (seen st);
             merged := merged st ++ [selection] |}
      end
  | FragmentSpread _ _ =>
      {| seen := seen st; merged := merged st ++ [selection] |}
  end.

(** [mergeSelections] and [mergeSelectionSets] call each other, one
    nesting level further down each time; [level] counts the levels left
    ([mergeSelections_eq] is the equation of the source). *)
Fixpoint mergeSelectionsAt (level : nat) (selections : list SelectionNode)
  : list SelectionNode :=
  match level with
  | O => []
  | S n =>
      merged
        (foldl (mergeStep (λ selSet1 selSet2, mergeSelectionsAt n (selSet1 ++ selSet2)))
           {| merged := []; seen := ∅ |} selections)
  end.

Definition mergeSelections (selections : list SelectionNode) : list SelectionNode :=
  mergeSelectionsAt (S (depths selections)) selections.

Definition mergeSelectionSets (selSet1 selSet2 : list SelectionNode)
  : list SelectionNode :=
  mergeSelections (selSet1 ++ selSet2).

Definition notFound (fragmentName : string) : string :=
  "Fragment " +:+ fragmentName +:+ " not found".

Definition inlineFragments
    (fuel : nat) {T : Type} `{HasSelectionSet T} (node : T)
    (fragmentMap : FragmentMap) : result T :=
  Walk.inline mergeSelections notFound fragmentMap fuel node.

Definition inlineRelayQueryFromAST (fuel : nat) (ast : DocumentNode)
  : result DocumentNode :=
  let fragmentMap := Walk.buildFragmentMap ast in
  Walk.inlineOperations mergeSelections notFound fragmentMap fuel ast.

(** Invariants of the loop of [mergeSelections]: nothing recorded is
    nested deeper than [d]; nothing recorded contains a fragment spread. *)
Definition bounded (d : nat) (st : MergeState) : Prop :=
  Forall (λ s, depth s ≤ d) (merged st)
  ∧ map_Forall (λ _ s, depth s ≤ d) (seen st).

Definition clean (st : MergeState) : Prop :=
  Forall (λ s, spreadFree s = true) (merged st)
  ∧ map_Forall (λ _ s, spreadFree s = true) (seen st).

End InlineRelayQuery.

(** ** The fragment inliner with canonical argument keys

    The second revision of [inline-relay-query.ts]: [normalizeValueNode],
    [createArgumentKey], [createFieldKey], [createInlineFragmentKey],
    [buildFragmentMap], [mergeSelectionSets], [deduplicateSelections],
    [inlineFragmentSpreads], [inlineFragmentsInDocument]. *)

Module Inliner.
Import Json Ast.

(** The values that [normalizeValueNode] returns. An object is given by
    its own properties, in the order of their creation, and by whether an
    assignment to [__proto__] on an object that has it as its prototype,
    or on the object itself, reaches the setter of [Object.prototype]: it
    does unless the object has a property [__proto__] of its own, or a
    prototype from which the setter is not reached. *)
Inductive Normalized : Type :=
  | NNull
  | NBoolean (b : bool)
  | NString (s : string)
  | NArray (items : list Normalized)
  | NObject (properties : list (string * Normalized)) (setter : bool).

(** [obj[field.name.value] = normalizeValueNode(field.value)] on the
    object that [reduce] started from [{}]. While the setter of
    [Object.prototype] is reached, an assignment to [__proto__] creates
    no property: it replaces the prototype of [obj] by a value that is an
    object, an array or [null], and does nothing with another value. *)
Definition assignField (obj : list (string * Normalized) * bool)
    (field : string * Normalized) : list (string * Normalized) * bool :=
  if String.eqb field.1 "__proto__" && obj.2 then
    match field.2 with
    | NNull => (obj.1, false)
    | NArray _ => (obj.1, true)
    | NObject _ setter => (obj.1, setter)
    | NBoolean _ | NString _ => obj
    end
  else (Js.set field.1 field.2 obj.1, obj.2).

Fixpoint normalizeValueNode (value : ValueNode) : Normalized :=
  match value with
  | ObjectValue fields _ =>
      let obj :=
        foldl assignField ([], true)
          ((fix each (fs : list ObjectFieldNode) : list (string * Normalized) :=
              match fs with
              | [] => []
              | ObjectField n v _ :: r =>
                  (name_value n, normalizeValueNode v) :: each r
              end) fields) in
      NObject obj.1 obj.2
  | ListValue values _ =>
      NArray ((fix each (vs : list ValueNode) : list Normalized :=
                 match vs with
                 | [] => []
                 | v :: r => normalizeValueNode v :: each r
                 end) values)
  | VariableNode name _ =>
      NObject [("type", NString "variable"); ("name", NString (name_value name))] true
  | BooleanValue b _ => NBoolean b
  | StringValue v _ _ | IntValue v _ | FloatValue v _ | EnumValue v _ => NString v
  | NullValue _ => NNull
  end.

(** What [JSON.stringify] goes through in a normalized value: the own
    properties of an object, in the order of [Object.entries]. *)
Fixpoint jsonOfNormalized (value : Normalized) : json :=
  match value with
  | NNull => JNull
  | NBoolean b => JBool b
  | NString s => JString s
  | NArray items =>
      JArray ((fix each (vs : list Normalized) : list json :=
                 match vs with
                 | [] => []
                 | v :: r => jsonOfNormalized v :: each r
                 end) items)
  | NObject properties _ =>
      JObject (Js.entries
                 ((fix each (ps : list (string * Normalized)) : list (string * json) :=
                     match ps with
                     | [] => []
                     | (k, v) :: r => (k, jsonOfNormalized v) :: each r
                     end) properties))
  end.

Section WithLocale.
Context {locale : Locale}.

(** The [{ name, value }] objects that [createArgumentKey] sorts. *)
Definition normalizedArgs (args : list ArgumentNode) : list (string * Normalized) :=
  map (λ arg, (name_value (arg_name arg), normalizeValueNode (arg_value arg))) args.

Definition createArgumentKey (args : list ArgumentNode) : string :=
  match args with
  | [] => ""
  | _ =>
      stringify
        (JArray (map (λ a, JObject [("name", JString (fst a));
                                    ("value", jsonOfNormalized (snd a))])
                   (Js.sort (λ a b, localeCompare (fst a) (fst b))
                      (normalizedArgs args))))
  end.

Definition createFieldKey (alias : option NameNode) (name : NameNode)
    (arguments : list ArgumentNode) : string :=
  (match alias with Some a => name_value a | None => name_value name end)
  +:+ createArgumentKey arguments.

Definition createInlineFragmentKey (typeCondition : option NamedTypeNode) : string :=
  "inline:" +:+
  match typeCondition with Some t => name_value (type_name t) | None => "" end.

(** The key under which [deduplicateSelections] files a selection. *)
Definition selectionKey (selection : SelectionNode) : string :=
  match selection with
  | Field alias name arguments _ _ => createFieldKey alias name arguments
  | InlineFragment typeCondition _ _ => createInlineFragmentKey typeCondition
  | FragmentSpread name loc =>
      "other:FragmentSpread:" +:+ stringify (jsonOfFragmentSpread name loc)
  end.

(** One turn of the loop of [deduplicateSelections]; [mergeSets] is
    [mergeSelectionSets] one level down. *)
Definition deduplicateStep
    (mergeSets : list SelectionNode → list SelectionNode → list SelectionNode)
    (selectionMap : list (string * SelectionNode)) (selection : SelectionNode)
  : list (string * SelectionNode) :=
  let key := selectionKey selection in
  match selection with
  | Field _ _ _ selectionSet _ =>
      match Js.get key selectionMap with
      | Some existing =>
          match selectionSetOf existing, selectionSet with
          | None, None => selectionMap
          | Some s1, Some s2 =>
              Js.set key (withSelectionSet existing (mergeSets s1 s2)) selectionMap
          | Some s, None | None, Some s =>
              Js.set key (withSelectionSet existing s) selectionMap
          end
      | None => Js.set key selection selectionMap
      end
  | InlineFragment _ selectionSet _ =>
      match Js.get key selectionMap with
      | Some existing =>
          Js.set key
            (withSelectionSet existing
               (mergeSets (default [] (selectionSetOf existing)) selectionSet))
            selectionMap
      | None => Js.set key selection selectionMap
      end
  | FragmentSpread _ _ => Js.set key selection selectionMap
  end.

(** [deduplicateSelections] and [mergeSelectionSets] call each other, one
    nesting level further down each time; [level] counts the levels left
    ([deduplicateSelections_eq] is the equation of the source). *)
Fixpoint deduplicateSelectionsAt (level : nat) (selections : list SelectionNode)
  : list SelectionNode :=
  match level with
  | O => []
  | S n =>
      Js.values
        (foldl (deduplicateStep (λ set1 set2, deduplicateSelectionsAt n (set1 ++ set2)))
           [] selections)
  end.

Definition deduplicateSelections (selections : list SelectionNode)
  : list SelectionNode :=
  deduplicateSelectionsAt (S (depths selections)) selections.

Definition mergeSelectionSets (set1 set2 : list SelectionNode) : list SelectionNode :=
  deduplicateSelections (set1 ++ set2).

Definition notFound (fragmentName : string) : string :=
  "Fragment " +:+ String dquote fragmentName +:+ String dquote " not found".

Definition inlineFragmentSpreads
    (fuel : nat) {T : Type} `{HasSelectionSet T} (node : T)
    (fragmentMap : FragmentMap) : result T :=
  Walk.inline deduplicateSelections notFound fragmentMap fuel node.

Definition inlineFragmentsInDocument (fuel : nat) (ast : DocumentNode)
  : result DocumentNode :=
  let fragmentMap := Walk.buildFragmentMap ast in
  Walk.inlineOperations deduplicateSelections notFound fragmentMap fuel ast.

(** Invariant of the loop of [deduplicateSelections]: every entry of the
    map is filed under its own key, and no key is filed twice. *)
Definition filed (m : list (string * SelectionNode)) : Prop :=
  Forall (λ kv, selectionKey kv.2 = kv.1) m ∧ NoDup (map fst m).

End WithLocale.
End Inliner.


(** ** What the output of the inliner is measured against *)

Module Canonical.
Import Json Ast.

(** The keys of a list in the order of their first occurrence. *)
Definition firstKeys (keys : list string) : list string :=
  foldl (λ acc k, if decide (k ∈ acc) then acc else acc ++ [k]) [] keys.

Section WithLocale.
Context {locale : Locale}.

(** No two siblings have the same key, at any level of the tree. *)
Fixpoint canonical (node : SelectionNode) : bool :=
  match node with
  | Field _ _ _ (Some ss) _ =>
      bool_decide (NoDup (map Inliner.selectionKey ss)) && forallb canonical ss
  | Field _ _ _ None _ => true
  | InlineFragment _ ss _ =>
      bool_decide (NoDup (map Inliner.selectionKey ss)) && forallb canonical ss
  | FragmentSpread _ _ => true
  end.

Definition canonicalList (ss : list SelectionNode) : bool :=
  bool_decide (NoDup (map Inliner.selectionKey ss)) && forallb canonical ss.

Definition canonicalDocument (ast : DocumentNode) : bool :=
  forallb (λ def, canonicalList (definitionSelections def)) ast.

End WithLocale.
End Canonical.

Module Positions.
Import Json Ast.

Definition nameWithoutLoc (n : NameNode) : NameNode :=
  {| name_value := name_value n; name_loc := None |}.

(** A value with the position information of all its nodes removed. *)
Fixpoint valueWithoutLoc (value : ValueNode) : ValueNode :=
  match value with
  | VariableNode name _ => VariableNode (nameWithoutLoc name) None
  | IntValue v _ => IntValue v None
  | FloatValue v _ => FloatValue v None
  | StringValue v block _ => StringValue v block None
  | BooleanValue b _ => BooleanValue b None
  | NullValue _ => NullValue None
  | EnumValue v _ => EnumValue v None
  | ListValue values _ =>
      ListValue ((fix each (vs : list ValueNode) : list ValueNode :=
                    match vs with
                    | [] => []
                    | v :: r => valueWithoutLoc v :: each r
                    end) values) None
  | ObjectValue fields _ =>
      ObjectValue ((fix each (fs : list ObjectFieldNode) : list ObjectFieldNode :=
                      match fs with
                      | [] => []
                      | ObjectField n v _ :: r =>
                          ObjectField (nameWithoutLoc n) (valueWithoutLoc v) None :: each r
                      end) fields) None
  end.

Definition argumentWithoutLoc (arg : ArgumentNode) : ArgumentNode :=
  {| arg_name := nameWithoutLoc (arg_name arg);
     arg_value := valueWithoutLoc (arg_value arg);
     arg_loc := None |}.

End Positions.

Module Fragments.
Import Ast.

(** The fragment definitions of a document that have the name [g], in
    the order of the document. *)
Definition fragmentsNamed (g : string) (ast : DocumentNode)
  : list FragmentDefinitionNode :=
  flat_map (λ def,
              match def with
              | FragmentDefinition d =>
                  if String.eqb (name_value (frag_name d)) g then [d] else []
              | _ => []
              end) ast.

End Fragments.

Module Literals.
Import Ast.

(** The text of a literal that [normalizeValueNode] reads as
    [value.value]: an integer, a float, a string or an enum value. *)
Definition scalarText (value : ValueNode) : option string :=
  match value with
  | IntValue v _ | FloatValue v _ | StringValue v _ _ | EnumValue v _ => Some v
  | _ => None
  end.

End Literals.


(** ** [graphql-parser.ts] *)

Module Parser.

Inductive DefinitionType := query | fragment.

(** The type [Definition] of the source. *)
Record ParsedDefinition := {
  type : DefinitionType;
  filename : string;
  content : string
}.

Definition keyword (t : DefinitionType) : string :=
  match t with query => "query" | fragment => "fragment" end.

Definition charIn (lo hi : N) (c : ascii) : bool :=
  ((lo <=? N_of_ascii c) && (N_of_ascii c <=? hi))%N.

(** [/\s/] on a code unit below 256: TAB, LF, VT, FF, CR, SP, NBSP. *)
Definition isSpace (c : ascii) : bool := charIn 9 13 c || charIn 32 32 c || charIn 160 160 c.

(** [[A-Za-z0-9_]] *)
Definition isNameChar (c : ascii) : bool :=
  charIn 65 90 c || charIn 97 122 c || charIn 48 57 c || charIn 95 95 c.

Definition isNot (d : ascii) (c : ascii) : bool := negb (Ascii.eqb c d).

(** [input.substring(index)] *)
Fixpoint from (index : nat) (input : string) : string :=
  match index, input with
  | O, _ => input
  | S n, String _ rest => from n rest
  | S _, EmptyString => EmptyString
  end.

(** [input.substring(start, end)] for [start <= end]. *)
Definition substring (input : string) (start end_ : nat) : string :=
  String.substring start (end_ - start) input.

(** [input.startsWith(word, index)] *)
Definition startsWith (input word : string) (index : nat) : bool :=
  String.prefix word (from index input).

(** The longest prefix of code units that all satisfy [p]. *)
Fixpoint span (p : ascii → bool) (s : string) : string :=
  match s with
  | String c rest => if p c then String c (span p rest) else EmptyString
  | EmptyString => EmptyString
  end.

(** [while (index < length && p(input[index])) index++] *)
Definition skipWhile (p : ascii → bool) (input : string) (index : nat) : nat :=
  index + String.length (span p (from index input)).

(** The brace counter, run over [rest = input.substring(index)]: the
    index of the [}] that brings the count back to zero. *)
Fixpoint matchBraces (rest : string) (index : nat) (braceCount : Z) : option nat :=
  match rest with
  | EmptyString => None
  | String c rest' =>
      if Ascii.eqb c "{" then matchBraces rest' (S index) (braceCount + 1)
      else if Ascii.eqb c "}" then
        if (braceCount - 1 =? 0)%Z then Some index
        else matchBraces rest' (S index) (braceCount - 1)
      else matchBraces rest' (S index) braceCount
  end.

Definition endsWith (s suffix : string) : bool :=
  (String.length suffix <=? String.length s)%nat &&
  String.eqb (from (String.length s - String.length suffix) s) suffix.

(** [name.indexOf('_')], with [None] for [-1]. *)
Fixpoint indexOf (c : ascii) (s : string) : option nat :=
  match s with
  | EmptyString => None
  | String d rest => if Ascii.eqb d c then Some O else S <$> indexOf c rest
  end.

Definition computeFilename (t : DefinitionType) (name : string) : string :=
  match t with
  | query =>
      let baseName :=
        if endsWith name "Query"
        then substring name 0 (String.length name - String.length "Query")
        else name in
      baseName +:+ ".js"
  | fragment =>
      let baseName :=
        match indexOf "_" name with
        | Some underscoreIndex => substring name 0 underscoreIndex
        | None => name
        end in
      baseName +:+ ".js"
  end.

(** What one turn of the outer [while] does. *)
Inductive Turn : Type :=
  | Next (index : nat) (definitions : list ParsedDefinition)
  | Break (definitions : list ParsedDefinition)
  | Raise (message : string).

Definition parseTurn (input : string) (index : nat)
    (definitions : list ParsedDefinition) : Turn :=
  let length := String.length input in
  let index := skipWhile isSpace input index in
  if (length <=? index)%nat then Break definitions else
  if startsWith input "query" index || startsWith input "fragment" index then
    let startDefinition := index in
    let type := if startsWith input "query" index then query else fragment in
    let index := (index + String.length (keyword type))%nat in
    let index := skipWhile isSpace input index in
    let name := span isNameChar (from index input) in
    if String.eqb name "" then
      Raise ("Could not parse definition name at position " +:+ pretty index)
    else
      let index := (index + String.length name)%nat in
      let index := skipWhile (isNot "{") input index in
      if (length <=? index)%nat then Break definitions else
      match matchBraces (from index input) index 0 with
      | None => Raise ("No matching closing brace found for definition " +:+ name)
      | Some endBlockIndex =>
          let content := substring input startDefinition (endBlockIndex + 1) in
          Next (endBlockIndex + 1)
               (definitions ++ [{| type := type;
                                   filename := computeFilename type name;
                                   content := content |}])
      end
  else Next (index + 1) definitions.

Fixpoint parseLoop (fuel : nat) (input : string) (index : nat)
    (definitions : list ParsedDefinition) : result (list ParsedDefinition) :=
  match fuel with
  | O => OutOfFuel
  | S n =>
      if (String.length input <=? index)%nat then Ok definitions else
      match parseTurn input index definitions with
      | Next index' definitions' => parseLoop n input index' definitions'
      | Break definitions' => Ok definitions'
      | Raise message => Throw message
      end
  end.

(** Every turn moves [index] forward, so [input.length + 1] turns are
    never used up ([parseLoop_returns]). *)
Definition parseGraphQLDefinitions (input : string) : result (list ParsedDefinition) :=
  parseLoop (S (String.length input)) input 0 [].

(** *** What the scanner's output is measured against *)

(** The loop heads that a run on [input] goes through: [index] and the
    definitions collected so far. *)
Inductive scans (input : string) : nat → list ParsedDefinition → Prop :=
  | scans_start : scans input 0 []
  | scans_next index definitions index' definitions' :
      scans input index definitions →
      index < String.length input →
      parseTurn input index definitions = Next index' definitions' →
      scans input index' definitions'.

(** Opening braces less closing braces. *)
Fixpoint braceDepth (s : string) : Z :=
  match s with
  | EmptyString => 0%Z
  | String c rest =>
      ((if Ascii.eqb c "{" then 1 else if Ascii.eqb c "}" then -1 else 0)
       + braceDepth rest)%Z
  end.

(** [open] is the first [{] at or after [start]. *)
Definition opensAt (input : string) (start open : nat) : Prop :=
  String.get open input = Some "{"%char
  ∧ ∀ j, start ≤ j < open → String.get j input ≠ Some "{"%char.

(** [close] is the [}] at which the depth counted from [open] is back to
    zero for the first time. *)
Definition closesAt (input : string) (open close : nat) : Prop :=
  String.get close input = Some "}"%char
  ∧ braceDepth (substring input open (close + 1)) = 0%Z
  ∧ ∀ j, open ≤ j < close → (0 < braceDepth (substring input open (j + 1)))%Z.

(** Where a definition lies in the source: the offset of its keyword,
    of its first [{] and of its last [}]. *)
Record Extent := { start : nat; open : nat; close : nat }.

Definition liesAt (input : string) (def : ParsedDefinition) (x : Extent) : Prop :=
  content def = substring input (start x) (close x + 1)
  ∧ startsWith input (keyword (type def)) (start x) = true
  ∧ opensAt input (start x) (open x)
  ∧ closesAt input (open x) (close x)
  ∧ close x < String.length input.

(** Each extent ends before the next one starts. *)
Definition inSourceOrder (extents : list Extent) : Prop :=
  StronglySorted (λ x y, close x < start y) extents.

(** Invariant of the loop: every definition collected so far lies in
    the part of the source already scanned. *)
Definition collected (input : string) (index : nat)
    (definitions : list ParsedDefinition) : Prop :=
  ∃ extents, Forall2 (liesAt input) definitions extents
             ∧ inSourceOrder extents
             ∧ Forall (λ x, close x < index) extents.

End Parser.


(** ** The name of a definition *)

Module Names.
Import Parser.

(** The name of a definition, read from its content as the scanner
    reads it from the input: the name characters that follow the keyword
    and any white space. *)
Definition definitionName (def : ParsedDefinition) : string :=
  let index := skipWhile isSpace (content def) (String.length (keyword (type def))) in
  span isNameChar (from index (content def)).

Definition chars (s : string) : list ascii := list_ascii_of_string s.

End Names.

(** ** [graphql-merge.ts] *)

Module Merge.
Import Parser.

Record MergedDefinition := {
  merged_filename : string;
  merged_content : string
}.

Definition newline : string := String (ascii_of_N 10) "".

(** [graphql`${def.content}`] *)
Definition wrap (def : ParsedDefinition) : string :=
  "graphql`" +:+ content def +:+ "`".

(** [{ filename, content: defs.map(wrap).join('\n') }] *)
Definition render (entry : string * list ParsedDefinition) : MergedDefinition :=
  {| merged_filename := entry.1;
     merged_content := Json.join newline (map wrap entry.2) |}.

(** The own properties of [acc] after [def] is pushed to the array
    under its filename, a new array if there is none. *)
Definition pushed (acc : list (string * list ParsedDefinition))
    (def : ParsedDefinition) : list (string * list ParsedDefinition) :=
  Js.set (filename def) (default [] (Js.get (filename def) acc) ++ [def]) acc.

(** The definitions with filename [f], in input order. *)
Definition group (f : string) (definitions : list ParsedDefinition)
  : list ParsedDefinition :=
  filter (λ def, filename def = f) definitions.

(** The own properties that the groups have, in the order of their
    creation, when every definition can be pushed. *)
Definition grouped (definitions : list ParsedDefinition)
  : list (string * list ParsedDefinition) :=
  foldl pushed [] definitions.

(** No filename is the name of a property of [Object.prototype]. *)
Definition pushable (definitions : list ParsedDefinition) : bool :=
  forallb (λ def, negb (Js.inObjectPrototype (filename def))) definitions.

Section WithLocale.
Context {locale : Locale} {engine : Engine}.

(** [(acc[def.filename] ??= []).push(def)] on the object that [reduce]
    started from [{}]; [acc] holds its own properties in the order of
    their creation. When [acc] has no property [def.filename] of its own
    and [Object.prototype] has one, [acc[def.filename]] is that property:
    it is not nullish, so nothing is assigned, and it has no [push]. *)
Definition addToGroup (acc : list (string * list ParsedDefinition))
    (def : ParsedDefinition) : result (list (string * list ParsedDefinition)) :=
  match Js.get (filename def) acc with
  | Some defs => Ok (Js.set (filename def) (defs ++ [def]) acc)
  | None =>
      if Js.inObjectPrototype (filename def) then Throw notAFunction
      else Ok (Js.set (filename def) [def] acc)
  end.

(** [definitions.reduce(..., {})] *)
Definition groupByFilename (definitions : list ParsedDefinition)
  : result (list (string * list ParsedDefinition)) :=
  Js.forEach addToGroup [] definitions.

(** The comparator handed to [defs.sort]. *)
Definition compareDefinitions (a b : ParsedDefinition) : Z :=
  match type a, type b with
  | query, query | fragment, fragment => localeCompare (content a) (content b)
  | query, fragment => (-1)%Z
  | fragment, query => 1%Z
  end.

(** The comparator handed to [Object.entries(groups).sort]. *)
Definition compareEntries (a b : string * list ParsedDefinition) : Z :=
  localeCompare a.1 b.1.

(** The groups in output order, each with its definitions in output
    order, before their contents are wrapped and joined. *)
Definition sortedGroups (definitions : list ParsedDefinition)
  : result (list (string * list ParsedDefinition)) :=
  groups ← groupByFilename definitions;
  Ok (map (λ entry, (entry.1, Js.sort compareDefinitions entry.2))
        (Js.sort compareEntries (Js.entries groups))).

Definition mergeDefinitions (definitions : list ParsedDefinition)
  : result (list MergedDefinition) :=
  groups ← sortedGroups definitions;
  Ok (map render groups).

(** A group with its definitions in output order. *)
Definition ordered (entry : string * list ParsedDefinition)
  : string * list ParsedDefinition :=
  (entry.1, Js.sort compareDefinitions entry.2).

(** The groups in output order when every definition can be pushed. *)
Definition arranged (definitions : list ParsedDefinition)
  : list (string * list ParsedDefinition) :=
  map ordered (Js.sort compareEntries (Js.entries (grouped definitions))).

(** [a] may stand before [b] in a group: queries before fragments, and
    by content within a type. *)
Definition precedes (a b : ParsedDefinition) : Prop :=
  match type a, type b with
  | query, fragment => True
  | fragment, query => False
  | _, _ => (localeCompare (content a) (content b) ≤ 0)%Z
  end.

End WithLocale.
End Merge.


(** ** [compileRelay]: the files written for the Relay compiler *)

Module CompileRelay.
Import Parser Merge.

(** The [mergedFiles] of [compileRelay]: the operations text split into
    definitions, and the definitions merged by filename. Each of them is
    then written to [path.join(srcDir, file.filename)]; an error of the
    scanner ends [compileRelay] before any file is written. *)
Definition mergedFiles {locale : Locale} {engine : Engine} (operations : string)
  : result (list MergedDefinition) :=
  definitions ← parseGraphQLDefinitions operations;
  mergeDefinitions definitions.

End CompileRelay.

(** ** [components/EditorPanel.svelte]: the error shown for a query *)

Module EditorPanel.

(** [s.includes(searchString)] *)
Fixpoint includes (s searchString : string) : bool :=
  String.prefix searchString s
  || match s with
     | String _ rest => includes rest searchString
     | EmptyString => false
     end.

(** The [userFriendlyError] that the [catch] of [compileQuery] computes
    from the message of the error caught. *)
Definition userFriendlyError (errorMessage : string) : string :=
  if includes errorMessage "SyntaxError" then
    "Syntax Error: Please check your GraphQL syntax"
  else if includes errorMessage "Cannot find fragment" then
    "Fragment Error: The referenced fragment could not be found"
  else if includes errorMessage "Expected Name" then
    "Syntax Error: Expected a name in your GraphQL query"
  else errorMessage.

End EditorPanel.

(** ** [stores/tab-store.svelte.ts]

    The state of the store, [tabs] and [activeTabId], and the actions on
    it as functions from state to state. [nanoid()] is random: the
    identifier it returns is an argument of the action that calls it.
    [JSON.parse] is an argument of [loadFromStorage]; a call of it, or of
    the storage, that throws is [None]. The effect that writes every
    state back to the storage is left out. *)

Module TabStore.

Record Tab := {
  id : string;
  title : string;
  operationText : string;
  optimizedOperationText : string
}.

Record Storage := { getItem : string → option (option string) }.

Definition DEFAULT_QUERY : string :=
  String.concat Merge.newline
    ["query UserQuery($id: ID!) {";
     "  user(id: $id) {";
     "    ...UserFragment";
     "    friends {";
     "      ...UserFragment";
     "    }";
     "  }";
     "}";
     "fragment UserFragment on User {";
     "  id";
     "  name";
     "  age";
     "}"].

Definition TABS_STORAGE_KEY : string := "graphql-inliner-tabs".
Definition ACTIVE_TAB_STORAGE_KEY : string := "graphql-inliner-active-tab".

Definition hasId (tabId : string) (tab : Tab) : bool := String.eqb (id tab) tabId.

Section Load.
Context (parse : string → option (list Tab)).

(** The body of the [try] of [loadFromStorage]. *)
Definition readStorage (storage : Storage) : option (list Tab * string) :=
  storedTabs ← getItem storage TABS_STORAGE_KEY;
  storedActiveTabId ← getItem storage ACTIVE_TAB_STORAGE_KEY;
  tabs ← match storedTabs with
         | Some text => if String.eqb text "" then Some [] else parse text
         | None => Some []
         end;
  let activeTabId := default "" storedActiveTabId in
  let activeTabId :=
    match tabs with
    | first :: _ => if existsb (hasId activeTabId) tabs then activeTabId else id first
    | [] => activeTabId
    end in
  Some (tabs, activeTabId).

Definition loadFromStorage (storage : option Storage) : list Tab * string :=
  match storage with
  | None => ([], "")
  | Some storage => default ([], "") (readStorage storage)
  end.

End Load.

Record Store := { tabs : list Tab; activeTabId : string }.

(** [createTab(title, withDefaultContent)] with [tabs] the tabs of the
    store and [newId] what [nanoid()] returns. *)
Definition createTab (newId : string) (tabs : list Tab)
    (title : string) (withDefaultContent : bool) : Tab :=
  {| id := newId;
     title := if String.eqb title "" then "Query " +:+ pretty (length tabs + 1) else title;
     operationText := if withDefaultContent then DEFAULT_QUERY else "";
     optimizedOperationText := "" |}.

(** [createTabStore(storage)], with [storage] the storage in use, if
    any. The first tab is created before the store has tabs; its title
    is given, so that their number is not asked for. *)
Definition createTabStore (parse : string → option (list Tab))
    (storage : option Storage) (newId : string) : Store :=
  let '(initialTabs, initialActiveId) := loadFromStorage parse storage in
  let tabs :=
    match initialTabs with
    | [] => [createTab newId [] "Example Query" true]
    | _ => initialTabs
    end in
  {| tabs := tabs;
     activeTabId :=
       if negb (String.eqb initialActiveId "") then initialActiveId
       else match tabs with first :: _ => id first | [] => "" end |}.

(** [tabs.find((tab) => tab.id === activeTabId) || tabs[0]] *)
Definition activeTab (st : Store) : option Tab :=
  match find (hasId (activeTabId st)) (tabs st) with
  | Some tab => Some tab
  | None => head (tabs st)
  end.

Definition addTab (newId : string) (withDefaultContent : bool) (st : Store) : Store :=
  let newTab := createTab newId (tabs st) "" withDefaultContent in
  {| tabs := tabs st ++ [newTab]; activeTabId := id newTab |}.

(** [tabs[i].id] for an index [i] of [tabs]. *)
Definition idAt (i : nat) (tabs : list Tab) (otherwise : string) : string :=
  match tabs !! i with Some tab => id tab | None => otherwise end.

Definition closeTab (tabId : string) (st : Store) : Store :=
  let activeTabId :=
    if String.eqb (activeTabId st) tabId then
      match Js.findIndex (hasId tabId) (tabs st) with
      | Some (S i) => idAt i (tabs st) (activeTabId st)
      | _ => if (1 <? length (tabs st)) then idAt 1 (tabs st) (activeTabId st)
             else activeTabId st
      end
    else activeTabId st in
  {| tabs := match Js.findIndex (hasId tabId) (tabs st) with
             | Some index => delete index (tabs st)
             | None => tabs st
             end;
     activeTabId := activeTabId |}.

Definition setActiveTab (tabId : string) (st : Store) : Store :=
  {| tabs := tabs st; activeTabId := tabId |}.

(** An assignment to the first tab that has the identifier, if any. *)
Definition updateFirst (tabId : string) (f : Tab → Tab) (st : Store) : Store :=
  match Js.findIndex (hasId tabId) (tabs st) with
  | Some index => {| tabs := alter f index (tabs st); activeTabId := activeTabId st |}
  | None => st
  end.

Definition updateTabTitle (tabId newTitle : string) (st : Store) : Store :=
  updateFirst tabId
    (λ tab, {| id := id tab;
               title := if String.eqb newTitle "" then title tab else newTitle;
               operationText := operationText tab;
               optimizedOperationText := optimizedOperationText tab |}) st.

Definition updateTabContent (tabId operationText' optimizedOperationText' : string)
    (st : Store) : Store :=
  updateFirst tabId
    (λ tab, {| id := id tab; title := title tab;
               operationText := operationText';
               optimizedOperationText := optimizedOperationText' |}) st.

(** The calls that the components make on the store. *)
Inductive Action : Type :=
  | AddTab (newId : string) (withDefaultContent : bool)
  | CloseTab (tabId : string)
  | SetActiveTab (tabId : string)
  | UpdateTabTitle (tabId title : string)
  | UpdateTabContent (tabId operationText optimizedOperationText : string).

Definition act (a : Action) (st : Store) : Store :=
  match a with
  | AddTab newId withDefaultContent => addTab newId withDefaultContent st
  | CloseTab tabId => closeTab tabId st
  | SetActiveTab tabId => setActiveTab tabId st
  | UpdateTabTitle tabId title => updateTabTitle tabId title st
  | UpdateTabContent tabId a b => updateTabContent tabId a b st
  end.

Definition ids (st : Store) : list string := map id (tabs st).

(** What the components rely on: an identifier that [nanoid()] returns
    is not in use, and the tab that is made active is one of the tabs. *)
Definition expected (a : Action) (st : Store) : Prop :=
  match a with
  | AddTab newId _ => newId ∉ ids st
  | SetActiveTab tabId => tabId ∈ ids st
  | _ => True
  end.

(** No two tabs have the same identifier, and while there are tabs
    the active identifier is that of one of them. *)
Definition consistent (st : Store) : Prop :=
  NoDup (ids st) ∧ (tabs st ≠ [] → activeTabId st ∈ ids st).

(** The store of the test that closes tabs. *)
Definition threeTabs : Store :=
  {| tabs := [{| id := "tab-1"; title := "Tab 1"; operationText := "";
                 optimizedOperationText := "" |};
              {| id := "tab-2"; title := "Tab 2"; operationText := "";
                 optimizedOperationText := "" |};
              {| id := "tab-3"; title := "Tab 3"; operationText := "";
                 optimizedOperationText := "" |}];
     activeTabId := "tab-2" |}.

End TabStore.

(** ** Two collations *)

Module Locales.

(** The order of strings by code unit: the collation of a runtime whose
    locale sorts by code point. *)
Fixpoint ordinalCompare (a b : string) : Z :=
  match a, b with
  | EmptyString, EmptyString => 0
  | EmptyString, String _ _ => -1
  | String _ _, EmptyString => 1
  | String c a', String d b' =>
      if (N_of_ascii c <? N_of_ascii d)%N then -1
      else if (N_of_ascii d <? N_of_ascii c)%N then 1
      else ordinalCompare a' b'
  end%Z.

Definition ordinal : Locale := {| localeCompare := ordinalCompare |}.

(** A collation in which every lower-case letter sorts before every
    upper-case one, so that [a] comes before [B] as it does in the
    Unicode collation of most locales: strings are compared by code unit
    after the case of their letters is exchanged. *)
Definition swapCase (c : ascii) : ascii :=
  let n := N_of_ascii c in
  if ((65 <=? n) && (n <=? 90))%N then ascii_of_N (n + 32)
  else if ((97 <=? n) && (n <=? 122))%N then ascii_of_N (n - 32)
  else c.

Fixpoint swapCases (s : string) : string :=
  match s with
  | EmptyString => EmptyString
  | String c rest => String (swapCase c) (swapCases rest)
  end.

Definition lowerFirst : Locale :=
  {| localeCompare a b := ordinalCompare (swapCases a) (swapCases b) |}.

(** An engine, with some wording for its [TypeError]. *)
Definition anEngine : Engine :=
  {| notAFunction := "acc[def.filename].push is not a function" |}.

End Locales.

(** ** Documents and texts used below *)

Module Examples.
Import Json Ast Parser.

Definition identifier (s : string) : NameNode :=
  {| name_value := s; name_loc := None |}.
Definition leaf (s : string) : SelectionNode :=
  Field None (identifier s) [] None None.
Definition nested (s : string) (ss : list SelectionNode) : SelectionNode :=
  Field None (identifier s) [] (Some ss) None.
Definition spread (s : string) : SelectionNode :=
  FragmentSpread (identifier s) None.
Definition onType (s : string) : NamedTypeNode :=
  {| type_name := identifier s; type_loc := None |}.
Definition int (n v : string) : ArgumentNode :=
  {| arg_name := identifier n; arg_value := IntValue v None; arg_loc := None |}.
Definition queryOf (ss : list SelectionNode) : DefinitionNode :=
  OperationDefinition {| op_operation := QUERY; op_name := Some (identifier "Q");
                         op_selectionSet := ss |}.
Definition fragmentOf (name : string) (ss : list SelectionNode) : DefinitionNode :=
  FragmentDefinition {| frag_name := identifier name;
                        frag_typeCondition := onType "T";
                        frag_selectionSet := ss;
                        frag_loc := None |}.

(** [{ id, account { id }, ...F }] with [fragment F on T { id, account { x } }] *)
Definition scenario1 : DocumentNode :=
  [queryOf [leaf "id"; nested "account" [leaf "id"]; spread "F"];
   fragmentOf "F" [leaf "id"; nested "account" [leaf "x"]]].

Definition scenario1_inlined : DocumentNode :=
  [queryOf [leaf "id"; nested "account" [leaf "id"; leaf "x"]]].

(** [{ ...A }] with [fragment A on T { ...A }] *)
Definition selfSpreading : DocumentNode :=
  [queryOf [spread "A"]; fragmentOf "A" [spread "A"]].

(** [{ ...A, ...Missing }] with [fragment A on T { ...A }] *)
Definition cycleBeforeMissing : DocumentNode :=
  [queryOf [spread "A"; spread "Missing"]; fragmentOf "A" [spread "A"]].

(** [{ ...A }] with [fragment A on T { ...B }] and [fragment B on T { ...A }] *)
Definition mutualCycle : DocumentNode :=
  [queryOf [spread "A"]; fragmentOf "A" [spread "B"]; fragmentOf "B" [spread "A"]].

(** [{ id, ...Missing }] *)
Definition missingFragment : DocumentNode :=
  [queryOf [leaf "id"; spread "Missing"]].

(** [{ ...Missing, ...A }] with [fragment A on T { ...A }] *)
Definition missingBeforeCycle : DocumentNode :=
  [queryOf [spread "Missing"; spread "A"]; fragmentOf "A" [spread "A"]].

(** [{ id, ...constructor }] *)
Definition inheritedSpread : DocumentNode :=
  [queryOf [leaf "id"; spread "constructor"]].

(** [{ ...kind }], and the same with [fragment __proto__ on T { x }] *)
Definition kindSpread : DocumentNode := [queryOf [spread "kind"]].
Definition kindSpreadWithPrototype : DocumentNode :=
  [queryOf [spread "kind"]; fragmentOf "__proto__" [leaf "x"]].

(** [{ id }] with [fragment F on T { x }] *)
Definition unusedFragment : DocumentNode :=
  [queryOf [leaf "id"]; fragmentOf "F" [leaf "x"]].

(** [{ id, account { x, x }, id }] *)
Definition repeatedField : DocumentNode :=
  [queryOf [leaf "id"; nested "account" [leaf "x"; leaf "x"]; leaf "id"]].

Definition twoQueries : string := "query A{f} query B (".

Definition scenario2 : string := "query A{f} fragment B_x on T{g}".

Definition queryNamed (name content : string) : ParsedDefinition :=
  {| type := query; filename := computeFilename query name; content := content |}.

Definition threeDefinitions : list ParsedDefinition :=
  [{| type := fragment; filename := "b.js"; content := "fragment b_x on T{g}" |};
   {| type := query; filename := "b.js"; content := "query bQuery{f}" |};
   {| type := query; filename := "a.js"; content := "query aQuery{f}" |}].

(** One definition under the name of a method of [Object.prototype]. *)
Definition inheritedFilename : list ParsedDefinition :=
  [{| type := query; filename := "constructor"; content := "query Q{f}" |}].

Definition mixedCase : list ParsedDefinition :=
  [{| type := query; filename := "B.js"; content := "query BQuery{f}" |};
   {| type := query; filename := "a.js"; content := "query aQuery{f}" |}].

End Examples.

(** * Properties *)

(** ** Selection trees *)

Module TreeFacts.
Import Ast.

(** Induction over selection trees, children included. *)
Lemma SelectionNode_tree_ind (P : SelectionNode → Prop) :
  (∀ a n args l, P (Field a n args None l)) →
  (∀ a n args ss l, Forall P ss → P (Field a n args (Some ss) l)) →
  (∀ t ss l, Forall P ss → P (InlineFragment t ss l)) →
  (∀ n l, P (FragmentSpread n l)) →
  ∀ node, P node.
Proof.
  intros Hleaf Hfield Hinline Hspread.
  fix IH 1. intros [a n args [ss|] l | t ss l | n l].
  - apply Hfield. induction ss as [|s ss IHss]; constructor; [apply IH | apply IHss].
  - apply Hleaf.
  - apply Hinline. induction ss as [|s ss IHss]; constructor; [apply IH | apply IHss].
  - apply Hspread.
Qed.

Lemma depths_nil : depths [] = 0%nat.
Proof. reflexivity. Qed.

Lemma depths_cons s l : depths (s :: l) = Nat.max (depth s) (depths l).
Proof. reflexivity. Qed.

Lemma depths_app l1 l2 : depths (l1 ++ l2) = Nat.max (depths l1) (depths l2).
Proof. unfold depths. rewrite map_app. apply list_max_app. Qed.

Lemma depths_le d l : depths l ≤ d ↔ Forall (λ s, depth s ≤ d) l.
Proof.
  unfold depths. rewrite list_max_le. rewrite Forall_map. reflexivity.
Qed.

Lemma depth_selectionSetOf node ss :
  selectionSetOf node = Some ss → depth node = S (depths ss).
Proof. destruct node as [? ? ? [?|] ?| |]; simpl; intros; simplify_eq; done. Qed.

Lemma depth_withSelectionSet node ss :
  depth (withSelectionSet node ss) ≤ S (depths ss).
Proof. destruct node; simpl; unfold depths; lia. Qed.

Lemma forallb_Forall {A} (f : A → bool) l :
  forallb f l = true ↔ Forall (λ x, f x = true) l.
Proof.
  induction l as [|x l IH]; simpl.
  - split; [constructor | done].
  - rewrite andb_true_iff, IH. split.
    + intros [??]. by constructor.
    + by inversion 1.
Qed.

Lemma spreadFree_selectionSetOf node ss :
  spreadFree node = true → selectionSetOf node = Some ss →
  Forall (λ s, spreadFree s = true) ss.
Proof.
  destruct node as [? ? ? [?|] ?| |]; simpl; intros Hn ?; simplify_eq;
    by apply forallb_Forall.
Qed.

Lemma spreadFree_withSelectionSet node ss :
  spreadFree node = true → Forall (λ s, spreadFree s = true) ss →
  spreadFree (withSelectionSet node ss) = true.
Proof.
  destruct node; simpl; intros Hn Hss; try done; by apply forallb_Forall.
Qed.

Ltac fold_depths :=
  repeat match goal with
  | H : context [list_max (map depth ?l)] |- _ =>
      change (list_max (map depth l)) with (depths l) in H
  | |- context [list_max (map depth ?l)] =>
      change (list_max (map depth l)) with (depths l)
  end.

(** A ranking goes down along every chain of references, so that no
    fragment of a ranked map is on a cycle. *)
Lemma ranked_reaches (fragmentMap : FragmentMap)
    (rank : string → nat) selections g :
  ranked fragmentMap rank →
  reaches fragmentMap selections g →
  ∀ g0 fragment,
    fragmentMap !! g0 = Some fragment →
    frag_selectionSet fragment = selections →
    is_Some (fragmentMap !! g) →
    rank g < rank g0.
Proof.
  intros Hranked Hreaches.
  induction Hreaches as [selections g Hg | selections h via g Hh Hvia _ IH];
    intros g0 fragment Hg0 <- Hsome.
  - by eapply Hranked.
  - pose proof (IH h via Hvia eq_refl Hsome) as Hlow.
    pose proof (Hranked g0 fragment h Hg0 Hh (mk_is_Some _ _ Hvia)) as Hhigh.
    lia.
Qed.

Lemma acyclic_not_onCycle (fragmentMap : FragmentMap) g :
  acyclic fragmentMap → ¬ onCycle fragmentMap g.
Proof.
  intros [rank Hranked] (fragment & Hg & Hreaches).
  pose proof (ranked_reaches _ _ _ _ Hranked Hreaches g fragment Hg eq_refl
                (ltac:(by eexists))).
  lia.
Qed.

End TreeFacts.

Module JsFacts.

Lemma foldl_inv_ext {A B} (I : A → Prop) (P : B → Prop) (f g : A → B → A) a l :
  I a → Forall P l →
  (∀ a x, I a → P x → f a x = g a x ∧ I (f a x)) →
  foldl f a l = foldl g a l ∧ I (foldl f a l).
Proof.
  intros Ha Hl Hstep. revert a Ha.
  induction Hl as [|x l Hx Hl IH]; intros a Ha; simpl; [done|].
  destruct (Hstep a x Ha Hx) as [<- Hfa]. by apply IH.
Qed.

Lemma foldl_inv {A B} (I : A → Prop) (P : B → Prop) (f : A → B → A) a l :
  I a → Forall P l → (∀ a x, I a → P x → I (f a x)) → I (foldl f a l).
Proof.
  intros Ha Hl Hstep.
  apply (foldl_inv_ext I P f f a l Ha Hl). intros; split; auto.
Qed.

Section Keyed.
Context {V : Type}.
Implicit Types (m : list (string * V)) (k : string) (v : V).

Lemma get_set_eq k v m : Js.get k (Js.set k v m) = Some v.
Proof.
  induction m as [|[k' v'] m IH]; simpl.
  - by rewrite String.eqb_refl.
  - destruct (String.eqb k' k) eqn:E; simpl; rewrite E; done.
Qed.

Lemma get_set_ne k k' v m : k ≠ k' → Js.get k' (Js.set k v m) = Js.get k' m.
Proof.
  intros Hne. induction m as [|[k0 v0] m IH]; simpl.
  - destruct (String.eqb_spec k k'); done.
  - destruct (String.eqb_spec k0 k) as [->|Hk]; simpl.
    + destruct (String.eqb_spec k k'); done.
    + by rewrite IH.
Qed.

Lemma get_Some_values k v m : Js.get k m = Some v → v ∈ Js.values m.
Proof.
  induction m as [|[k0 v0] m IH]; simpl; [done|].
  destruct (String.eqb k0 k); intros; simplify_eq; [left | right; auto].
Qed.

Lemma get_Some_elem k v m : Js.get k m = Some v → (k, v) ∈ m.
Proof.
  induction m as [|[k0 v0] m IH]; simpl; [done|].
  destruct (String.eqb_spec k0 k); intros; simplify_eq; [left | right; auto].
Qed.

Lemma Forall_values_set (P : V → Prop) k v m :
  Forall P (Js.values m) → P v → Forall P (Js.values (Js.set k v m)).
Proof.
  unfold Js.values. induction m as [|[k0 v0] m IH]; simpl; intros Hm Hv.
  - by constructor.
  - inversion Hm; subst. destruct (String.eqb k0 k); simpl; constructor; auto.
Qed.

Lemma Forall_set (P : string * V → Prop) k v m :
  Forall P m → P (k, v) → Forall P (Js.set k v m).
Proof.
  induction m as [|[k0 v0] m IH]; simpl; intros Hm Hv.
  - by constructor.
  - inversion Hm; subst. destruct (String.eqb_spec k0 k); simplify_eq; constructor; auto.
Qed.

End Keyed.

Lemma NoDup_fst_inj {A B} (l : list (A * B)) x y :
  NoDup (map fst l) → x ∈ l → y ∈ l → x.1 = y.1 → x = y.
Proof.
  induction l as [|z l IH]; simpl; [by intros _ ?%elem_of_nil|].
  intros [Hz Hl]%NoDup_cons [->|Hx]%elem_of_cons [->|Hy]%elem_of_cons Hxy; auto.
  - destruct Hz. rewrite Hxy. apply list_elem_of_fmap. eauto.
  - destruct Hz. rewrite <- Hxy. apply list_elem_of_fmap. eauto.
Qed.

End JsFacts.

Module InlinerFacts.
Import Json Ast Inliner TreeFacts JsFacts.
Section WithLocale.
Context {locale : Locale}.

Lemma deduplicateStep_depth d n1 n2 m s :
  (∀ l, depths l < n1 → depths l < n2 →
     deduplicateSelectionsAt n1 l = deduplicateSelectionsAt n2 l
     ∧ depths (deduplicateSelectionsAt n1 l) ≤ depths l) →
  d ≤ n1 → d ≤ n2 →
  Forall (λ s, depth s ≤ d) (Js.values m) → depth s ≤ d →
  deduplicateStep (λ s1 s2, deduplicateSelectionsAt n1 (s1 ++ s2)) m s
  = deduplicateStep (λ s1 s2, deduplicateSelectionsAt n2 (s1 ++ s2)) m s
  ∧ Forall (λ s, depth s ≤ d)
      (Js.values (deduplicateStep (λ s1 s2, deduplicateSelectionsAt n1 (s1 ++ s2)) m s)).
Proof.
  intros IH Hn1 Hn2 Hm Hs.
  assert (Hget : ∀ k e, Js.get k m = Some e → depth e ≤ d).
  { intros k e He. apply get_Some_values in He.
    rewrite Forall_forall in Hm. by apply Hm. }
  assert (Hmerge : ∀ e s1 s2, depth e ≤ d → depths s1 < d → depths s2 < d →
            deduplicateSelectionsAt n1 (s1 ++ s2) = deduplicateSelectionsAt n2 (s1 ++ s2)
            ∧ depth (withSelectionSet e (deduplicateSelectionsAt n1 (s1 ++ s2))) ≤ d).
  { intros e s1 s2 He H1 H2.
    assert (Hd : depths (s1 ++ s2) < d) by (rewrite depths_app; lia).
    destruct (IH (s1 ++ s2)) as [Heq Hle]; [lia..|]. split; [done|].
    etrans; [apply depth_withSelectionSet|]. lia. }
  unfold deduplicateStep.
  destruct s as [a n args ss l | t ss l | n l]; simpl in Hs; fold_depths.
  - destruct (Js.get _ m) as [e|] eqn:He.
    + specialize (Hget _ _ He).
      destruct (selectionSetOf e) as [s1|] eqn:Hs1, ss as [s2|];
        simpl in Hs; fold_depths.
      * apply depth_selectionSetOf in Hs1.
        destruct (Hmerge e s1 s2) as [-> Hle]; [lia..|].
        split; [done|]. by apply Forall_values_set.
      * split; [done|]. apply Forall_values_set; [done|].
        apply depth_selectionSetOf in Hs1.
        etrans; [apply depth_withSelectionSet|]. lia.
      * split; [done|]. apply Forall_values_set; [done|].
        etrans; [apply depth_withSelectionSet|]. lia.
      * done.
    + split; [done|]. by apply Forall_values_set.
  - destruct (Js.get _ m) as [e|] eqn:He.
    + specialize (Hget _ _ He).
      assert (depths (default [] (selectionSetOf e)) < d).
      { destruct (selectionSetOf e) as [s1|] eqn:Hs1; simpl.
        - apply depth_selectionSetOf in Hs1. lia.
        - rewrite depths_nil. lia. }
      destruct (Hmerge e (default [] (selectionSetOf e)) ss) as [-> Hle]; [lia..|].
      split; [done|]. by apply Forall_values_set.
    + split; [done|]. by apply Forall_values_set.
  - split; [done|]. by apply Forall_values_set.
Qed.

Lemma deduplicateSelectionsAt_stable n1 n2 l :
  depths l < n1 → depths l < n2 →
  deduplicateSelectionsAt n1 l = deduplicateSelectionsAt n2 l
  ∧ depths (deduplicateSelectionsAt n1 l) ≤ depths l.
Proof.
  revert n2 l. induction n1 as [|n1 IH]; intros [|n2] l H1 H2; try lia.
  simpl.
  destruct (foldl_inv_ext
              (λ m, Forall (λ s, depth s ≤ depths l) (Js.values m))
              (λ s, depth s ≤ depths l)
              (deduplicateStep (λ s1 s2, deduplicateSelectionsAt n1 (s1 ++ s2)))
              (deduplicateStep (λ s1 s2, deduplicateSelectionsAt n2 (s1 ++ s2)))
              [] l) as [Heq Hinv].
  - constructor.
  - by apply depths_le.
  - intros m s Hm Hs. apply deduplicateStep_depth; auto; lia.
  - rewrite Heq. split; [done|]. rewrite <- Heq. by apply depths_le.
Qed.

(** The equation of the source: [deduplicateSelections] folds
    [deduplicateStep], merging nested sets with [mergeSelectionSets]. *)
Lemma deduplicateSelections_eq selections :
  deduplicateSelections selections
  = Js.values (foldl (deduplicateStep mergeSelectionSets) [] selections).
Proof.
  unfold deduplicateSelections at 1. simpl. f_equal.
  apply (foldl_inv_ext
              (λ m, Forall (λ s, depth s ≤ depths selections) (Js.values m))
              (λ s, depth s ≤ depths selections)).
  - constructor.
  - by apply depths_le.
  - intros m s Hm Hs.
    destruct (deduplicateStep_depth (depths selections) (depths selections)
                (depths selections) m s) as [_ Hinv]; auto.
    { intros; by apply deduplicateSelectionsAt_stable. }
    split; [|done].
    assert (Hget : ∀ k e, Js.get k m = Some e → depth e ≤ depths selections).
    { intros k e He. apply get_Some_values in He.
      rewrite Forall_forall in Hm. by apply Hm. }
    assert (Hmerge : ∀ s1 s2, depths s1 < depths selections →
              depths s2 < depths selections →
              deduplicateSelectionsAt (depths selections) (s1 ++ s2)
              = mergeSelectionSets s1 s2).
    { intros s1 s2 H1 H2. unfold mergeSelectionSets, deduplicateSelections.
      apply deduplicateSelectionsAt_stable; rewrite ?depths_app; lia. }
    unfold deduplicateStep.
    destruct s as [a n args ss l | t ss l | n l]; simpl in Hs; fold_depths; [| |done].
    + destruct (Js.get _ m) as [e|] eqn:He; [|done].
      specialize (Hget _ _ He).
      destruct (selectionSetOf e) as [s1|] eqn:Hs1, ss as [s2|]; try done.
      simpl in Hs; fold_depths.
      apply depth_selectionSetOf in Hs1. rewrite Hmerge; [done|lia..].
    + destruct (Js.get _ m) as [e|] eqn:He; [|done].
      specialize (Hget _ _ He). rewrite Hmerge; [done| |lia].
      destruct (selectionSetOf e) as [s1|] eqn:Hs1; simpl.
      * apply depth_selectionSetOf in Hs1. lia.
      * rewrite depths_nil. lia.
Qed.

Lemma deduplicateStep_spreadFree mergeSets m s :
  (∀ s1 s2, Forall (λ s, spreadFree s = true) s1 →
            Forall (λ s, spreadFree s = true) s2 →
            Forall (λ s, spreadFree s = true) (mergeSets s1 s2)) →
  Forall (λ s, spreadFree s = true) (Js.values m) → spreadFree s = true →
  Forall (λ s, spreadFree s = true) (Js.values (deduplicateStep mergeSets m s)).
Proof.
  intros Hmerge Hm Hs.
  assert (Hget : ∀ k e, Js.get k m = Some e → spreadFree e = true).
  { intros k e He. apply get_Some_values in He.
    rewrite Forall_forall in Hm. by apply Hm. }
  unfold deduplicateStep.
  destruct s as [a n args ss l | t ss l | n l]; [| |done].
  - destruct (Js.get _ m) as [e|] eqn:He; [|by apply Forall_values_set].
    specialize (Hget _ _ He).
    destruct (selectionSetOf e) as [s1|] eqn:Hs1, ss as [s2|]; [| | |done];
      apply Forall_values_set; try done;
      apply spreadFree_withSelectionSet; try done.
    + apply Hmerge; [by eapply spreadFree_selectionSetOf|].
      by eapply (spreadFree_selectionSetOf (Field a n args (Some s2) l)).
    + by eapply spreadFree_selectionSetOf.
    + by eapply (spreadFree_selectionSetOf (Field a n args (Some s2) l)).
  - destruct (Js.get _ m) as [e|] eqn:He; [|by apply Forall_values_set].
    specialize (Hget _ _ He). apply Forall_values_set; [done|].
    apply spreadFree_withSelectionSet; [done|]. apply Hmerge.
    + destruct (selectionSetOf e) as [s1|] eqn:Hs1; simpl; [|constructor].
      by eapply spreadFree_selectionSetOf.
    + by eapply (spreadFree_selectionSetOf (InlineFragment t ss l)).
Qed.

Lemma deduplicateSelectionsAt_spreadFree level l :
  Forall (λ s, spreadFree s = true) l →
  Forall (λ s, spreadFree s = true) (deduplicateSelectionsAt level l).
Proof.
  revert l. induction level as [|n IH]; intros l Hl; simpl; [constructor|].
  apply (foldl_inv (λ m, Forall (λ s, spreadFree s = true) (Js.values m))
           (λ s, spreadFree s = true)); [constructor | done |].
  intros m s Hm Hs. apply deduplicateStep_spreadFree; [|done..].
  intros s1 s2 H1 H2. apply IH, Forall_app. done.
Qed.

Lemma deduplicateSelections_spreadFree l :
  Forall (λ s, spreadFree s = true) l →
  Forall (λ s, spreadFree s = true) (deduplicateSelections l).
Proof. apply deduplicateSelectionsAt_spreadFree. Qed.

End WithLocale.
End InlinerFacts.

Module InlineRelayQueryFacts.
Import Json Ast InlineRelayQuery TreeFacts JsFacts.

Lemma Forall_replaceAt (P : SelectionNode → Prop) index node l :
  Forall P l → P node → Forall P (replaceAt index node l).
Proof. destruct index; simpl; [apply Forall_insert | done]. Qed.

Lemma mergeStep_depth d n1 n2 st s :
  (∀ l, depths l < n1 → depths l < n2 →
     mergeSelectionsAt n1 l = mergeSelectionsAt n2 l
     ∧ depths (mergeSelectionsAt n1 l) ≤ depths l) →
  d ≤ n1 → d ≤ n2 →
  bounded d st → depth s ≤ d →
  mergeStep (λ s1 s2, mergeSelectionsAt n1 (s1 ++ s2)) st s
  = mergeStep (λ s1 s2, mergeSelectionsAt n2 (s1 ++ s2)) st s
  ∧ bounded d (mergeStep (λ s1 s2, mergeSelectionsAt n1 (s1 ++ s2)) st s).
Proof.
  intros IH Hn1 Hn2 [Hm Hseen] Hs.
  assert (Hmerge : ∀ e s1 s2, depths s1 < d → depths s2 < d →
            mergeSelectionsAt n1 (s1 ++ s2) = mergeSelectionsAt n2 (s1 ++ s2)
            ∧ depth (withSelectionSet e (mergeSelectionsAt n1 (s1 ++ s2))) ≤ d).
  { intros e s1 s2 H1 H2.
    assert (Hd : depths (s1 ++ s2) < d) by (rewrite depths_app; lia).
    destruct (IH (s1 ++ s2)) as [Heq Hle]; [lia..|]. split; [done|].
    etrans; [apply depth_withSelectionSet|]. lia. }
  assert (Hpush : ∀ k, bounded d {| seen := <[k := s]> (seen st);
                                     merged := merged st ++ [s] |}).
  { intros k. split; simpl.
    - apply Forall_app; split; [done | by constructor].
    - by apply map_Forall_insert_2. }
  assert (Hput : ∀ k i e, depth e ≤ d →
            bounded d {| seen := <[k := e]> (seen st);
                         merged := replaceAt i e (merged st) |}).
  { intros k i e He. split; simpl.
    - by apply Forall_replaceAt.
    - by apply map_Forall_insert_2. }
  unfold mergeStep.
  destruct s as [a n args ss l | t ss l | n l]; simpl in Hs.
  - destruct (seen st !! _) as [e|] eqn:He; [|split; [done | apply Hpush]].
    pose proof (Hseen _ _ He) as Hde. simpl in Hde.
    destruct ss as [s2|]; [|done]. simpl in Hs; fold_depths.
    destruct (selectionSetOf e) as [s1|] eqn:Hs1.
    + apply depth_selectionSetOf in Hs1.
      destruct (Hmerge e s1 s2) as [-> Hle]; [lia..|].
      split; [done | by apply Hput].
    + split; [done|]. apply Hput.
      etrans; [apply depth_withSelectionSet|]. lia.
  - fold_depths.
    destruct (seen st !! _) as [e|] eqn:He; [|split; [done | apply Hpush]].
    pose proof (Hseen _ _ He) as Hde. simpl in Hde.
    assert (depths (default [] (selectionSetOf e)) < d).
    { destruct (selectionSetOf e) as [s1|] eqn:Hs1; simpl.
      - apply depth_selectionSetOf in Hs1. lia.
      - rewrite depths_nil. lia. }
    destruct (Hmerge e (default [] (selectionSetOf e)) ss) as [-> Hle]; [lia..|].
    split; [done | by apply Hput].
  - split; [done|]. split; simpl; [|done].
    apply Forall_app; split; [done | by constructor].
Qed.

Lemma mergeSelectionsAt_stable n1 n2 l :
  depths l < n1 → depths l < n2 →
  mergeSelectionsAt n1 l = mergeSelectionsAt n2 l
  ∧ depths (mergeSelectionsAt n1 l) ≤ depths l.
Proof.
  revert n2 l. induction n1 as [|n1 IH]; intros [|n2] l H1 H2; try lia.
  simpl.
  destruct (foldl_inv_ext (bounded (depths l)) (λ s, depth s ≤ depths l)
              (mergeStep (λ s1 s2, mergeSelectionsAt n1 (s1 ++ s2)))
              (mergeStep (λ s1 s2, mergeSelectionsAt n2 (s1 ++ s2)))
              {| merged := []; seen := ∅ |} l) as [Heq [Hinv _]].
  - split; simpl; [constructor | apply map_Forall_empty].
  - by apply depths_le.
  - intros m s Hm Hs. apply mergeStep_depth; auto; lia.
  - rewrite Heq. split; [done|]. rewrite <- Heq. by apply depths_le.
Qed.

(** The equation of the source: [mergeSelections] folds [mergeStep],
    merging nested sets with [mergeSelectionSets]. *)
Lemma mergeSelections_eq selections :
  mergeSelections selections
  = merged (foldl (mergeStep mergeSelectionSets)
              {| merged := []; seen := ∅ |} selections).
Proof.
  unfold mergeSelections at 1. simpl. f_equal.
  apply (foldl_inv_ext (bounded (depths selections))
           (λ s, depth s ≤ depths selections)).
  - split; simpl; [constructor | apply map_Forall_empty].
  - by apply depths_le.
  - intros st s Hst Hs.
    destruct (mergeStep_depth (depths selections) (depths selections)
                (depths selections) st s) as [_ Hinv]; auto.
    { intros; by apply mergeSelectionsAt_stable. }
    split; [|done]. destruct Hst as [Hm Hseen].
    assert (Hmerge : ∀ s1 s2, depths s1 < depths selections →
              depths s2 < depths selections →
              mergeSelectionsAt (depths selections) (s1 ++ s2)
              = mergeSelectionSets s1 s2).
    { intros s1 s2 H1 H2. unfold mergeSelectionSets, mergeSelections.
      apply mergeSelectionsAt_stable; rewrite ?depths_app; lia. }
    unfold mergeStep.
    destruct s as [a n args ss l | t ss l | n l]; simpl in Hs; [| |done].
    + destruct (seen st !! _) as [e|] eqn:He; [|done].
      pose proof (Hseen _ _ He) as Hde. simpl in Hde.
      destruct ss as [s2|]; [|done]. simpl in Hs; fold_depths.
      destruct (selectionSetOf e) as [s1|] eqn:Hs1; [|done].
      apply depth_selectionSetOf in Hs1. rewrite Hmerge; [done|lia..].
    + fold_depths. destruct (seen st !! _) as [e|] eqn:He; [|done].
      pose proof (Hseen _ _ He) as Hde. simpl in Hde.
      rewrite Hmerge; [done| |lia].
      destruct (selectionSetOf e) as [s1|] eqn:Hs1; simpl.
      * apply depth_selectionSetOf in Hs1. lia.
      * rewrite depths_nil. lia.
Qed.

Lemma mergeStep_spreadFree mergeSets st s :
  (∀ s1 s2, Forall (λ s, spreadFree s = true) s1 →
            Forall (λ s, spreadFree s = true) s2 →
            Forall (λ s, spreadFree s = true) (mergeSets s1 s2)) →
  clean st → spreadFree s = true → clean (mergeStep mergeSets st s).
Proof.
  intros Hmerge [Hm Hseen] Hs.
  assert (Hpush : ∀ k, clean {| seen := <[k := s]> (seen st);
                                 merged := merged st ++ [s] |}).
  { intros k. split; simpl.
    - apply Forall_app; split; [done | by constructor].
    - by apply map_Forall_insert_2. }
  assert (Hput : ∀ k i e, spreadFree e = true →
            clean {| seen := <[k := e]> (seen st);
                     merged := replaceAt i e (merged st) |}).
  { intros k i e He. split; simpl.
    - by apply Forall_replaceAt.
    - by apply map_Forall_insert_2. }
  unfold mergeStep.
  destruct s as [a n args ss l | t ss l | n l]; [| |done].
  - destruct (seen st !! _) as [e|] eqn:He; [|apply Hpush].
    pose proof (Hseen _ _ He) as Hde. simpl in Hde.
    destruct ss as [s2|]; [|done].
    apply Hput, spreadFree_withSelectionSet; [done|].
    pose proof (spreadFree_selectionSetOf (Field a n args (Some s2) l) s2 Hs eq_refl).
    destruct (selectionSetOf e) as [s1|] eqn:Hs1; [|done].
    apply Hmerge; [by eapply spreadFree_selectionSetOf | done].
  - destruct (seen st !! _) as [e|] eqn:He; [|apply Hpush].
    pose proof (Hseen _ _ He) as Hde. simpl in Hde.
    apply Hput, spreadFree_withSelectionSet; [done|]. apply Hmerge.
    + destruct (selectionSetOf e) as [s1|] eqn:Hs1; simpl; [|constructor].
      by eapply spreadFree_selectionSetOf.
    + by eapply (spreadFree_selectionSetOf (InlineFragment t ss l)).
Qed.

Lemma mergeSelectionsAt_spreadFree level l :
  Forall (λ s, spreadFree s = true) l →
  Forall (λ s, spreadFree s = true) (mergeSelectionsAt level l).
Proof.
  revert l. induction level as [|n IH]; intros l Hl; simpl; [constructor|].
  apply (foldl_inv clean (λ s, spreadFree s = true)).
  - split; simpl; [constructor | apply map_Forall_empty].
  - done.
  - intros m s Hm Hs. apply mergeStep_spreadFree; [|done..].
    intros s1 s2 H1 H2. apply IH, Forall_app. done.
Qed.

Lemma mergeSelections_spreadFree l :
  Forall (λ s, spreadFree s = true) l →
  Forall (λ s, spreadFree s = true) (mergeSelections l).
Proof. apply mergeSelectionsAt_spreadFree. Qed.

End InlineRelayQueryFacts.

(** ** Sorting and keys *)

Module SortFacts.

Section Sort.
Context {A : Type} (comparefn : A → A → Z).

Lemma insertSorted_perm x l : Js.insertSorted comparefn x l ≡ₚ x :: l.
Proof.
  induction l as [|y l IH]; simpl; [done|].
  destruct (comparefn x y <=? 0)%Z; [done|].
  rewrite IH. apply Permutation_swap.
Qed.

Lemma sort_perm l : Js.sort comparefn l ≡ₚ l.
Proof.
  induction l as [|x l IH]; simpl; [done|].
  by rewrite insertSorted_perm, IH.
Qed.

Context `{!Js.Consistent comparefn}.

Lemma before_total x y : Js.before comparefn x y ∨ Js.before comparefn y x.
Proof.
  unfold Js.before. destruct (Z_lt_le_dec 0 (comparefn x y)) as [Hlt|Hle]; [|by left].
  right. apply (Js.comparefn_antisym comparefn) in Hlt. lia.
Qed.

Lemma insertSorted_sorted x l :
  StronglySorted (Js.before comparefn) l → StronglySorted (Js.before comparefn) (Js.insertSorted comparefn x l).
Proof.
  induction 1 as [|y l Hl IH Hy]; simpl.
  - repeat constructor.
  - destruct (Z.leb_spec (comparefn x y) 0) as [Hle|Hgt].
    + constructor; [by constructor|]. constructor; [done|].
      eapply Forall_impl; [exact Hy|]. intros z Hz.
      by eapply Js.comparefn_trans.
    + constructor; [done|].
      rewrite insertSorted_perm. constructor; [|done].
      destruct (before_total x y) as [Hxy|]; [unfold Js.before in Hxy; lia | done].
Qed.

Lemma sort_sorted l : StronglySorted (Js.before comparefn) (Js.sort comparefn l).
Proof.
  induction l as [|x l IH]; simpl; [constructor|]. by apply insertSorted_sorted.
Qed.

(** Sorting forgets the order of the input when the comparator tells
    its elements apart. *)
Lemma sort_permutation l1 l2 :
  (∀ x y, x ∈ l1 → y ∈ l1 → comparefn x y = 0%Z → x = y) →
  l1 ≡ₚ l2 → Js.sort comparefn l1 = Js.sort comparefn l2.
Proof.
  intros Hapart Hperm.
  apply (StronglySorted_unique_strong (Js.before comparefn)); [|apply sort_sorted..|].
  - intros x y Hx Hy Hxy Hyx. apply Hapart.
    + by rewrite sort_perm in Hx.
    + by rewrite sort_perm, <- Hperm in Hy.
    + unfold Js.before in *.
      destruct (Z_lt_le_dec (comparefn x y) 0) as [Hlt|]; [|lia].
      apply (Js.comparefn_antisym comparefn) in Hlt. lia.
  - by rewrite !sort_perm.
Qed.

End Sort.

Section Locale.
Context {locale : Locale}.

#[global] Instance ConsistentLocale_collation :
  ConsistentLocale locale → Collation locale.
Proof.
  intros consistent. split; [apply localeCompare_antisym | apply localeCompare_trans].
Qed.

#[global] Instance localeCompare_consistent {collation : Collation locale} :
  Js.Consistent localeCompare.
Proof.
  split; [apply collation_antisym | apply collation_trans].
Qed.

#[global] Instance Consistent_on {A B} (f : A → B) (comparefn : B → B → Z) :
  Js.Consistent comparefn → Js.Consistent (λ a b, comparefn (f a) (f b)).
Proof.
  intros [Hanti Htrans]. split; [intros; apply Hanti | intros ???; apply Htrans].
Qed.

End Locale.
End SortFacts.

Module KeyFacts.
Import Json Ast Inliner TreeFacts JsFacts InlinerFacts SortFacts.
Section WithLocale.
Context {locale : Locale}.

Lemma selectionKey_withSelectionSet node ss :
  selectionKey (withSelectionSet node ss) = selectionKey node.
Proof. by destruct node. Qed.

Lemma set_keys {V} k (v : V) m :
  map fst (Js.set k v m) = if decide (k ∈ map fst m) then map fst m else map fst m ++ [k].
Proof.
  induction m as [|[k0 v0] m IH]; simpl; [done|].
  destruct (String.eqb_spec k0 k) as [->|Hne]; simpl.
  - rewrite decide_True; [done | left].
  - rewrite IH. destruct (decide (k ∈ map fst m)).
    + rewrite decide_True; [done | by right].
    + rewrite decide_False; [done|]. intros [?|?]%elem_of_cons; congruence.
Qed.

Lemma filed_set k v m : filed m → selectionKey v = k → filed (Js.set k v m).
Proof.
  intros [Hk Hnd] Hv. split.
  - by apply Forall_set.
  - rewrite set_keys. destruct (decide _); [done|].
    apply NoDup_app. split_and!; [done| |apply NoDup_singleton].
    intros x Hx ->%list_elem_of_singleton. done.
Qed.

Lemma get_Some_key k v m :
  Forall (λ kv, selectionKey kv.2 = kv.1) m → Js.get k m = Some v → selectionKey v = k.
Proof.
  intros Hm Hget%get_Some_elem. rewrite Forall_forall in Hm. by apply (Hm (k, v)).
Qed.

Lemma deduplicateStep_filed mergeSets m s :
  filed m → filed (deduplicateStep mergeSets m s).
Proof.
  intros Hm. unfold deduplicateStep.
  destruct s as [a n args ss l | t ss l | n l]; [| |by apply filed_set].
  - destruct (Js.get _ m) as [e|] eqn:He; [|by apply filed_set].
    apply get_Some_key in He; [|apply Hm].
    destruct (selectionSetOf e), ss; try done;
      apply filed_set; try done; by rewrite selectionKey_withSelectionSet.
  - destruct (Js.get _ m) as [e|] eqn:He; [|by apply filed_set].
    apply get_Some_key in He; [|apply Hm].
    apply filed_set; [done|]. by rewrite selectionKey_withSelectionSet.
Qed.

Lemma deduplicateStep_other mergeSets m s k :
  selectionKey s ≠ k →
  Js.get k (deduplicateStep mergeSets m s) = Js.get k m.
Proof.
  intros Hne. unfold deduplicateStep.
  destruct s as [a n args ss l | t ss l | n l]; [| |by apply get_set_ne].
  - destruct (Js.get (selectionKey _) m) as [e|] eqn:He; [|by apply get_set_ne].
    destruct (selectionSetOf e), ss; try done; by apply get_set_ne.
  - destruct (Js.get (selectionKey _) m) as [e|] eqn:He; by apply get_set_ne.
Qed.

Lemma foldl_deduplicateStep_filed mergeSets m l :
  filed m → filed (foldl (deduplicateStep mergeSets) m l).
Proof.
  revert m. induction l as [|s l IH]; intros m Hm; simpl; [done|].
  by apply IH, deduplicateStep_filed.
Qed.

Lemma foldl_deduplicateStep_other mergeSets m l k :
  Forall (λ s, selectionKey s ≠ k) l →
  Js.get k (foldl (deduplicateStep mergeSets) m l) = Js.get k m.
Proof.
  revert m. induction l as [|s l IH]; intros m Hl; simpl; [done|].
  apply Forall_cons in Hl as [Hs Hl]. rewrite IH; [|done].
  by apply deduplicateStep_other.
Qed.

(** The entries of the result that have key [k] are the single entry
    filed under [k], if there is one. *)
Lemma filter_key_values m k :
  filed m →
  filter (λ s, selectionKey s = k) (Js.values m)
  = match Js.get k m with Some v => [v] | None => [] end.
Proof.
  intros [Hk Hnd]. unfold Js.values.
  induction m as [|[k0 v0] m IH]; simpl; [done|].
  apply Forall_cons in Hk as [Hk0 Hk]. simpl in Hk0.
  apply NoDup_cons in Hnd as [Hk0' Hnd]. simpl in Hk0'.
  rewrite filter_cons. specialize (IH Hk Hnd).
  destruct (String.eqb_spec k0 k) as [->|Hne].
  - rewrite decide_True; [|done]. f_equal.
    rewrite IH. destruct (Js.get k m) as [v|] eqn:Hv; [|done].
    apply get_Some_elem in Hv. destruct Hk0'.
    apply list_elem_of_fmap. by exists (k, v).
  - rewrite decide_False; [done | congruence].
Qed.

End WithLocale.
End KeyFacts.

(** ** The fragment map as an object *)

Module PropertyFacts.
Import Ast.

Lemma lookup_getProperty (fragmentMap : FragmentMap) g fragment :
  fragmentMap !! g = Some fragment ↔ getProperty fragmentMap g = Fragment fragment.
Proof.
  unfold lookup, FragmentMap_lookup.
  destruct (getProperty fragmentMap g); split; intros; simplify_eq; done.
Qed.

Lemma getProperty_Undefined (fragmentMap : FragmentMap) g :
  getProperty fragmentMap g = Undefined → fragmentMap !! g = None.
Proof. unfold lookup, FragmentMap_lookup. by intros ->. Qed.

Lemma lookup_is_Some (fragmentMap : FragmentMap) g :
  is_Some (fragmentMap !! g) → getProperty fragmentMap g ≠ Undefined.
Proof. intros [fragment Hg%lookup_getProperty]. congruence. Qed.

Lemma lookup_emptyObject g : emptyObject !! g = None.
Proof.
  unfold lookup, FragmentMap_lookup, getProperty. simpl.
  destruct (String.eqb g "__proto__"); [done|].
  rewrite lookup_empty. by destruct (bool_decide _).
Qed.

(** Seen through the fragment definitions it gives, the object is a
    map: an assignment changes what is found under the name assigned,
    and under no other name. *)
Lemma lookup_setProperty name def (fragmentMap : FragmentMap) g :
  setProperty name def fragmentMap !! g
  = if decide (name = g) then Some def else fragmentMap !! g.
Proof.
  unfold lookup, FragmentMap_lookup, getProperty, setProperty.
  destruct (String.eqb_spec name "__proto__") as [->|Hname]; simpl.
  - destruct (String.eqb_spec g "__proto__") as [->|Hg].
    + by rewrite decide_True.
    + rewrite decide_False by done.
      destruct (ownFragments fragmentMap !! g); [done|].
      by repeat destruct (match prototypeNode fragmentMap with _ => _ end || _), (_ || _).
  - destruct (String.eqb_spec g "__proto__") as [->|Hg].
    + by rewrite decide_False.
    + destruct (decide (name = g)) as [->|Hne].
      * by rewrite lookup_insert_eq.
      * by rewrite lookup_insert_ne.
Qed.

End PropertyFacts.

(** ** The recursive walk *)

Module WalkFacts.
Import Ast Walk TreeFacts JsFacts PropertyFacts.

Lemma forEach_mono {A B} (f g : A → B → result A) a l r :
  (∀ a x r, f a x = r → r ≠ OutOfFuel → g a x = r) →
  Js.forEach f a l = r → r ≠ OutOfFuel → Js.forEach g a l = r.
Proof.
  intros Hfg. revert a. induction l as [|x l IH]; intros a; simpl; [done|].
  intros Hr Hne. destruct (f a x) as [a'| |] eqn:Hf; simpl in Hr.
  - rewrite (Hfg _ _ _ Hf); [|done]. simpl. by apply IH.
  - rewrite (Hfg _ _ _ Hf); [|done]. done.
  - by subst.
Qed.

Lemma forEach_inv {A B} (I : A → Prop) (f : A → B → result A) a l a' :
  I a → (∀ a x a', I a → x ∈ l → f a x = Ok a' → I a') →
  Js.forEach f a l = Ok a' → I a'.
Proof.
  revert a. induction l as [|x l IH]; intros a Ha Hstep; simpl.
  - by intros [= <-].
  - destruct (f a x) as [a1| |] eqn:Hf; simpl; [|done..].
    apply IH.
    + eapply Hstep; [done | left | done].
    + intros ? ? ? ? ?. apply Hstep; [done | by right].
Qed.

Section Facts.
Context (merge : list SelectionNode → list SelectionNode).
Context (notFound : string → string).
Context (fragmentMap : FragmentMap).

#[local] Abbreviation inline := (Walk.inline merge notFound fragmentMap).
#[local] Abbreviation inlineStep := (Walk.inlineStep notFound fragmentMap).

Lemma inline_unfold fuel {T} `{HasSelectionSet T} (node : T) :
  inline fuel node =
  match selectionSetOf node with
  | None => Ok node
  | Some selectionSet =>
      match fuel with
      | O => OutOfFuel
      | S n =>
          selections ← Js.forEach (inlineStep (@Walk.inline merge notFound fragmentMap n)) [] selectionSet;
          Ok (withSelectionSet node (merge selections))
      end
  end.
Proof. by destruct fuel. Qed.

Lemma inline_leaf fuel {T} `{HasSelectionSet T} (node : T) :
  selectionSetOf node = None → inline fuel node = Ok node.
Proof. intros Hn. rewrite inline_unfold. by rewrite Hn. Qed.

(** A call that returns or throws does the same with a deeper stack. *)
Lemma inline_mono fuel fuel' {T} `{HasSelectionSet T} (node : T) r :
  inline fuel node = r → r ≠ OutOfFuel → fuel ≤ fuel' → inline fuel' node = r.
Proof.
  revert fuel' T H node r.
  induction fuel as [|n IH]; intros fuel' T H node r; rewrite !inline_unfold;
    destruct (selectionSetOf node) as [ss|]; try done.
  - intros Hr Hne Hle. destruct fuel' as [|n']; [lia|].
    destruct (Js.forEach (inlineStep (@Walk.inline merge notFound fragmentMap n)) [] ss)
      as [sels| |] eqn:Hloop; simpl in Hr; try (by subst).
    + erewrite forEach_mono; [| |exact Hloop|done]; [done|].
      clear -IH Hle. intros a x r Hstep Hne. unfold Walk.inlineStep in *.
      destruct x as [? ? ? ? ?|? ? ?|name loc].
      * destruct (Walk.inline _ _ _ n _) as [x'| |] eqn:Hx; try (by subst);
          erewrite IH; first [exact Hstep | exact Hx | done | lia].
      * destruct (Walk.inline _ _ _ n _) as [x'| |] eqn:Hx; try (by subst);
          erewrite IH; first [exact Hstep | exact Hx | done | lia].
      * destruct (getProperty fragmentMap _) as [frag| |]; [|done..].
        destruct (Walk.inline _ _ _ n frag) as [x'| |] eqn:Hx; try (by subst);
          erewrite IH; first [exact Hstep | exact Hx | done | lia].
    + erewrite forEach_mono; [| |exact Hloop|done]; [done|].
      clear -IH Hle. intros a x r Hstep Hne. unfold Walk.inlineStep in *.
      destruct x as [? ? ? ? ?|? ? ?|name loc].
      * destruct (Walk.inline _ _ _ n _) as [x'| |] eqn:Hx; try (by subst);
          erewrite IH; first [exact Hstep | exact Hx | done | lia].
      * destruct (Walk.inline _ _ _ n _) as [x'| |] eqn:Hx; try (by subst);
          erewrite IH; first [exact Hstep | exact Hx | done | lia].
      * destruct (getProperty fragmentMap _) as [frag| |]; [|done..].
        destruct (Walk.inline _ _ _ n frag) as [x'| |] eqn:Hx; try (by subst);
          erewrite IH; first [exact Hstep | exact Hx | done | lia].
Qed.

(** What the loop body does, by kind of selection. *)
Lemma inlineStep_spread recur a name loc :
  inlineStep recur a (FragmentSpread name loc) =
  match getProperty fragmentMap (name_value name) with
  | Undefined => Throw (notFound (name_value name))
  | Fragment fragment =>
      inlinedFragment ← recur _ _ fragment;
      Ok (a ++ selectionsOf inlinedFragment)
  | Inherited => Ok a
  end.
Proof. reflexivity. Qed.

Lemma inlineStep_other recur a x :
  (∀ n l, x ≠ FragmentSpread n l) →
  inlineStep recur a x = (inlined ← recur _ _ x; Ok (a ++ [inlined])).
Proof. intros Hx. destruct x; try done. by destruct (Hx name loc). Qed.

Lemma forEach_Ok_each {A B} (f : A → B → result A) a l a' x :
  Js.forEach f a l = Ok a' → x ∈ l → ∃ a0 a1, f a0 x = Ok a1.
Proof.
  revert a. induction l as [|y l IH]; intros a; simpl; [by intros _ ?%elem_of_nil|].
  destruct (f a y) as [a1| |] eqn:Hf; simpl; [|done..].
  intros Hrest [->|Hin]%elem_of_cons; [by eauto | by eapply IH].
Qed.

Lemma forEach_Throw_some {A B} (f : A → B → result A) a l msg :
  Js.forEach f a l = Throw msg → ∃ a0 x, x ∈ l ∧ f a0 x = Throw msg.
Proof.
  revert a. induction l as [|y l IH]; intros a; simpl; [done|].
  destruct (f a y) as [a1| |] eqn:Hf; simpl; [|intros [= <-]|done].
  - intros (a0 & x & Hx & Hfx)%IH. exists a0, x. split; [by right | done].
  - exists a, y. split; [left | done].
Qed.

Lemma spreadsOf_child x ss h :
  x ∈ ss → h ∈ spreadsOf (selectionsOf x) → h ∈ spreadsOf ss.
Proof.
  intros Hx Hh. unfold spreadsOf. apply list_elem_of_In, in_flat_map.
  exists x. split; [by apply list_elem_of_In|]. apply list_elem_of_In.
  unfold selectionsOf in Hh.
  destruct x as [? ? ? [sx|] ?| |]; simpl in *; try done;
    by apply elem_of_nil in Hh.
Qed.

Lemma spreadsOf_spread name loc ss :
  FragmentSpread name loc ∈ ss → name_value name ∈ spreadsOf ss.
Proof.
  intros Hx. unfold spreadsOf. apply list_elem_of_In, in_flat_map.
  exists (FragmentSpread name loc). split; [by apply list_elem_of_In | by left].
Qed.

Lemma spreadsOf_inv h ss :
  h ∈ spreadsOf ss →
  ∃ x, x ∈ ss ∧ ((∃ name loc, x = FragmentSpread name loc ∧ h = name_value name)
                 ∨ ((∀ n l, x ≠ FragmentSpread n l) ∧ h ∈ spreadsOf (selectionsOf x))).
Proof.
  unfold spreadsOf at 1. intros (x & Hx & Hh)%list_elem_of_In%in_flat_map.
  exists x. split; [by apply list_elem_of_In|].
  destruct x as [? ? ? [sx|] ?| |]; simpl in Hh.
  - right. split; [done|]. by apply list_elem_of_In.
  - done.
  - right. split; [done|]. by apply list_elem_of_In.
  - left. destruct Hh as [<-|[]]. eauto.
Qed.

Lemma reaches_child x ss g :
  x ∈ ss → reaches fragmentMap (selectionsOf x) g → reaches fragmentMap ss g.
Proof.
  intros Hx Hr. inversion Hr; subst.
  - apply reaches_here. by eapply spreadsOf_child.
  - eapply reaches_via; [by eapply spreadsOf_child | done..].
Qed.

(** A call that returns has met every fragment spread in the tree it
    was given: none was of an undefined name, and those of fragments
    were expanded with a shallower stack. *)
Lemma inline_Ok_spreads fuel {T} `{HasSelectionSet T} (node node' : T) h :
  inline fuel node = Ok node' → h ∈ spreadsOf (selectionsOf node) →
  match getProperty fragmentMap h with
  | Fragment fragment => ∃ n fragment', n < fuel ∧ inline n fragment = Ok fragment'
  | Inherited => True
  | Undefined => False
  end.
Proof.
  revert T H node node' h.
  induction fuel as [|n IH]; intros T H node node' h; rewrite inline_unfold;
    unfold selectionsOf; destruct (selectionSetOf node) as [ss|]; simpl;
    try done; try (by intros _ ?%elem_of_nil).
  destruct (Js.forEach _ [] ss) as [sels| |] eqn:Hloop; simpl; [|done..].
  intros _ (x & Hx & Hcase)%spreadsOf_inv.
  destruct (forEach_Ok_each _ _ _ _ _ Hloop Hx) as (a0 & a1 & Hstep).
  destruct Hcase as [(name & loc & -> & ->) | [Hne Hh]].
  - rewrite inlineStep_spread in Hstep.
    destruct (getProperty fragmentMap (name_value name)) as [frag| |]; [|done..].
    destruct (Walk.inline _ _ _ n frag) as [frag'| |] eqn:Hfrag; [|done..].
    exists n, frag'. split; [lia | done].
  - rewrite inlineStep_other in Hstep; [|done].
    destruct (Walk.inline _ _ _ n x) as [x'| |] eqn:Hx'; [|done..].
    pose proof (IH _ _ _ _ _ Hx' Hh) as Hrec.
    destruct (getProperty fragmentMap h) as [frag| |]; [|done..].
    destruct Hrec as (n' & frag' & ? & ?).
    exists n', frag'. split; [lia | done].
Qed.

Lemma inline_Ok_reaches fuel {T} `{HasSelectionSet T} (node node' : T) g :
  inline fuel node = Ok node' → reaches fragmentMap (selectionsOf node) g →
  match getProperty fragmentMap g with
  | Fragment fragment => ∃ n fragment', n < fuel ∧ inline n fragment = Ok fragment'
  | Inherited => True
  | Undefined => False
  end.
Proof.
  revert T H node node' g.
  induction fuel as [fuel IH] using lt_wf_ind; intros T H node node' g Hok Hr.
  inversion Hr as [? ? Hg|? h via ? Hh Hvia Hrest]; subst.
  - by eapply inline_Ok_spreads.
  - pose proof (inline_Ok_spreads _ _ _ _ Hok Hh) as Hmet.
    apply lookup_getProperty in Hvia. rewrite Hvia in Hmet.
    destruct Hmet as (n & via' & Hn & Hok').
    pose proof (IH n Hn _ _ _ _ g Hok' Hrest) as Hrec.
    destruct (getProperty fragmentMap g) as [fg| |]; [|done..].
    destruct Hrec as (n' & fg' & ? & ?).
    exists n', fg'. split; [lia | done].
Qed.

(** The only error: a spread, reached from the node, of a name under
    which the map has nothing. *)
Lemma inline_Throw fuel {T} `{HasSelectionSet T} (node : T) msg :
  inline fuel node = Throw msg →
  ∃ g, msg = notFound g ∧ getProperty fragmentMap g = Undefined
       ∧ reaches fragmentMap (selectionsOf node) g.
Proof.
  revert T H node msg.
  induction fuel as [|n IH]; intros T H node msg; rewrite inline_unfold;
    unfold selectionsOf; destruct (selectionSetOf node) as [ss|]; simpl; try done.
  destruct (Js.forEach _ [] ss) as [sels| |] eqn:Hloop; simpl; [by intros [=]| |by intros [=]].
  intros [= <-]. apply forEach_Throw_some in Hloop as (a0 & x & Hx & Hstep).
  destruct x as [a nm args sx l|t sx l|name loc].
  - rewrite inlineStep_other in Hstep; [|done].
    destruct (Walk.inline _ _ _ n _) as [x'| |] eqn:Hx'; simpl in Hstep; simplify_eq.
    destruct (IH _ _ _ _ Hx') as (g & -> & Hg & Hr).
    exists g. split_and!; [done..|]. by eapply reaches_child.
  - rewrite inlineStep_other in Hstep; [|done].
    destruct (Walk.inline _ _ _ n _) as [x'| |] eqn:Hx'; simpl in Hstep; simplify_eq.
    destruct (IH _ _ _ _ Hx') as (g & -> & Hg & Hr).
    exists g. split_and!; [done..|]. by eapply reaches_child.
  - rewrite inlineStep_spread in Hstep.
    destruct (getProperty fragmentMap (name_value name)) as [frag| |] eqn:Hfrag.
    + destruct (Walk.inline _ _ _ n frag) as [x'| |] eqn:Hx'; simpl in Hstep; simplify_eq.
      destruct (IH _ _ _ _ Hx') as (g & -> & Hg & Hr).
      exists g. split_and!; [done..|].
      eapply reaches_via; [by eapply spreadsOf_spread | by apply lookup_getProperty | done].
    + done.
    + simplify_eq. exists (name_value name). split_and!; [done..|].
      apply reaches_here. by eapply spreadsOf_spread.
Qed.

(** A fragment on a cycle is never expanded to the end. *)
Lemma inline_onCycle fuel g fragment fragment' :
  fragmentMap !! g = Some fragment →
  reaches fragmentMap (frag_selectionSet fragment) g →
  inline fuel fragment ≠ Ok fragment'.
Proof.
  intros Hg Hr. revert fragment'.
  induction fuel as [fuel IH] using lt_wf_ind; intros fragment' Hok.
  pose proof (inline_Ok_reaches _ _ _ g Hok Hr) as Hmet.
  apply lookup_getProperty in Hg. rewrite Hg in Hmet.
  destruct Hmet as (n & fg' & Hn & Hok'). by eapply IH.
Qed.

Lemma forEach_terminates {A B} (f : nat → A → B → result A) l :
  (∀ x, x ∈ l → ∃ N, ∀ n a, N ≤ n → f n a x ≠ OutOfFuel) →
  ∃ N, ∀ n a, N ≤ n → Js.forEach (f n) a l ≠ OutOfFuel.
Proof.
  induction l as [|x l IH]; intros Hl.
  - exists 0. done.
  - destruct (Hl x) as [Nx Hx]; [left|].
    destruct IH as [Nl HNl]; [intros y Hy; apply Hl; by right|].
    exists (Nx `max` Nl). intros n a Hn. simpl.
    specialize (Hx n a). destruct (f n a x) as [a'| |]; simpl; [|done|].
    + apply HNl. lia.
    + apply Hx. lia.
Qed.

(** With a ranking of the fragments, every call ends. *)
Lemma inline_terminates rank :
  ranked fragmentMap rank →
  ∀ r {T} `{HasSelectionSet T} (node : T),
    (∀ h, h ∈ spreadsOf (selectionsOf node) → is_Some (fragmentMap !! h) → rank h < r) →
    ∃ fuel, inline fuel node ≠ OutOfFuel.
Proof.
  intros Hrank r. induction r as [r IHr] using lt_wf_ind.
  assert (Hd : ∀ d {T} `{HasSelectionSet T} (node : T),
            depths (selectionsOf node) ≤ d →
            (∀ h, h ∈ spreadsOf (selectionsOf node) →
                  is_Some (fragmentMap !! h) → rank h < r) →
            ∃ fuel, inline fuel node ≠ OutOfFuel).
  { induction d as [d IHd] using lt_wf_ind. intros T H node Hdepth Hnode.
    destruct (selectionSetOf node) as [ss|] eqn:Hss;
      [|exists 0; by rewrite inline_leaf].
    unfold selectionsOf in Hdepth, Hnode. rewrite Hss in Hdepth, Hnode.
    simpl in Hdepth, Hnode.
    destruct (forEach_terminates
                (λ n, inlineStep (@Walk.inline merge notFound fragmentMap n)) ss)
      as [N HN].
    { intros x Hx.
      assert (Hcall : ∀ {U} `{HasSelectionSet U} (y : U),
                (∃ fuel, inline fuel y ≠ OutOfFuel) →
                ∃ N, ∀ n, N ≤ n → inline n y ≠ OutOfFuel).
      { intros U HU y [fuel Hy]. exists fuel. intros n Hn.
        by rewrite (inline_mono fuel n y _ eq_refl Hy Hn). }
      destruct x as [a nm args sx l|t sx l|name loc].
      - destruct (Hcall _ _ (Field a nm args sx l)) as [N HN].
        { assert (depth (Field a nm args sx l) ≤ d).
          { apply depths_le in Hdepth. rewrite Forall_forall in Hdepth.
            by apply Hdepth. }
          destruct sx as [sx|]; [|exists 0; by rewrite inline_leaf].
          apply (IHd (depths sx)); [simpl in *; fold_depths; lia | done |].
          intros h Hh. apply Hnode. by eapply spreadsOf_child. }
        exists N. intros n acc Hn. rewrite inlineStep_other; [|done].
        specialize (HN n Hn). by destruct (Walk.inline _ _ _ n _).
      - destruct (Hcall _ _ (InlineFragment t sx l)) as [N HN].
        { assert (depth (InlineFragment t sx l) ≤ d).
          { apply depths_le in Hdepth. rewrite Forall_forall in Hdepth.
            by apply Hdepth. }
          apply (IHd (depths sx)); [simpl in *; fold_depths; lia | done |].
          intros h Hh. apply Hnode. by eapply spreadsOf_child. }
        exists N. intros n acc Hn. rewrite inlineStep_other; [|done].
        specialize (HN n Hn). by destruct (Walk.inline _ _ _ n _).
      - destruct (getProperty fragmentMap (name_value name)) as [frag| |] eqn:Hfrag.
        + pose proof (proj2 (lookup_getProperty _ _ _) Hfrag) as Hsome.
          destruct (Hcall _ _ frag) as [N HN].
          { apply (IHr (rank (name_value name))).
            - apply Hnode; [by eapply spreadsOf_spread | by eexists].
            - intros h Hh Hh'. by eapply Hrank. }
          exists N. intros n acc Hn. rewrite inlineStep_spread, Hfrag.
          specialize (HN n Hn). by destruct (Walk.inline _ _ _ n _).
        + exists 0. intros n acc _. by rewrite inlineStep_spread, Hfrag.
        + exists 0. intros n acc _. by rewrite inlineStep_spread, Hfrag. }
    exists (S N). rewrite inline_unfold, Hss.
    specialize (HN N [] (Nat.le_refl _)).
    by destruct (Js.forEach _ [] ss). }
  intros T H node. by apply (Hd (depths (selectionsOf node))).
Qed.

(** When [merge] keeps selections free of spreads, so is what a call
    returns. *)
Lemma inline_Ok_spreadFree :
  (∀ l, Forall (λ s, spreadFree s = true) l →
        Forall (λ s, spreadFree s = true) (merge l)) →
  ∀ fuel {T} `{HasSelectionSet T} (node node' : T),
    inline fuel node = Ok node' →
    match selectionSetOf node with
    | None => node' = node
    | Some _ => ∃ selections, node' = withSelectionSet node (merge selections)
                              ∧ Forall (λ s, spreadFree s = true) selections
    end.
Proof.
  intros Hmerge fuel. induction fuel as [|n IH]; intros T H node node';
    rewrite inline_unfold; destruct (selectionSetOf node) as [ss|];
    try (by intros [=]).
  destruct (Js.forEach _ [] ss) as [sels| |] eqn:Hloop; simpl; try (by intros [=]).
  intros [= <-]. exists sels. split; [done|].
  eapply (forEach_inv (λ acc, Forall (λ s, spreadFree s = true) acc));
    [| |exact Hloop]; [constructor|].
  intros acc x acc' Hacc Hx Hstep.
  destruct x as [a nm args sx l|t sx l|name loc].
  - rewrite inlineStep_other in Hstep; [|done].
    destruct (Walk.inline _ _ _ n _) as [x'| |] eqn:Hx'; simpl in Hstep; simplify_eq.
    apply Forall_app; split; [done|]. constructor; [|constructor].
    apply IH in Hx'. simpl in Hx'. destruct sx as [sx|]; [|by subst].
    destruct Hx' as (new & -> & Hnew). simpl. by apply forallb_Forall, Hmerge.
  - rewrite inlineStep_other in Hstep; [|done].
    destruct (Walk.inline _ _ _ n _) as [x'| |] eqn:Hx'; simpl in Hstep; simplify_eq.
    apply Forall_app; split; [done|]. constructor; [|constructor].
    apply IH in Hx'. simpl in Hx'.
    destruct Hx' as (new & -> & Hnew). simpl. by apply forallb_Forall, Hmerge.
  - rewrite inlineStep_spread in Hstep.
    destruct (getProperty fragmentMap (name_value name)) as [frag| |];
      [|by simplify_eq|done].
    destruct (Walk.inline _ _ _ n frag) as [x'| |] eqn:Hx'; simpl in Hstep; simplify_eq.
    apply Forall_app; split; [done|].
    apply IH in Hx'. simpl in Hx'. destruct Hx' as (new & -> & Hnew).
    by apply Hmerge.
Qed.

(** On a tree without spreads a call merges every level again, and needs
    a stack no deeper than the tree. *)
Lemma inline_spreadFree fuel {T} `{HasSelectionSet T} (node : T) :
  Forall (λ s, spreadFree s = true) (selectionsOf node) →
  depths (selectionsOf node) < fuel →
  inline fuel node =
  match selectionSetOf node with
  | None => Ok node
  | Some ss => Ok (withSelectionSet node (merge (map (mergedAgain merge) ss)))
  end.
Proof.
  revert T H node. induction fuel as [|n IH]; intros T H node Hfree Hdepth; [lia|].
  rewrite inline_unfold. unfold selectionsOf in *.
  destruct (selectionSetOf node) as [ss|]; [|done]. simpl in *.
  assert (Hloop : ∀ acc, Js.forEach
            (inlineStep (@Walk.inline merge notFound fragmentMap n)) acc ss
            = Ok (acc ++ map (mergedAgain merge) ss)).
  { clear node. induction ss as [|x ss IHss]; intros acc; simpl.
    - by rewrite app_nil_r.
    - apply Forall_cons in Hfree as [Hx Hfree].
      rewrite depths_cons in Hdepth.
      assert (Hdx : depth x ≤ n) by lia.
      assert (Hstep : inlineStep (@Walk.inline merge notFound fragmentMap n) acc x
                      = Ok (acc ++ [mergedAgain merge x])).
      { destruct x as [a nm args sx l|t sx l|name loc]; [| |done].
        - rewrite inlineStep_other; [|done].
          destruct sx as [sx|]; [|by rewrite inline_leaf].
          rewrite IH; unfold selectionsOf; simpl.
          + done.
          + by apply forallb_Forall.
          + simpl in Hdx; fold_depths; lia.
        - rewrite inlineStep_other; [|done]. rewrite IH; unfold selectionsOf; simpl.
          + done.
          + by apply forallb_Forall.
          + simpl in Hdx; fold_depths; lia. }
      rewrite Hstep. simpl. rewrite IHss; [|done|lia].
      by rewrite <- app_assoc. }
  by rewrite Hloop.
Qed.

End Facts.
End WalkFacts.

(** ** Documents *)

Module DocumentFacts.
Import Ast Walk TreeFacts JsFacts PropertyFacts WalkFacts.

Lemma mapArray_Ok {A B} (f : A → result B) l ys :
  Js.mapArray f l = Ok ys ↔ Forall2 (λ x y, f x = Ok y) l ys.
Proof.
  split.
  - revert ys. induction l as [|x l IH]; intros ys; simpl.
    + intros [= <-]. constructor.
    + destruct (f x) as [y| |] eqn:Hx; simpl; [|done..].
      destruct (Js.mapArray f l) as [ys'| |]; simpl; [|done..].
      intros [= <-]. constructor; [done | by apply IH].
  - induction 1 as [|x y l ys Hx _ IH]; simpl; [done|].
    by rewrite Hx, IH.
Qed.

Lemma mapArray_Throw {A B} (f : A → result B) l msg :
  Js.mapArray f l = Throw msg → ∃ x, x ∈ l ∧ f x = Throw msg.
Proof.
  induction l as [|x l IH]; simpl; [done|].
  destruct (f x) as [y| |] eqn:Hx; simpl.
  - destruct (Js.mapArray f l) as [ys'| |]; simpl; try done.
    intros [= <-]. destruct IH as (x' & ? & ?); [done|].
    exists x'. split; [by right | done].
  - intros [= <-]. exists x. split; [left | done].
  - done.
Qed.

Lemma mapArray_mono {A B} (f g : A → result B) l r :
  (∀ x r, x ∈ l → f x = r → r ≠ OutOfFuel → g x = r) →
  Js.mapArray f l = r → r ≠ OutOfFuel → Js.mapArray g l = r.
Proof.
  revert r. induction l as [|x l IH]; intros r Hfg; simpl; [done|].
  intros Hr Hne.
  destruct (f x) as [y| |] eqn:Hx; simpl in Hr.
  - rewrite (Hfg x (Ok y)); [|left|done..]. simpl.
    destruct (Js.mapArray f l) as [ys'| |] eqn:Hl; simpl in Hr.
    + rewrite (IH (Ok ys')); [done| |done..].
      intros ? ? ?. apply Hfg. by right.
    + rewrite (IH (Throw message)); [done| |done..].
      intros ? ? ?. apply Hfg. by right.
    + by subst.
  - rewrite (Hfg x (Throw message)); [done|left|done..].
  - by subst.
Qed.

Lemma mapArray_terminates {A B} (f : nat → A → result B) l :
  (∀ x, x ∈ l → ∃ N, ∀ n, N ≤ n → f n x ≠ OutOfFuel) →
  ∃ N, ∀ n, N ≤ n → Js.mapArray (f n) l ≠ OutOfFuel.
Proof.
  induction l as [|x l IH]; intros Hl.
  - exists 0. done.
  - destruct (Hl x) as [Nx Hx]; [left|].
    destruct IH as [Nl HNl]; [intros y Hy; apply Hl; by right|].
    exists (Nx `max` Nl). intros n Hn. simpl.
    specialize (Hx n). specialize (HNl n).
    destruct (f n x) as [a'| |]; simpl; [|done|destruct Hx; [lia|done]].
    destruct (Js.mapArray (f n) l); simpl; [done..|destruct HNl; [lia|done]].
Qed.

Lemma elem_of_operations def ast :
  def ∈ operations ast ↔ OperationDefinition def ∈ ast.
Proof.
  induction ast as [|d ast IH]; simpl.
  - by rewrite !elem_of_nil.
  - destruct d; rewrite ?elem_of_cons, IH.
    + split; intros [?|?]; simplify_eq; auto.
    + split; [auto | by intros [?|?]].
    + split; [auto | by intros [?|?]].
Qed.

Section Facts.
Context (merge : list SelectionNode → list SelectionNode).
Context (notFound : string → string).
Context (fragmentMap : FragmentMap).

#[local] Abbreviation inline := (Walk.inline merge notFound fragmentMap).
#[local] Abbreviation inlineOperations :=
  (Walk.inlineOperations merge notFound fragmentMap).

Lemma inlineOperations_Ok fuel ast out :
  inlineOperations fuel ast = Ok out ↔
  ∃ defs, out = map OperationDefinition defs
          ∧ Forall2 (λ def def', inline fuel def = Ok def') (operations ast) defs.
Proof.
  unfold Walk.inlineOperations.
  destruct (Js.mapArray _ _) as [defs| |] eqn:Hmap; simpl.
  - apply mapArray_Ok in Hmap. split.
    + intros [= <-]. eauto.
    + intros (defs' & -> & H2). f_equal. f_equal.
      apply mapArray_Ok in Hmap, H2. congruence.
  - split; [done|]. intros (defs' & -> & H2%mapArray_Ok). congruence.
  - split; [done|]. intros (defs' & -> & H2%mapArray_Ok). congruence.
Qed.

Lemma inlineOperations_Throw fuel ast msg :
  inlineOperations fuel ast = Throw msg →
  ∃ def g, def ∈ operations ast ∧ msg = notFound g
           ∧ getProperty fragmentMap g = Undefined
           ∧ reaches fragmentMap (op_selectionSet def) g.
Proof.
  unfold Walk.inlineOperations.
  destruct (Js.mapArray _ _) as [defs| |] eqn:Hmap; simpl; try (by intros [=]).
  intros [= <-]. apply mapArray_Throw in Hmap as (def & Hdef & Hthrow).
  apply inline_Throw in Hthrow as (g & ? & ? & ?). exists def, g. split_and!; done.
Qed.

Lemma inlineOperations_mono fuel fuel' ast r :
  inlineOperations fuel ast = r → r ≠ OutOfFuel → fuel ≤ fuel' →
  inlineOperations fuel' ast = r.
Proof.
  unfold Walk.inlineOperations. intros Hr Hne Hle.
  assert (Hm : ∀ rs, Js.mapArray (inline fuel) (operations ast) = rs →
                     rs ≠ OutOfFuel →
                     Js.mapArray (inline fuel') (operations ast) = rs).
  { intros rs. apply mapArray_mono. intros x rx _ Hx Hnx. by eapply inline_mono. }
  destruct (Js.mapArray (inline fuel) _) as [defs| |] eqn:Hmap; simpl in Hr;
    [| |by subst]; by rewrite (Hm _ eq_refl).
Qed.

Lemma inlineOperations_terminates ast :
  acyclic fragmentMap → ∃ fuel, inlineOperations fuel ast ≠ OutOfFuel.
Proof.
  intros [rank Hrank].
  destruct (mapArray_terminates
              (λ n, @Walk.inline merge notFound fragmentMap n _ _) (operations ast))
    as [N HN].
  - intros def _.
    destruct (inline_terminates merge notFound fragmentMap rank Hrank
                (S (list_max (map rank (spreadsOf (selectionsOf def))))) def)
      as [fuel Hfuel].
    + intros h Hh _. apply Nat.lt_succ_r.
      assert (Forall (λ k, k ≤ list_max (map rank (spreadsOf (selectionsOf def))))
                (map rank (spreadsOf (selectionsOf def)))) as Hmax.
      { by apply list_max_le. }
      rewrite Forall_forall in Hmax. apply Hmax.
      apply list_elem_of_fmap. eauto.
    + exists fuel. intros n Hn.
      by rewrite (inline_mono _ _ _ fuel n def _ eq_refl Hfuel Hn).
  - exists N. unfold Walk.inlineOperations. specialize (HN N (Nat.le_refl _)).
    by destruct (Js.mapArray _ _).
Qed.

(** A document that is returned had no spread of an undefined name
    reached from its operations, and no fragment on a cycle. *)
Lemma inlineOperations_Ok_reaches fuel ast out def g :
  inlineOperations fuel ast = Ok out →
  def ∈ operations ast → reaches fragmentMap (op_selectionSet def) g →
  getProperty fragmentMap g ≠ Undefined ∧ ¬ onCycle fragmentMap g.
Proof.
  intros (defs & -> & Hall)%inlineOperations_Ok Hdef Hr.
  apply list_elem_of_lookup in Hdef as [i Hi].
  destruct (Forall2_lookup_l _ _ _ _ _ Hall Hi) as (def' & _ & Hok).
  pose proof (inline_Ok_reaches merge notFound fragmentMap _ _ _ g Hok Hr) as Hmet.
  split; [intros Hg; by rewrite Hg in Hmet|].
  intros (frag0 & Hfrag0 & Hcyc).
  pose proof Hfrag0 as Hfrag1. apply lookup_getProperty in Hfrag1.
  rewrite Hfrag1 in Hmet. destruct Hmet as (n & frag' & _ & Hok').
  by eapply inline_onCycle.
Qed.

End Facts.
End DocumentFacts.

Module FragmentMapFacts.
Import Ast Walk TreeFacts PropertyFacts DocumentFacts.

Lemma buildFragmentMap_Some ast g fragment :
  buildFragmentMap ast !! g = Some fragment →
  FragmentDefinition fragment ∈ ast ∧ name_value (frag_name fragment) = g.
Proof.
  unfold buildFragmentMap.
  assert (Hgen : ∀ m : FragmentMap,
            foldl (λ fragmentMap def,
                     match def with
                     | FragmentDefinition d =>
                         setProperty (name_value (frag_name d)) d fragmentMap
                     | _ => fragmentMap
                     end) m ast !! g = Some fragment →
            (FragmentDefinition fragment ∈ ast ∧ name_value (frag_name fragment) = g)
            ∨ m !! g = Some fragment).
  { induction ast as [|def ast IH]; intros m; simpl; [by right|].
    intros [[Hin Hname]|Hm]%IH; [left; split; [by right | done]|].
    destruct def as [d|d|k]; [by right| |by right].
    rewrite lookup_setProperty in Hm.
    destruct (decide (name_value (frag_name d) = g)) as [<-|]; [|by right].
    simplify_eq. left. split; [left | done]. }
  intros [?|Hempty]%Hgen; [done|]. by rewrite lookup_emptyObject in Hempty.
Qed.

Lemma spreadsOf_documentSpreads def ast g :
  def ∈ ast → g ∈ spreadsOf (definitionSelections def) → g ∈ documentSpreads ast.
Proof.
  intros Hdef Hg. unfold documentSpreads. apply list_elem_of_In, in_flat_map.
  exists def. by rewrite <- !list_elem_of_In.
Qed.

Lemma reaches_documentSpreads ast def g :
  def ∈ ast →
  reaches (buildFragmentMap ast) (definitionSelections def) g →
  g ∈ documentSpreads ast.
Proof.
  intros Hdef Hr. remember (definitionSelections def) as ss eqn:Hss.
  revert def Hdef Hss. induction Hr as [ss g Hg|ss h frag g Hh Hfrag Hr IH];
    intros def Hdef ->.
  - by eapply spreadsOf_documentSpreads.
  - apply buildFragmentMap_Some in Hfrag as [Hin _].
    by apply (IH (FragmentDefinition frag)).
Qed.

(** When every spread written in the document names a fragment of the
    map, so does every spread met while expanding its operations. *)
Lemma documentSpreads_resolved ast :
  Forall (λ g, is_Some (buildFragmentMap ast !! g)) (documentSpreads ast) →
  ∀ g, reachedFrom (buildFragmentMap ast) ast g → is_Some (buildFragmentMap ast !! g).
Proof.
  intros Hall g (def & Hdef%elem_of_operations & Hr).
  rewrite Forall_forall in Hall. apply Hall.
  by apply (reaches_documentSpreads ast (OperationDefinition def)).
Qed.

Lemma rankedBy_ranked rank ast :
  rankedBy rank ast = true → ranked (buildFragmentMap ast) rank.
Proof.
  unfold rankedBy. rewrite forallb_Forall, Forall_forall.
  intros Hall g frag h [Hin <-]%buildFragmentMap_Some Hh _.
  specialize (Hall _ Hin). cbn in Hall.
  rewrite forallb_Forall, Forall_forall in Hall.
  by apply Nat.ltb_lt, Hall.
Qed.

End FragmentMapFacts.

Module DocumentLemmas.
Import Ast Walk TreeFacts JsFacts PropertyFacts WalkFacts DocumentFacts.

Section Generic.
Context (merge : list SelectionNode → list SelectionNode).
Context (notFound : string → string).
Context (fragmentMap : FragmentMap).

#[local] Abbreviation inlineOperations :=
  (Walk.inlineOperations merge notFound fragmentMap).

Lemma inlineOperations_settles ast :
  acyclic fragmentMap →
  ∃ fuel r, r ≠ OutOfFuel ∧ ∀ fuel', fuel ≤ fuel' → inlineOperations fuel' ast = r.
Proof.
  intros [fuel Hfuel]%(inlineOperations_terminates merge notFound fragmentMap ast).
  exists fuel, (inlineOperations fuel ast). split; [done|].
  intros fuel' Hle. by eapply inlineOperations_mono.
Qed.

Lemma inlineOperations_no_Throw ast fuel msg :
  (∀ g, reachedFrom fragmentMap ast g → getProperty fragmentMap g ≠ Undefined) →
  inlineOperations fuel ast ≠ Throw msg.
Proof.
  intros Hres (def & g & Hdef & -> & Hg & Hr)%inlineOperations_Throw.
  destruct (Hres g); [by exists def | done].
Qed.

Lemma inlineOperations_not_Ok ast fuel out g :
  reachedFrom fragmentMap ast g →
  getProperty fragmentMap g = Undefined ∨ onCycle fragmentMap g →
  inlineOperations fuel ast ≠ Ok out.
Proof.
  intros (def & Hdef & Hr) Hg Hok.
  destruct (inlineOperations_Ok_reaches _ _ _ _ _ _ _ g Hok Hdef Hr) as [Hfrag Hcyc].
  destruct Hg; done.
Qed.

Lemma generic_postcondition ast :
  (∀ l, Forall (λ s, spreadFree s = true) l →
        Forall (λ s, spreadFree s = true) (merge l)) →
  (∀ g, reachedFrom fragmentMap ast g → getProperty fragmentMap g ≠ Undefined) →
  acyclic fragmentMap →
  ∃ fuel out,
    (∀ fuel', fuel ≤ fuel' → inlineOperations fuel' ast = Ok out)
    ∧ forallb isOperation out = true
    ∧ documentSpreadFree out = true.
Proof.
  intros Hmerge Hres Hacyc.
  destruct (inlineOperations_settles ast Hacyc) as (fuel & r & Hr & Hfuel).
  destruct r as [out|msg|]; [| |done].
  - exists fuel, out. split; [done|].
    specialize (Hfuel fuel (Nat.le_refl _)).
    apply inlineOperations_Ok in Hfuel as (defs & -> & Hall).
    split.
    + clear. by induction defs.
    + unfold documentSpreadFree. rewrite forallb_Forall, Forall_map.
      clear Hr. induction Hall as [|def def' ops defs Hdef _ IH]; constructor; [|done].
      apply (inline_Ok_spreadFree merge notFound fragmentMap Hmerge) in Hdef.
      cbn in Hdef. destruct Hdef as (sels & -> & Hsels). cbn.
      by apply forallb_Forall, Hmerge.
  - destruct (inlineOperations_no_Throw ast fuel msg Hres). by apply Hfuel.
Qed.

Lemma generic_resolution_failure ast :
  acyclic fragmentMap →
  (∃ g, reachedFrom fragmentMap ast g ∧ getProperty fragmentMap g = Undefined) →
  ∃ fuel g,
    reachedFrom fragmentMap ast g ∧ getProperty fragmentMap g = Undefined
    ∧ ∀ fuel', fuel ≤ fuel' → inlineOperations fuel' ast = Throw (notFound g).
Proof.
  intros Hacyc (g & Hg & Hnone).
  destruct (inlineOperations_settles ast Hacyc) as (fuel & r & Hr & Hfuel).
  destruct r as [out|msg|]; [| |done].
  - destruct (inlineOperations_not_Ok ast fuel out g Hg (or_introl Hnone)).
    by apply Hfuel.
  - pose proof (Hfuel fuel (Nat.le_refl _)) as Hthrow.
    apply inlineOperations_Throw in Hthrow as (def & g' & Hdef & -> & Hg' & Hr').
    exists fuel, g'. split_and!; [by exists def | done | done].
Qed.

Lemma generic_cycle ast fuel :
  (∀ g, reachedFrom fragmentMap ast g → getProperty fragmentMap g ≠ Undefined) →
  (∃ g, reachedFrom fragmentMap ast g ∧ onCycle fragmentMap g) →
  inlineOperations fuel ast = OutOfFuel.
Proof.
  intros Hres (g & Hg & Hcyc).
  destruct (inlineOperations fuel ast) as [out|msg|] eqn:Hr; [| |done].
  - by destruct (inlineOperations_not_Ok ast fuel out g Hg (or_intror Hcyc)).
  - by destruct (inlineOperations_no_Throw ast fuel msg Hres).
Qed.

Lemma generic_spreadFree ast fuel :
  documentSpreadFree ast = true → documentDepth ast < fuel →
  inlineOperations fuel ast
  = Ok (map (λ def, OperationDefinition (operationMergedAgain merge def))
          (operations ast)).
Proof.
  intros Hfree Hdepth. unfold Walk.inlineOperations.
  assert (Hmap : Js.mapArray (Walk.inline merge notFound fragmentMap fuel)
                   (operations ast)
                 = Ok (map (operationMergedAgain merge) (operations ast))).
  { apply mapArray_Ok. apply Forall2_fmap_r, Forall2_same_length_lookup.
    split; [done|]. intros i def def' Hi Hi'. simplify_eq.
    rewrite inline_spreadFree; [done| |].
    - apply list_elem_of_lookup_2, elem_of_operations in Hi.
      unfold documentSpreadFree in Hfree. rewrite forallb_Forall, Forall_forall in Hfree.
      specialize (Hfree _ Hi). by apply forallb_Forall in Hfree.
    - eapply Nat.le_lt_trans; [|exact Hdepth]. unfold documentDepth.
      assert (Forall (λ k, k ≤ list_max (map (λ def, depths (op_selectionSet def))
                                            (operations ast)))
                (map (λ def, depths (op_selectionSet def)) (operations ast))) as Hmax.
      { by apply list_max_le. }
      rewrite Forall_forall in Hmax. apply Hmax.
      apply list_elem_of_fmap. exists def. split; [done|].
      by eapply list_elem_of_lookup_2. }
  rewrite Hmap. simpl. by rewrite map_map.
Qed.

End Generic.
End DocumentLemmas.

(** ** Spreads of undefined names *)

Module ResolutionFacts.
Import Ast Walk TreeFacts JsFacts PropertyFacts WalkFacts DocumentFacts DocumentLemmas.

Lemma forEach_app {A B} (f : A → B → result A) a l1 l2 :
  Js.forEach f a (l1 ++ l2) = (a' ← Js.forEach f a l1; Js.forEach f a' l2).
Proof.
  revert a. induction l1 as [|x l1 IH]; intros a; simpl; [done|].
  destruct (f a x) as [a'| |]; simpl; [apply IH | done..].
Qed.

(** The first turn that throws, in a loop that throws. *)
Lemma forEach_Throw_first {A B} (f : A → B → result A) a l msg :
  Js.forEach f a l = Throw msg →
  ∃ before x after a', l = before ++ x :: after
                       ∧ Js.forEach f a before = Ok a' ∧ f a' x = Throw msg.
Proof.
  revert a. induction l as [|y l IH]; intros a; simpl; [done|].
  destruct (f a y) as [a1| |] eqn:Hf; simpl; [|intros [= <-]|done].
  - intros (before & x & after & a' & -> & Hbefore & Hx)%IH.
    exists (y :: before), x, after, a'. split_and!; [done| |done].
    simpl. by rewrite Hf.
  - by exists [], y, l, a.
Qed.

Lemma mapArray_app {A B} (f : A → result B) l1 l2 :
  Js.mapArray f (l1 ++ l2)
  = (ys1 ← Js.mapArray f l1; ys2 ← Js.mapArray f l2; Ok (ys1 ++ ys2)).
Proof.
  induction l1 as [|x l1 IH]; simpl.
  - by destruct (Js.mapArray f l2).
  - destruct (f x) as [y| |]; simpl; [|done..]. rewrite IH.
    destruct (Js.mapArray f l1) as [ys1| |]; simpl; [|done..].
    by destruct (Js.mapArray f l2).
Qed.

Lemma mapArray_Throw_first {A B} (f : A → result B) l msg :
  Js.mapArray f l = Throw msg →
  ∃ before x after ys, l = before ++ x :: after
                       ∧ Js.mapArray f before = Ok ys ∧ f x = Throw msg.
Proof.
  induction l as [|y l IH]; simpl; [done|].
  destruct (f y) as [y'| |] eqn:Hf; simpl; [|intros [= <-]|done].
  - destruct (Js.mapArray f l) as [ys| |] eqn:Hl; simpl; [done| |done].
    intros [= <-]. destruct IH as (before & x & after & ys & -> & Hbefore & Hx); [done|].
    exists (y :: before), x, after, (y' :: ys). split_and!; [done| |done].
    simpl. by rewrite Hf, Hbefore.
  - by exists [], y, l, [].
Qed.

Section Facts.
Context (merge : list SelectionNode → list SelectionNode).
Context (notFound : string → string).
Context (fragmentMap : FragmentMap).

#[local] Abbreviation inline := (Walk.inline merge notFound fragmentMap).
#[local] Abbreviation inlineStep := (Walk.inlineStep notFound fragmentMap).
#[local] Abbreviation loop n := (Js.forEach (inlineStep (@Walk.inline merge notFound fragmentMap n))).

(** The selections collected so far are only added to. *)
Lemma loop_acc n acc l :
  loop n acc l
  = match loop n [] l with
    | Ok out => Ok (acc ++ out)
    | Throw msg => Throw msg
    | OutOfFuel => OutOfFuel
    end.
Proof.
  revert acc. induction l as [|x l IH]; intros acc; simpl; [by rewrite app_nil_r|].
  assert (Hstep : ∀ a, inlineStep (@Walk.inline merge notFound fragmentMap n) a x
                       = match inlineStep (@Walk.inline merge notFound fragmentMap n) [] x with
                         | Ok out => Ok (a ++ out)
                         | Throw msg => Throw msg
                         | OutOfFuel => OutOfFuel
                         end).
  { intros a. unfold Walk.inlineStep. destruct x as [? ? ? ? ?|? ? ?|name loc].
    - by destruct (Walk.inline _ _ _ n _).
    - by destruct (Walk.inline _ _ _ n _).
    - destruct (getProperty _ _); [|by rewrite app_nil_r|done].
      by destruct (Walk.inline _ _ _ n _). }
  rewrite (Hstep acc).
  destruct (inlineStep _ [] x) as [out| |]; simpl; [|done..].
  rewrite (IH (acc ++ out)), (IH out).
  destruct (loop n [] l); [|done..]. by rewrite app_assoc.
Qed.

(** An inline fragment stands for a list of selections. *)
Lemma inline_wrapped n selections :
  inline (S n) (InlineFragment None selections None)
  = (out ← loop n [] selections; Ok (InlineFragment None (merge out) None)).
Proof. reflexivity. Qed.

Lemma reaches_app l1 l2 g :
  reaches fragmentMap (l1 ++ l2) g
  ↔ reaches fragmentMap l1 g ∨ reaches fragmentMap l2 g.
Proof.
  assert (Hspreads : ∀ h, h ∈ spreadsOf (l1 ++ l2) ↔ h ∈ spreadsOf l1 ∨ h ∈ spreadsOf l2).
  { intros h. unfold spreadsOf. rewrite flat_map_app. apply elem_of_app. }
  split.
  - inversion 1 as [? ? Hg|? h via ? Hh Hvia Hrest]; subst.
    + apply Hspreads in Hg as [?|?]; [left | right]; by apply reaches_here.
    + apply Hspreads in Hh as [?|?]; [left | right]; by eapply reaches_via.
  - intros [Hr|Hr]; inversion Hr as [? ? Hg|? h via ? Hh Hvia Hrest]; subst.
    + apply reaches_here, Hspreads. by left.
    + eapply reaches_via; [apply Hspreads; by left | done..].
    + apply reaches_here, Hspreads. by right.
    + eapply reaches_via; [apply Hspreads; by right | done..].
Qed.

(** A call that returns went through settled selections. *)
Lemma inline_Ok_settled fuel {T} `{HasSelectionSet T} (node node' : T) :
  inline fuel node = Ok node' → settled fragmentMap (selectionsOf node).
Proof.
  intros Hok g Hg.
  pose proof (inline_Ok_reaches merge notFound fragmentMap _ _ _ g Hok Hg) as Hmet.
  split; [intros Hu; by rewrite Hu in Hmet|].
  intros (fragment & Hfragment & Hcyc).
  pose proof Hfragment as Hf. apply lookup_getProperty in Hf. rewrite Hf in Hmet.
  destruct Hmet as (n & fragment' & _ & Hok').
  by eapply inline_onCycle.
Qed.

Lemma loop_Ok_settled n l out : loop n [] l = Ok out → settled fragmentMap l.
Proof.
  intros Hloop.
  change (settled fragmentMap (selectionsOf (InlineFragment None l None))).
  apply (inline_Ok_settled (S n) _ (InlineFragment None (merge out) None)).
  by rewrite inline_wrapped, Hloop.
Qed.

(** A turn, and the loop, that return or throw do the same with a
    deeper stack. *)
Lemma inlineStep_mono n n' a x r :
  inlineStep (@Walk.inline merge notFound fragmentMap n) a x = r →
  r ≠ OutOfFuel → n ≤ n' →
  inlineStep (@Walk.inline merge notFound fragmentMap n') a x = r.
Proof.
  intros Hstep Hne Hle. unfold Walk.inlineStep in *.
  destruct x as [? ? ? ? ?|? ? ?|name loc].
  - destruct (Walk.inline _ _ _ n _) as [x'| |] eqn:Hx; try (by subst);
      erewrite inline_mono; first [exact Hstep | exact Hx | done | lia].
  - destruct (Walk.inline _ _ _ n _) as [x'| |] eqn:Hx; try (by subst);
      erewrite inline_mono; first [exact Hstep | exact Hx | done | lia].
  - destruct (getProperty fragmentMap _) as [frag| |]; [|done..].
    destruct (Walk.inline _ _ _ n frag) as [x'| |] eqn:Hx; try (by subst);
      erewrite inline_mono; first [exact Hstep | exact Hx | done | lia].
Qed.

Lemma loop_mono n n' a l r :
  loop n a l = r → r ≠ OutOfFuel → n ≤ n' → loop n' a l = r.
Proof.
  intros Hr Hne Hle. eapply forEach_mono; [|exact Hr|done].
  intros a0 x r0 Hstep Hne0. by eapply inlineStep_mono.
Qed.

Lemma inline_node n {T} `{HasSelectionSet T} (node : T) selectionSet :
  selectionSetOf node = Some selectionSet →
  inline (S n) node
  = (out ← loop n [] selectionSet; Ok (withSelectionSet node (merge out))).
Proof. intros Hnode. by rewrite inline_unfold, Hnode. Qed.

(** *** Calls that end

    The fragments being expanded on the way to a call are in [visited];
    when no fragment that is reached lies on a cycle, none of them is
    reached again, and the fragments left decrease. *)
#[local] Abbreviation names :=
  (dom (ownFragments fragmentMap) ∪ {["__proto__"]} : gset string).

Lemma lookup_names g fragment : fragmentMap !! g = Some fragment → g ∈ names.
Proof.
  unfold lookup, FragmentMap_lookup, getProperty.
  destruct (String.eqb_spec g "__proto__") as [->|Hg];
    [intros _; by apply elem_of_union_r, elem_of_singleton|].
  destruct (ownFragments fragmentMap !! g) as [d|] eqn:Hd.
  - intros _. apply elem_of_union_l, elem_of_dom. by eexists.
  - by destruct (_ || _).
Qed.

Lemma inline_ends_from (k : nat) (visited : gset string) :
  size (names ∖ visited) ≤ k →
  ∀ d {T} `{HasSelectionSet T} (node : T),
    depths (selectionsOf node) ≤ d →
    (∀ g, reaches fragmentMap (selectionsOf node) g →
          is_Some (fragmentMap !! g) →
          (g ∉ visited) ∧ ¬ onCycle fragmentMap g) →
    ∃ fuel, inline fuel node ≠ OutOfFuel.
Proof.
  revert visited. induction k as [k IHk] using lt_wf_ind. intros visited Hsize.
  induction d as [d IHd] using lt_wf_ind. intros T H node Hdepth Hnode.
  destruct (selectionSetOf node) as [ss|] eqn:Hss;
    [|exists 0; by rewrite inline_leaf].
  unfold selectionsOf in Hdepth, Hnode. rewrite Hss in Hdepth, Hnode.
  simpl in Hdepth, Hnode.
  destruct (forEach_terminates
              (λ n, inlineStep (@Walk.inline merge notFound fragmentMap n)) ss)
    as [N HN].
  { intros x Hx.
    assert (Hcall : ∀ {U} `{HasSelectionSet U} (y : U),
              (∃ fuel, inline fuel y ≠ OutOfFuel) →
              ∃ N, ∀ n, N ≤ n → inline n y ≠ OutOfFuel).
    { intros U HU y [fuel Hy]. exists fuel. intros n Hn.
      by rewrite (inline_mono _ _ _ fuel n y _ eq_refl Hy Hn). }
    assert (Hchild : ∀ sx, selectionSetOf x = Some sx →
              ∃ N, ∀ n, N ≤ n → inline n x ≠ OutOfFuel).
    { intros sx Hsx. apply Hcall.
      assert (depth x ≤ d).
      { apply depths_le in Hdepth. rewrite Forall_forall in Hdepth.
        by apply Hdepth. }
      apply (IHd (depths sx)).
      - rewrite (depth_selectionSetOf x sx Hsx) in *. lia.
      - unfold selectionsOf. by rewrite Hsx.
      - intros g Hg. apply Hnode. by eapply reaches_child. }
    destruct x as [a nm args sx l|t sx l|name loc].
    - destruct sx as [sx|].
      + destruct (Hchild sx eq_refl) as [N HN].
        exists N. intros n acc Hn. rewrite inlineStep_other; [|done].
        specialize (HN n Hn). by destruct (Walk.inline _ _ _ n _).
      + exists 0. intros n acc _. rewrite inlineStep_other; [|done].
        by rewrite inline_leaf.
    - destruct (Hchild sx eq_refl) as [N HN].
      exists N. intros n acc Hn. rewrite inlineStep_other; [|done].
      specialize (HN n Hn). by destruct (Walk.inline _ _ _ n _).
    - destruct (getProperty fragmentMap (name_value name)) as [frag| |] eqn:Hfrag.
      + pose proof (proj2 (lookup_getProperty _ _ _) Hfrag) as Hsome.
        destruct (Hnode (name_value name)) as [Hfresh Hcyc];
          [apply reaches_here; by eapply spreadsOf_spread | by eexists |].
        assert (Hless : size (names ∖ (visited ∪ {[name_value name]})) < k).
        { eapply Nat.lt_le_trans; [|exact Hsize]. apply subset_size. split.
          - intros y [Hy Hny]%elem_of_difference. apply elem_of_difference.
            split; [done|]. intros ?. by apply Hny, elem_of_union_l.
          - intros Hsub.
            assert (Hin : name_value name ∈ names ∖ visited).
            { apply elem_of_difference. split; [by eapply lookup_names | done]. }
            apply Hsub, elem_of_difference in Hin as [_ Hin].
            by apply Hin, elem_of_union_r, elem_of_singleton. }
        destruct (Hcall _ _ frag) as [N HN].
        { apply (IHk _ Hless (visited ∪ {[name_value name]}) (Nat.le_refl _)
                   (depths (selectionsOf frag)) _ _ frag (Nat.le_refl _)).
          intros g Hg Hdefined.
          destruct (Hnode g) as [Hg1 Hg2];
            [eapply reaches_via; [by eapply spreadsOf_spread | done..] | done |].
          split; [|done]. intros [?| ->%elem_of_singleton]%elem_of_union; [done|].
          apply Hcyc. by exists frag. }
        exists N. intros n acc Hn. rewrite inlineStep_spread, Hfrag.
        specialize (HN n Hn). by destruct (Walk.inline _ _ _ n _).
      + exists 0. intros n acc _. by rewrite inlineStep_spread, Hfrag.
      + exists 0. intros n acc _. by rewrite inlineStep_spread, Hfrag. }
  exists (S N). rewrite inline_unfold, Hss.
  specialize (HN N [] (Nat.le_refl _)).
  by destruct (Js.forEach _ [] ss).
Qed.

(** When no fragment reached from a node lies on a cycle, the call
    ends. *)
Lemma inline_ends {T} `{HasSelectionSet T} (node : T) :
  (∀ g, reaches fragmentMap (selectionsOf node) g → ¬ onCycle fragmentMap g) →
  ∃ fuel, inline fuel node ≠ OutOfFuel.
Proof.
  intros Hnode.
  assert (Hsize : size (names ∖ ∅) ≤ size names).
  { apply subseteq_size. by intros x [? _]%elem_of_difference. }
  apply (inline_ends_from (size names) ∅ Hsize
           (depths (selectionsOf node)) node (Nat.le_refl _)).
  intros g Hg _. split; [apply not_elem_of_empty | by apply Hnode].
Qed.

(** A call on settled selections returns, with any stack deep enough. *)
Lemma settled_returns {T} `{HasSelectionSet T} (node : T) :
  settled fragmentMap (selectionsOf node) →
  ∃ fuel node', ∀ n, fuel ≤ n → inline n node = Ok node'.
Proof.
  intros Hsettled.
  destruct (inline_ends node) as [fuel Hfuel]; [intros g Hg; by apply Hsettled|].
  destruct (inline fuel node) as [node'|msg|] eqn:Hr; [| |done].
  - exists fuel, node'. intros n Hn. by eapply inline_mono.
  - apply inline_Throw in Hr as (g & _ & Hg & Hreach).
    by destruct (Hsettled g Hreach).
Qed.

Lemma settled_loop l :
  settled fragmentMap l → ∃ fuel out, ∀ n, fuel ≤ n → loop n [] l = Ok out.
Proof.
  intros Hsettled.
  destruct (settled_returns (InlineFragment None l None)) as (fuel & node' & Hfuel);
    [done|].
  pose proof (Hfuel (S fuel) (Nat.le_succ_diag_r _)) as Hok.
  rewrite inline_wrapped in Hok.
  destruct (loop fuel [] l) as [out| |] eqn:Hloop; [|done..].
  exists fuel, out. intros n Hn. by eapply loop_mono.
Qed.

(** *** The first spread of an undefined name *)

Lemma meetsFirst_reaches l g :
  meetsFirst fragmentMap l g →
  reaches fragmentMap l g ∧ getProperty fragmentMap g = Undefined.
Proof.
  induction 1 as [before name loc after _ Hname
                 |before name loc after fragment g _ Hfragment _ [IHr IHg]
                 |before node ss after g _ Hnode _ [IHr IHg]].
  - split; [|done]. apply reaches_app. right.
    apply reaches_here. eapply spreadsOf_spread. left.
  - split; [|done]. apply reaches_app. right.
    eapply reaches_via; [eapply spreadsOf_spread; left | done..].
  - split; [|done]. apply reaches_app. right.
    apply (reaches_child fragmentMap node); [left|].
    unfold selectionsOf. by rewrite Hnode.
Qed.

Lemma meetsFirst_throws l g :
  meetsFirst fragmentMap l g →
  ∃ fuel, ∀ n, fuel ≤ n → loop n [] l = Throw (notFound g).
Proof.
  induction 1 as [before name loc after Hbefore Hname
                 |before name loc after fragment g Hbefore Hfragment _ [N2 IH]
                 |before node ss after g Hbefore Hnode _ [N2 IH]];
    destruct (settled_loop before Hbefore) as (N1 & out & Hout).
  - exists N1. intros n Hn. rewrite forEach_app, (Hout n Hn).
    cbn [mbind result_mbind result_bind Js.forEach].
    by rewrite inlineStep_spread, Hname.
  - exists (N1 `max` S N2). intros n Hn. rewrite forEach_app, Hout by lia.
    cbn [mbind result_mbind result_bind Js.forEach].
    apply lookup_getProperty in Hfragment. rewrite inlineStep_spread, Hfragment.
    destruct n as [|n]; [lia|].
    rewrite (inline_node n fragment (frag_selectionSet fragment)) by done.
    by rewrite IH by lia.
  - exists (N1 `max` S N2). intros n Hn. rewrite forEach_app, Hout by lia.
    cbn [mbind result_mbind result_bind Js.forEach].
    rewrite inlineStep_other by (intros ? ? ->; done).
    destruct n as [|n]; [lia|].
    rewrite (inline_node n node ss) by done.
    by rewrite IH by lia.
Qed.

Lemma throws_meetsFirst n l msg :
  loop n [] l = Throw msg → ∃ g, msg = notFound g ∧ meetsFirst fragmentMap l g.
Proof.
  revert l msg. induction n as [n IH] using lt_wf_ind. intros l msg Hloop.
  apply forEach_Throw_first in Hloop
    as (before & x & after & a' & -> & Hbefore & Hstep).
  apply loop_Ok_settled in Hbefore.
  assert (Hinner : ∀ {T} `{HasSelectionSet T} (node : T),
            inline n node = Throw msg →
            ∃ ss g, selectionSetOf node = Some ss ∧ msg = notFound g
                    ∧ meetsFirst fragmentMap ss g).
  { intros T H node Hthrow. rewrite inline_unfold in Hthrow.
    destruct (selectionSetOf node) as [ss|]; [|done].
    destruct n as [|n']; [done|].
    destruct (Js.forEach _ [] ss) as [?| |] eqn:Hss; simpl in Hthrow; simplify_eq.
    destruct (IH n' (Nat.lt_succ_diag_r _) _ _ Hss) as (g & -> & Hg). eauto. }
  destruct x as [a nm args sx loc|t sx loc|name loc].
  - rewrite inlineStep_other in Hstep by done.
    destruct (Walk.inline _ _ _ n _) as [?| |] eqn:Hx; simpl in Hstep; simplify_eq.
    destruct (Hinner _ _ _ Hx) as (ss & g & Hss & -> & Hg).
    exists g. split; [done|]. by eapply meetsFirst_in_selection.
  - rewrite inlineStep_other in Hstep by done.
    destruct (Walk.inline _ _ _ n _) as [?| |] eqn:Hx; simpl in Hstep; simplify_eq.
    destruct (Hinner _ _ _ Hx) as (ss & g & Hss & -> & Hg).
    exists g. split; [done|]. by eapply meetsFirst_in_selection.
  - rewrite inlineStep_spread in Hstep.
    destruct (getProperty fragmentMap (name_value name)) as [frag| |] eqn:Hfrag.
    + destruct (Walk.inline _ _ _ n frag) as [?| |] eqn:Hx; simpl in Hstep; simplify_eq.
      destruct (Hinner _ _ _ Hx) as (ss & g & Hss & -> & Hg).
      simpl in Hss. simplify_eq.
      exists g. split; [done|].
      eapply meetsFirst_in_fragment; [done | by apply lookup_getProperty | done].
    + done.
    + simplify_eq. exists (name_value name). split; [done|].
      by apply meetsFirst_here.
Qed.

(** *** Documents *)

#[local] Abbreviation inlineOperations :=
  (Walk.inlineOperations merge notFound fragmentMap).

Lemma settled_operations defs :
  Forall (λ d, settled fragmentMap (op_selectionSet d)) defs →
  ∃ fuel defs', ∀ n, fuel ≤ n →
    Js.mapArray (@Walk.inline merge notFound fragmentMap n _ _) defs = Ok defs'.
Proof.
  induction 1 as [|def defs Hdef _ (N2 & defs' & IH)].
  - by exists 0, [].
  - change (settled fragmentMap (selectionsOf def)) in Hdef.
    destruct (settled_returns def Hdef) as (N1 & def' & Hdef').
    exists (N1 `max` N2), (def' :: defs'). intros n Hn. simpl.
    by rewrite Hdef', IH by lia.
Qed.

Lemma failsFirst_throws ast g :
  failsFirst fragmentMap ast g →
  ∃ fuel, ∀ n, fuel ≤ n → inlineOperations n ast = Throw (notFound g).
Proof.
  intros (before & def & after & Hops & Hbefore & Hdef).
  destruct (settled_operations before Hbefore) as (N1 & defs' & Hdefs).
  destruct (meetsFirst_throws _ _ Hdef) as (N2 & Hthrow).
  exists (N1 `max` S N2). intros n Hn. unfold Walk.inlineOperations.
  rewrite Hops, mapArray_app, Hdefs by lia. simpl.
  destruct n as [|n]; [lia|].
  rewrite (inline_node n def (op_selectionSet def)) by done.
  by rewrite Hthrow by lia.
Qed.

Lemma throws_failsFirst fuel ast msg :
  inlineOperations fuel ast = Throw msg →
  ∃ g, msg = notFound g ∧ failsFirst fragmentMap ast g.
Proof.
  unfold Walk.inlineOperations.
  destruct (Js.mapArray _ _) as [defs| |] eqn:Hmap; simpl; try (by intros [=]).
  intros [= <-].
  apply mapArray_Throw_first in Hmap as (before & def & after & ys & Hops & Hbefore & Hdef).
  rewrite inline_unfold in Hdef. simpl in Hdef.
  destruct fuel as [|n]; [done|].
  destruct (Js.forEach _ [] (op_selectionSet def)) as [?| |] eqn:Hloop;
    simpl in Hdef; simplify_eq.
  apply throws_meetsFirst in Hloop as (g & -> & Hg).
  exists g. split; [done|]. exists before, def, after. split_and!; [done| |done].
  apply mapArray_Ok in Hbefore. apply Forall_forall. intros d Hd.
  apply list_elem_of_lookup in Hd as [i Hi].
  destruct (Forall2_lookup_l _ _ _ _ _ Hbefore Hi) as (d' & _ & Hok).
  by apply (inline_Ok_settled _ _ _ Hok).
Qed.

(** When no fragment reached from the operations lies on a cycle, the
    inliner ends. *)
Lemma inlineOperations_ends ast :
  (∀ g, reachedFrom fragmentMap ast g → ¬ onCycle fragmentMap g) →
  ∃ fuel r, r ≠ OutOfFuel ∧ ∀ n, fuel ≤ n → inlineOperations n ast = r.
Proof.
  intros Hast.
  destruct (mapArray_terminates
              (λ n, @Walk.inline merge notFound fragmentMap n _ _) (operations ast))
    as [N HN].
  - intros def Hdef.
    destruct (inline_ends def) as [fuel Hfuel].
    + intros g Hg. apply Hast. by exists def.
    + exists fuel. intros n Hn.
      by rewrite (inline_mono _ _ _ fuel n def _ eq_refl Hfuel Hn).
  - exists N, (inlineOperations N ast). split.
    + unfold Walk.inlineOperations. specialize (HN N (Nat.le_refl _)).
      by destruct (Js.mapArray _ _).
    + intros n Hn. eapply inlineOperations_mono; [done| |done].
      unfold Walk.inlineOperations. specialize (HN N (Nat.le_refl _)).
      by destruct (Js.mapArray _ _).
Qed.

Lemma undefined_failsFirst ast :
  (∀ g, reachedFrom fragmentMap ast g → ¬ onCycle fragmentMap g) →
  (∃ g, reachedFrom fragmentMap ast g ∧ getProperty fragmentMap g = Undefined) →
  ∃ g, failsFirst fragmentMap ast g.
Proof.
  intros Hast (g & Hg & Hundefined).
  destruct (inlineOperations_ends ast Hast) as (fuel & r & Hr & Hfuel).
  specialize (Hfuel fuel (Nat.le_refl _)).
  destruct r as [out|msg|]; [| |done].
  - by destruct (inlineOperations_not_Ok merge notFound fragmentMap ast fuel out g Hg
                   (or_introl Hundefined)).
  - apply throws_failsFirst in Hfuel as (g' & _ & Hg'). eauto.
Qed.

Lemma failsFirst_reachedFrom ast g :
  failsFirst fragmentMap ast g →
  reachedFrom fragmentMap ast g ∧ getProperty fragmentMap g = Undefined.
Proof.
  intros (before & def & after & Hops & _ & [Hr Hg]%meetsFirst_reaches).
  split; [|done]. exists def. split; [|done].
  rewrite Hops. apply elem_of_app. right. left.
Qed.

End Facts.
End ResolutionFacts.

(** ** Keys and canonical form of merged selections *)

Module CanonicalFacts.
Import Json Ast Walk Inliner TreeFacts JsFacts InlinerFacts KeyFacts WalkFacts
  DocumentFacts DocumentLemmas Canonical.

Section WithLocale.
Context {locale : Locale}.

Lemma get_None_keys {V} k (m : list (string * V)) :
  Js.get k m = None ↔ k ∉ map fst m.
Proof.
  induction m as [|[k0 v0] m IH]; simpl.
  - split; [intros _ ?%elem_of_nil; done | done].
  - destruct (String.eqb_spec k0 k) as [->|Hne].
    + split; [done|]. intros []. left.
    + rewrite IH. split.
      * intros Hk [?|?]%elem_of_cons; congruence.
      * intros Hk ?. apply Hk. by right.
Qed.

Lemma set_fresh {V} k (v : V) m :
  k ∉ map fst m → Js.set k v m = m ++ [(k, v)].
Proof.
  induction m as [|[k0 v0] m IH]; simpl; [done|].
  intros Hk. destruct (String.eqb_spec k0 k) as [->|Hne].
  - destruct Hk. left.
  - rewrite IH; [done|]. intros ?. apply Hk. by right.
Qed.

Lemma deduplicateStep_keys mergeSets m s :
  map fst (deduplicateStep mergeSets m s)
  = if decide (selectionKey s ∈ map fst m) then map fst m
    else map fst m ++ [selectionKey s].
Proof.
  unfold deduplicateStep.
  destruct s as [a n args ss l | t ss l | n l]; [| |apply set_keys].
  - destruct (Js.get _ m) as [e|] eqn:He; [|apply set_keys].
    destruct (selectionSetOf e), ss; try apply set_keys.
    rewrite decide_True; [done|].
    apply get_Some_elem in He. apply list_elem_of_fmap. by exists (selectionKey (Field a n args None l), e).
  - destruct (Js.get _ m) as [e|] eqn:He; apply set_keys.
Qed.

Lemma foldl_deduplicateStep_keys mergeSets m l :
  map fst (foldl (deduplicateStep mergeSets) m l)
  = foldl (λ acc k, if decide (k ∈ acc) then acc else acc ++ [k])
      (map fst m) (map selectionKey l).
Proof.
  revert m. induction l as [|s l IH]; intros m; simpl; [done|].
  by rewrite IH, deduplicateStep_keys.
Qed.

Lemma filed_keys m : filed m → map selectionKey (Js.values m) = map fst m.
Proof.
  intros [Hk _]. unfold Js.values. rewrite map_map.
  induction Hk as [|[k v] m Hkv Hk IH]; simpl in *; [done|]. by rewrite Hkv, IH.
Qed.

Lemma filed_nil : filed [].
Proof. split; constructor. Qed.

Lemma deduplicateSelections_keys_eq l :
  map selectionKey (deduplicateSelections l) = firstKeys (map selectionKey l).
Proof.
  rewrite deduplicateSelections_eq, filed_keys.
  - apply foldl_deduplicateStep_keys.
  - apply foldl_deduplicateStep_filed, filed_nil.
Qed.

Lemma deduplicateSelections_NoDup l :
  NoDup (map selectionKey (deduplicateSelections l)).
Proof.
  rewrite deduplicateSelections_eq, filed_keys.
  - apply foldl_deduplicateStep_filed, filed_nil.
  - apply foldl_deduplicateStep_filed, filed_nil.
Qed.

Lemma elem_of_firstKeys_acc (acc keys : list string) (k : string) :
  k ∈ foldl (λ acc k, if decide (k ∈ acc) then acc else acc ++ [k]) acc keys
  ↔ k ∈ acc ∨ k ∈ keys.
Proof.
  revert acc. induction keys as [|k0 keys IH]; intros acc; simpl.
  - split; [by left | intros [?|?%elem_of_nil]; done].
  - rewrite IH. destruct (decide (k0 ∈ acc)).
    + rewrite elem_of_cons. split; [intros [?|?]; auto|].
      intros [?|[->|?]]; auto.
    + rewrite elem_of_app, list_elem_of_singleton, elem_of_cons. tauto.
Qed.

Lemma foldl_deduplicateStep_fresh mergeSets m l :
  NoDup (map fst m ++ map selectionKey l) →
  foldl (deduplicateStep mergeSets) m l = m ++ map (λ s, (selectionKey s, s)) l.
Proof.
  revert m. induction l as [|s l IH]; intros m Hnd; simpl; [by rewrite app_nil_r|].
  simpl in Hnd.
  assert (Hs : selectionKey s ∉ map fst m).
  { apply NoDup_app in Hnd as (_ & Hdis & _). intros Hin. apply (Hdis _ Hin). left. }
  assert (Hstep : deduplicateStep mergeSets m s = m ++ [(selectionKey s, s)]).
  { pose proof (proj2 (get_None_keys _ _) Hs) as Hget.
    unfold deduplicateStep. destruct s; rewrite ?Hget; by apply set_fresh. }
  rewrite Hstep, IH.
  - by rewrite <- app_assoc.
  - rewrite map_app. simpl. by rewrite <- app_assoc.
Qed.

Lemma deduplicateSelections_distinct l :
  NoDup (map selectionKey l) → deduplicateSelections l = l.
Proof.
  intros Hnd. rewrite deduplicateSelections_eq, foldl_deduplicateStep_fresh; [|done].
  unfold Js.values. simpl. rewrite map_map. simpl. apply map_id.
Qed.

Lemma canonical_selectionsOf node : canonical node = canonicalList (selectionsOf node).
Proof. by destruct node as [? ? ? [?|] ?| |]. Qed.

Lemma canonical_withSelectionSet (node : SelectionNode) ss :
  canonicalList ss = true → canonical (withSelectionSet node ss) = true.
Proof. by destruct node. Qed.

Lemma canonicalList_app_Forall ss :
  canonicalList ss = true → Forall (λ s, canonical s = true) ss.
Proof. unfold canonicalList. intros [_ H]%andb_prop. by apply forallb_Forall. Qed.

Lemma deduplicateStep_canonical mergeSets m s :
  (∀ s1 s2, Forall (λ s, canonical s = true) (s1 ++ s2) →
            canonicalList (mergeSets s1 s2) = true) →
  Forall (λ kv, canonical kv.2 = true) m → canonical s = true →
  Forall (λ kv, canonical kv.2 = true) (deduplicateStep mergeSets m s).
Proof.
  intros Hmerge Hm Hs. unfold deduplicateStep.
  assert (Hget : ∀ k e, Js.get k m = Some e → canonical e = true).
  { intros k e He%get_Some_elem. rewrite Forall_forall in Hm. by apply (Hm (k, e)). }
  destruct s as [a n args ss l | t ss l | n l]; [| |by apply Forall_set].
  - destruct (Js.get _ m) as [e|] eqn:He; [|by apply Forall_set].
    apply Hget in He.
    destruct (selectionSetOf e) as [s1|] eqn:Hs1, ss as [s2|]; try done;
      apply Forall_set; try done; simpl; apply canonical_withSelectionSet.
    + apply Hmerge, Forall_app. split; apply canonicalList_app_Forall.
      * rewrite canonical_selectionsOf in He. unfold selectionsOf in He. by rewrite Hs1 in He.
      * done.
    + rewrite canonical_selectionsOf in He. unfold selectionsOf in He. by rewrite Hs1 in He.
    + done.
  - destruct (Js.get _ m) as [e|] eqn:He; [|by apply Forall_set].
    apply Hget in He. apply Forall_set; [done|]. simpl.
    apply canonical_withSelectionSet, Hmerge, Forall_app.
    split; apply canonicalList_app_Forall; [|done].
    by rewrite canonical_selectionsOf in He.
Qed.

Lemma deduplicateSelectionsAt_canonical level l :
  Forall (λ s, canonical s = true) l →
  canonicalList (deduplicateSelectionsAt level l) = true.
Proof.
  revert l. induction level as [|n IH]; intros l Hl; [done|].
  cbn [deduplicateSelectionsAt].
  set (step := deduplicateStep _).
  assert (Hfiled : filed (foldl step [] l)).
  { apply foldl_deduplicateStep_filed, filed_nil. }
  assert (Hcan : Forall (λ kv, canonical kv.2 = true) (foldl step [] l)).
  { apply (foldl_inv (λ m, Forall (λ kv, canonical kv.2 = true) m)
             (λ s, canonical s = true)); [constructor | done |].
    intros m s Hm Hs. apply deduplicateStep_canonical; [|done..].
    intros s1 s2 H12. by apply IH. }
  unfold canonicalList. apply andb_true_intro. split.
  - apply bool_decide_eq_true_2. rewrite filed_keys; [|done]. apply Hfiled.
  - apply forallb_Forall. unfold Js.values. by apply Forall_map.
Qed.

Lemma deduplicateSelections_canonical l :
  Forall (λ s, canonical s = true) l →
  canonicalList (deduplicateSelections l) = true.
Proof. apply deduplicateSelectionsAt_canonical. Qed.

Lemma mergedAgain_canonical node :
  canonical node = true → mergedAgain deduplicateSelections node = node.
Proof.
  induction node as [a n args l | a n args ss l IH | t ss l IH | n l]
    using SelectionNode_tree_ind; simpl; try done.
  - intros [Hnd Hall]%andb_prop. apply bool_decide_eq_true_1 in Hnd.
    apply forallb_Forall in Hall.
    assert (Hmap : map (mergedAgain deduplicateSelections) ss = ss).
    { clear Hnd. induction ss as [|x ss IHss]; [done|]. simpl.
      apply Forall_cons in IH as [Hx IH]. apply Forall_cons in Hall as [Hcx Hall].
      rewrite Hx, IHss; done. }
    rewrite Hmap. by rewrite deduplicateSelections_distinct.
  - intros [Hnd Hall]%andb_prop. apply bool_decide_eq_true_1 in Hnd.
    apply forallb_Forall in Hall.
    assert (Hmap : map (mergedAgain deduplicateSelections) ss = ss).
    { clear Hnd. induction ss as [|x ss IHss]; [done|]. simpl.
      apply Forall_cons in IH as [Hx IH]. apply Forall_cons in Hall as [Hcx Hall].
      rewrite Hx, IHss; done. }
    rewrite Hmap. by rewrite deduplicateSelections_distinct.
Qed.

Lemma map_mergedAgain_canonical ss :
  Forall (λ s, canonical s = true) ss →
  map (mergedAgain deduplicateSelections) ss = ss.
Proof.
  induction 1 as [|x ss Hx _ IH]; [done|]. simpl.
  by rewrite mergedAgain_canonical, IH.
Qed.

Section Inline.
Context (notFound : string → string).
Context (fragmentMap : FragmentMap).

#[local] Abbreviation inline := (Walk.inline deduplicateSelections notFound fragmentMap).

(** What a call returns has, at every level, selections free of spreads
    and with distinct keys. *)
Lemma inline_Ok_canonical fuel {T} `{HasSelectionSet T} (node node' : T) :
  inline fuel node = Ok node' →
  match selectionSetOf node with
  | None => node' = node
  | Some _ =>
      ∃ selections, node' = withSelectionSet node (deduplicateSelections selections)
                    ∧ Forall (λ s, canonical s = true) selections
                    ∧ Forall (λ s, spreadFree s = true) selections
  end.
Proof.
  revert T H node node'. induction fuel as [|n IH]; intros T H node node';
    rewrite inline_unfold; destruct (selectionSetOf node) as [ss|];
    try (by intros [=]).
  destruct (Js.forEach _ [] ss) as [sels| |] eqn:Hloop; simpl; try (by intros [=]).
  intros [= <-]. exists sels. split; [done|].
  apply Forall_and.
  eapply (forEach_inv (λ acc, Forall (λ s, canonical s = true ∧ spreadFree s = true) acc));
    [| |exact Hloop]; [constructor|].
  intros acc x acc' Hacc Hx Hstep.
  assert (Hout : ∀ sels0,
            Forall (λ s, canonical s = true) sels0 ∧
            Forall (λ s, spreadFree s = true) sels0 →
            Forall (λ s, canonical s = true ∧ spreadFree s = true)
              (deduplicateSelections sels0)).
  { intros sels0 [Hc Hf]. apply Forall_and. split.
    - by apply canonicalList_app_Forall, deduplicateSelections_canonical.
    - by apply deduplicateSelections_spreadFree. }
  destruct x as [a nm args sx l|t sx l|name loc].
  - rewrite inlineStep_other in Hstep; [|done].
    destruct (Walk.inline _ _ _ n _) as [x'| |] eqn:Hx'; simpl in Hstep; simplify_eq.
    apply Forall_app; split; [done|]. constructor; [|constructor].
    apply IH in Hx'. simpl in Hx'. destruct sx as [sx|]; [|by subst].
    destruct Hx' as (new & -> & Hnew). simpl.
    apply Hout, Forall_and in Hnew as [Hc Hf]. split.
    + apply andb_true_intro. split; [|by apply forallb_Forall].
      apply bool_decide_eq_true_2, deduplicateSelections_NoDup.
    + by apply forallb_Forall.
  - rewrite inlineStep_other in Hstep; [|done].
    destruct (Walk.inline _ _ _ n _) as [x'| |] eqn:Hx'; simpl in Hstep; simplify_eq.
    apply Forall_app; split; [done|]. constructor; [|constructor].
    apply IH in Hx'. simpl in Hx'.
    destruct Hx' as (new & -> & Hnew). simpl.
    apply Hout, Forall_and in Hnew as [Hc Hf]. split.
    + apply andb_true_intro. split; [|by apply forallb_Forall].
      apply bool_decide_eq_true_2, deduplicateSelections_NoDup.
    + by apply forallb_Forall.
  - rewrite inlineStep_spread in Hstep.
    destruct (getProperty fragmentMap (name_value name)) as [frag| |];
      [|by simplify_eq|done].
    destruct (Walk.inline _ _ _ n frag) as [x'| |] eqn:Hx'; simpl in Hstep; simplify_eq.
    apply Forall_app; split; [done|].
    apply IH in Hx'. simpl in Hx'. destruct Hx' as (new & -> & Hnew).
    by apply Hout.
Qed.

End Inline.

Lemma operations_map defs : operations (map OperationDefinition defs) = defs.
Proof. induction defs as [|d defs IH]; simpl; [done|]. by rewrite IH. Qed.

Lemma inlineFragmentsInDocument_Ok fuel ast out :
  inlineFragmentsInDocument fuel ast = Ok out →
  ∃ defs, out = map OperationDefinition defs
          ∧ length defs = length (operations ast)
          ∧ Forall (λ def, canonicalList (op_selectionSet def) = true
                           ∧ forallb spreadFree (op_selectionSet def) = true) defs.
Proof.
  unfold inlineFragmentsInDocument.
  intros (defs & -> & Hall)%inlineOperations_Ok. exists defs. split; [done|].
  split; [symmetry; by eapply Forall2_length|].
  apply Forall_forall. intros def' Hdef'.
  apply list_elem_of_lookup in Hdef' as [i Hi].
  destruct (Forall2_lookup_r _ _ _ _ _ Hall Hi) as (def & _ & Hok).
  apply inline_Ok_canonical in Hok. simpl in Hok.
  destruct Hok as (sels & -> & Hc & Hf). simpl. split.
  - by apply deduplicateSelections_canonical.
  - by apply forallb_Forall, deduplicateSelections_spreadFree.
Qed.

End WithLocale.
End CanonicalFacts.

(** ** The scanner *)

Module StringFacts.
Import Parser.

Lemma from_0 s : from 0 s = s.
Proof. by destruct s. Qed.

Lemma from_empty n : from n "" = "".
Proof. by destruct n. Qed.

Lemma from_length n s : String.length (from n s) = String.length s - n.
Proof.
  revert s. induction n as [|n IH]; intros [|c s]; simpl; auto with lia.
Qed.

Lemma from_from n m s : from m (from n s) = from (n + m) s.
Proof.
  revert s. induction n as [|n IH]; intros s; simpl; [done|].
  destruct s; [by rewrite from_empty | apply IH].
Qed.

Lemma get_from n j s : String.get j (from n s) = String.get (n + j) s.
Proof.
  revert s. induction n as [|n IH]; intros s; simpl; [done|].
  destruct s as [|c s]; [by destruct j | apply IH].
Qed.

Lemma get_Some_lt j s c : String.get j s = Some c → j < String.length s.
Proof.
  revert j. induction s as [|d s IH]; intros [|j]; simpl; try done; [lia|].
  intros ?%IH. lia.
Qed.

Lemma get_lt_Some j s : j < String.length s → ∃ c, String.get j s = Some c.
Proof.
  revert j. induction s as [|d s IH]; intros [|j]; simpl; try lia; [by eauto|].
  intros ?. apply IH. lia.
Qed.

Lemma substring_from a n s : String.substring a n s = String.substring 0 n (from a s).
Proof.
  revert s. induction a as [|a IH]; intros s; [by rewrite from_0|].
  destruct s as [|c s]; simpl; [by destruct n | apply IH].
Qed.

Lemma span_length_le p s : String.length (span p s) ≤ String.length s.
Proof. induction s as [|c s IH]; simpl; [done|]. destruct (p c); simpl; lia. Qed.

Lemma span_get p s j :
  j < String.length (span p s) → ∃ c, String.get j s = Some c ∧ p c = true.
Proof.
  revert j. induction s as [|c s IH]; simpl; [lia|].
  destruct (p c) eqn:Hc; simpl; [|lia].
  intros [|j] Hj; [by eauto|]. apply IH. lia.
Qed.

Lemma span_stop p s :
  String.length (span p s) < String.length s →
  ∃ c, String.get (String.length (span p s)) s = Some c ∧ p c = false.
Proof.
  induction s as [|c s IH]; simpl; [lia|].
  destruct (p c) eqn:Hc; simpl; [|by eauto].
  intros ?. apply IH. lia.
Qed.

Lemma span_all p s :
  (∀ j c, String.get j s = Some c → p c = true) → span p s = s.
Proof.
  induction s as [|c s IH]; simpl; [done|]. intros Hall.
  rewrite (Hall 0 c eq_refl). f_equal. apply IH.
  intros j d Hj. by apply (Hall (S j)).
Qed.

Lemma prefix_get w s j c :
  String.prefix w s = true → String.get j w = Some c → String.get j s = Some c.
Proof.
  revert s j. induction w as [|d w IH]; intros [|e s] j; simpl; try done.
  destruct (ascii_dec d e) as [->|]; [|done].
  destruct j as [|j]; [done | apply IH].
Qed.

Lemma skipWhile_ge p input index : index ≤ skipWhile p input index.
Proof. unfold skipWhile. lia. Qed.

Lemma skipWhile_le p input index :
  index ≤ String.length input → skipWhile p input index ≤ String.length input.
Proof.
  intros Hle. unfold skipWhile.
  pose proof (span_length_le p (from index input)) as Hspan.
  rewrite from_length in Hspan. lia.
Qed.

Lemma skipWhile_get p input index j :
  index ≤ j < skipWhile p input index →
  ∃ c, String.get j input = Some c ∧ p c = true.
Proof.
  unfold skipWhile. intros [Hlo Hhi].
  destruct (span_get p (from index input) (j - index)) as (c & Hc & Hp); [lia|].
  exists c. split; [|done]. rewrite get_from in Hc.
  by replace (index + (j - index)) with j in Hc by lia.
Qed.

Lemma skipWhile_stop p input index :
  skipWhile p input index < String.length input →
  ∃ c, String.get (skipWhile p input index) input = Some c ∧ p c = false.
Proof.
  unfold skipWhile. intros Hlt.
  destruct (span_stop p (from index input)) as (c & Hc & Hp).
  { rewrite from_length. lia. }
  exists c. split; [|done]. by rewrite get_from in Hc.
Qed.

End StringFacts.

Module ParserFacts.
Import Parser StringFacts.

Lemma substring_0_0 s : String.substring 0 0 s = "".
Proof. by destruct s. Qed.

Lemma braceDepth_substring_S c rest n :
  braceDepth (String.substring 0 (S n) (String c rest))
  = ((if Ascii.eqb c "{" then 1 else if Ascii.eqb c "}" then -1 else 0)
     + braceDepth (String.substring 0 n rest))%Z.
Proof. reflexivity. Qed.

Lemma matchBraces_counting rest index count e :
  (1 ≤ count)%Z →
  matchBraces rest index count = Some e →
  ∃ k, e = index + k
       ∧ String.get k rest = Some "}"%char
       ∧ (count + braceDepth (String.substring 0 (S k) rest) = 0)%Z
       ∧ ∀ j, j < k → (1 ≤ count + braceDepth (String.substring 0 (S j) rest))%Z.
Proof.
  revert index count.
  induction rest as [|c rest IH]; intros index count Hc; cbn [matchBraces]; [done|].
  assert (Hrec : ∀ count', (1 ≤ count')%Z →
            (count' = count + (if Ascii.eqb c "{" then 1
                               else if Ascii.eqb c "}" then -1 else 0))%Z →
            matchBraces rest (S index) count' = Some e →
            ∃ k, e = index + k
                 ∧ String.get k (String c rest) = Some "}"%char
                 ∧ (count + braceDepth (String.substring 0 (S k) (String c rest)) = 0)%Z
                 ∧ ∀ j, j < k →
                     (1 ≤ count + braceDepth (String.substring 0 (S j) (String c rest)))%Z).
  { intros count' Hc' Hcount (k & -> & Hget & Hzero & Hpos)%IH; [|done].
    exists (S k). split_and!; [lia | done | |].
    - rewrite braceDepth_substring_S. lia.
    - intros [|j] Hj; rewrite braceDepth_substring_S.
      + rewrite substring_0_0. simpl. lia.
      + specialize (Hpos j). lia. }
  destruct (Ascii.eqb c "{") eqn:Hopen.
  - apply Hrec; lia.
  - destruct (Ascii.eqb_spec c "}") as [->|Hclose].
    + destruct (Z.eqb_spec (count - 1) 0) as [Hz|Hnz].
      * intros [= <-]. exists 0. split_and!; [lia | done | |lia].
        rewrite braceDepth_substring_S, substring_0_0. simpl. lia.
      * apply Hrec; lia.
    + apply Hrec; [lia|]. apply Ascii.eqb_neq in Hclose. rewrite ?Hclose. lia.
Qed.

(** The brace counter, started on the first [{], stops on the [}] that
    closes it. *)
Lemma matchBraces_closesAt input b e :
  String.get b input = Some "{"%char →
  matchBraces (from b input) b 0 = Some e →
  b < e ∧ closesAt input b e ∧ e < String.length input.
Proof.
  intros Hb Hmatch.
  assert (∃ rest, from b input = String "{" rest) as [rest Hrest].
  { rewrite <- (Nat.add_0_r b), <- get_from in Hb.
    destruct (from b input) as [|c rest]; simpl in Hb; [done|].
    simplify_eq. by eexists. }
  rewrite Hrest in Hmatch. simpl in Hmatch.
  apply matchBraces_counting in Hmatch as (k & -> & Hget & Hzero & Hpos); [|lia].
  assert (Hidx : ∀ j, String.get (S j) (from b input) = String.get (b + S j) input).
  { intros j. apply get_from. }
  split_and!.
  - lia.
  - split_and!.
    + rewrite <- Hget. replace (S b + k) with (b + S k) by lia.
      rewrite <- Hidx, Hrest. done.
    + unfold substring. rewrite substring_from, Hrest.
      replace (S b + k + 1 - b) with (S (S k)) by lia.
      rewrite braceDepth_substring_S. simpl Ascii.eqb. lia.
    + intros j [Hlo Hhi]. unfold substring. rewrite substring_from, Hrest.
      replace (j + 1 - b) with (S (j - b)) by lia.
      rewrite braceDepth_substring_S. simpl Ascii.eqb.
      destruct (j - b) as [|i] eqn:Hi.
      * rewrite substring_0_0. simpl. lia.
      * specialize (Hpos i). lia.
  - apply (get_Some_lt _ _ "}"%char).
    rewrite <- Hget. replace (S b + k) with (b + S k) by lia.
    rewrite <- Hidx, Hrest. done.
Qed.

Lemma keyword_no_brace t j :
  String.get j (keyword t) ≠ Some "{"%char.
Proof.
  destruct t; simpl; do 9 (destruct j as [|j]; [done|]); done.
Qed.

Lemma isSpace_no_brace c : isSpace c = true → c ≠ "{"%char.
Proof. by intros H ->. Qed.

Lemma isNameChar_no_brace c : isNameChar c = true → c ≠ "{"%char.
Proof. by intros H ->. Qed.

Lemma isNot_no_brace c : isNot "{" c = true → c ≠ "{"%char.
Proof. by intros H ->. Qed.

(** What a turn that goes on has done: skipped a code unit, or
    collected one more definition. *)
Lemma parseTurn_Next input index definitions index' definitions' :
  index < String.length input →
  parseTurn input index definitions = Next index' definitions' →
  index < index'
  ∧ (definitions' = definitions
     ∨ ∃ def x, definitions' = definitions ++ [def]
                ∧ liesAt input def x ∧ index ≤ start x ∧ index' = close x + 1).
Proof.
  intros Hlt. unfold parseTurn.
  pose proof (skipWhile_ge isSpace input index) as Hi1.
  set (i1 := skipWhile isSpace input index) in *.
  destruct (String.length input <=? i1) eqn:Hend1; [done|].
  apply Nat.leb_gt in Hend1.
  destruct (startsWith input "query" i1 || startsWith input "fragment" i1) eqn:Hkw.
  2:{ intros [= <- <-]. split; [lia | by left]. }
  set (t := if startsWith input "query" i1 then query else fragment).
  assert (Ht : startsWith input (keyword t) i1 = true).
  { unfold t. destruct (startsWith input "query" i1) eqn:Hq; [done|].
    by simpl in Hkw. }
  set (i2 := i1 + String.length (keyword t)).
  pose proof (skipWhile_ge isSpace input i2) as Hi3.
  set (i3 := skipWhile isSpace input i2) in *.
  set (name := span isNameChar (from i3 input)).
  destruct (String.eqb name "") eqn:Hname; [done|].
  set (i4 := i3 + String.length name).
  assert (Hi4 : i4 = skipWhile isNameChar input i3) by done.
  pose proof (skipWhile_ge (isNot "{") input i4) as Hi5.
  set (i5 := skipWhile (isNot "{") input i4) in *.
  destruct (String.length input <=? i5) eqn:Hend5; [done|].
  apply Nat.leb_gt in Hend5.
  destruct (matchBraces (from i5 input) i5 0) as [e|] eqn:Hmatch; [|done].
  intros [= <- <-].
  destruct (skipWhile_stop (isNot "{") input i4 Hend5) as (c & Hc & Hp).
  fold i5 in Hc. unfold isNot in Hp. apply negb_false_iff, Ascii.eqb_eq in Hp. subst c.
  destruct (matchBraces_closesAt input i5 e Hc Hmatch) as (Hbe & Hclose & He).
  split; [lia|]. right.
  eexists _, {| start := i1; open := i5; close := e |}.
  split_and!; [done| |simpl; lia|done].
  split_and!; simpl; [done | done | | done | done].
  split; [done|]. intros j [Hlo Hhi].
  destruct (decide (j < i2)) as [Hj2|Hj2].
  { intros Hj. destruct (get_lt_Some (j - i1) (keyword t)) as [c Hc']; [unfold i2 in *; lia|].
    unfold startsWith in Ht. pose proof (prefix_get _ _ _ _ Ht Hc') as Hg.
    rewrite get_from in Hg. replace (i1 + (j - i1)) with j in Hg by lia.
    rewrite Hg in Hj. simplify_eq. by apply (keyword_no_brace t (j - i1)). }
  destruct (decide (j < i3)) as [Hj3|Hj3].
  { destruct (skipWhile_get isSpace input i2 j) as (c & -> & Hp'); [unfold i3 in *; lia|].
    intros [= ->]. done. }
  destruct (decide (j < i4)) as [Hj4|Hj4].
  { destruct (skipWhile_get isNameChar input i3 j) as (c & -> & Hp'); [lia|].
    intros [= ->]. done. }
  destruct (skipWhile_get (isNot "{") input i4 j) as (c & -> & Hp'); [unfold i5 in *; lia|].
  intros [= ->]. done.
Qed.

Lemma parseTurn_Break input index definitions definitions' :
  parseTurn input index definitions = Break definitions' → definitions' = definitions.
Proof.
  unfold parseTurn.
  repeat match goal with
         | |- context [if ?b then _ else _] => destruct b
         | |- context [match ?o with Some _ => _ | None => _ end] => destruct o
         end; by intros [=].
Qed.

End ParserFacts.

Module DefinitionSplitter.
Import Parser StringFacts ParserFacts Examples.

Lemma parseLoop_unfold fuel input index definitions :
  parseLoop (S fuel) input index definitions =
  if (String.length input <=? index)%nat then Ok definitions else
  match parseTurn input index definitions with
  | Next index' definitions' => parseLoop fuel input index' definitions'
  | Break definitions' => Ok definitions'
  | Raise message => Throw message
  end.
Proof. reflexivity. Qed.

(** The loop never needs more turns than there are code units left. *)
Lemma parseLoop_stable fuel fuel' input index definitions :
  String.length input - index < fuel →
  String.length input - index < fuel' →
  parseLoop fuel input index definitions = parseLoop fuel' input index definitions.
Proof.
  revert fuel' index definitions.
  induction fuel as [|n IH]; intros [|n'] index definitions H1 H2; try lia.
  rewrite !parseLoop_unfold.
  destruct (Nat.leb_spec (String.length input) index) as [|Hlt]; [done|].
  destruct (parseTurn input index definitions) as [i' d'| |] eqn:Hturn; [|done..].
  apply parseTurn_Next in Hturn as [Hadv _]; [|done]. apply IH; lia.
Qed.

Lemma parseLoop_returns fuel input index definitions :
  String.length input - index < fuel →
  parseLoop fuel input index definitions ≠ OutOfFuel.
Proof.
  revert index definitions.
  induction fuel as [|n IH]; intros index definitions H1; [lia|].
  rewrite parseLoop_unfold.
  destruct (Nat.leb_spec (String.length input) index) as [|Hlt]; [done|].
  destruct (parseTurn input index definitions) as [i' d'| |] eqn:Hturn; [|done..].
  apply parseTurn_Next in Hturn as [Hadv _]; [|done]. apply IH; lia.
Qed.

Lemma parseGraphQLDefinitions_returns input :
  parseGraphQLDefinitions input ≠ OutOfFuel.
Proof. apply parseLoop_returns. lia. Qed.

Lemma scans_parseLoop input index definitions :
  scans input index definitions →
  parseGraphQLDefinitions input
  = parseLoop (S (String.length input - index)) input index definitions.
Proof.
  induction 1 as [|index definitions index' definitions' _ IH Hlt Hturn].
  - unfold parseGraphQLDefinitions. by rewrite Nat.sub_0_r.
  - rewrite IH, parseLoop_unfold.
    destruct (Nat.leb_spec (String.length input) index) as [|_]; [lia|].
    rewrite Hturn. apply parseTurn_Next in Hturn as [Hadv _]; [|done].
    apply parseLoop_stable; lia.
Qed.

Lemma startsWith_keyword input t i :
  startsWith input (keyword t) i = true →
  (if startsWith input "query" i then query else fragment) = t
  ∧ startsWith input "query" i || startsWith input "fragment" i = true.
Proof.
  destruct t; simpl; intros Ht.
  - by rewrite Ht.
  - rewrite Ht, orb_true_r. split; [|done].
    destruct (startsWith input "query" i) eqn:Hq; [|done].
    unfold startsWith in *.
    pose proof (prefix_get "query" _ 0 "q"%char Hq eq_refl) as H1.
    pose proof (prefix_get "fragment" _ 0 "f"%char Ht eq_refl) as H2.
    congruence.
Qed.

(** C10. When the scanner, having collected [definitions], stands
    before a keyword that is followed by a name and by no [{] up to the
    end of the input, [parseGraphQLDefinitions] returns [definitions]:
    no error, no entry for the unfinished definition, nothing lost of
    what was collected before. *)
Theorem truncated_definition_is_dropped input index definitions t :
  let i1 := skipWhile isSpace input index in
  let i3 := skipWhile isSpace input (i1 + String.length (keyword t)) in
  scans input index definitions →
  i1 < String.length input →
  startsWith input (keyword t) i1 = true →
  span isNameChar (from i3 input) ≠ "" →
  (∀ j, i3 ≤ j → String.get j input ≠ Some "{"%char) →
  parseGraphQLDefinitions input = Ok definitions.
Proof.
  intros i1 i3 Hscans Hi1 Hkw Hname Hnone.
  rewrite (scans_parseLoop _ _ _ Hscans), parseLoop_unfold.
  pose proof (skipWhile_ge isSpace input index) as Hge. fold i1 in Hge.
  destruct (Nat.leb_spec (String.length input) index) as [|_]; [lia|].
  unfold parseTurn. fold i1.
  destruct (Nat.leb_spec (String.length input) i1) as [|_]; [lia|].
  destruct (startsWith_keyword _ _ _ Hkw) as [-> ->]. fold i3.
  destruct (String.eqb_spec (span isNameChar (from i3 input)) "") as [|_]; [done|].
  set (i4 := i3 + _).
  destruct (Nat.leb_spec (String.length input) (skipWhile (isNot "{") input i4))
    as [|Hlt]; [done|].
  destruct (skipWhile_stop _ _ _ Hlt) as (c & Hc & Hp).
  unfold isNot in Hp. apply negb_false_iff, Ascii.eqb_eq in Hp. subst c.
  destruct (Hnone _ (Nat.le_trans _ _ _ (Nat.le_add_r _ _)
                       (skipWhile_ge (isNot "{") input i4)) Hc).
Qed.

Lemma truncated_definition_is_dropped_witness :
  parseGraphQLDefinitions twoQueries
  = Ok [{| type := query; filename := "A.js"; content := "query A{f}" |}].
Proof.
  apply (truncated_definition_is_dropped twoQueries 10 _ query).
  - eapply (scans_next _ 0 []); [apply scans_start | vm_compute; lia | by vm_compute].
  - vm_compute. lia.
  - by vm_compute.
  - by vm_compute.
  - intros j Hj. change (10 + 1 + 5 + 1 ≤ j) in Hj.
    do 20 (destruct j as [|j]; [first [lia | by vm_compute]|]). done.
Defined.

Lemma collected_mono input index index' definitions :
  index ≤ index' → collected input index definitions →
  collected input index' definitions.
Proof.
  intros Hle (extents & H1 & H2 & H3). exists extents. split_and!; [done..|].
  eapply Forall_impl; [exact H3|]. intros x Hx. simpl in Hx. lia.
Qed.

Lemma parseLoop_collected fuel input index definitions out :
  collected input index definitions →
  parseLoop fuel input index definitions = Ok out →
  ∃ index', collected input index' out.
Proof.
  revert index definitions.
  induction fuel as [|n IH]; intros index definitions Hinv; [done|].
  rewrite parseLoop_unfold.
  destruct (Nat.leb_spec (String.length input) index) as [|Hlt].
  { intros [= <-]. eauto. }
  destruct (parseTurn input index definitions) as [i' d'|d'|] eqn:Hturn; [| |done].
  - apply parseTurn_Next in Hturn
      as [Hadv [->|(def & x & -> & Hlies & Hstart & ->)]]; [| |done].
    + apply IH. eapply collected_mono; [|done]. lia.
    + apply IH. destruct Hinv as (extents & H1 & H2 & H3).
      exists (extents ++ [x]). split_and!.
      * apply Forall2_app; [done|]. constructor; [done | constructor].
      * apply StronglySorted_app_2; [|done|by repeat constructor].
        intros x1 x2 Hx1 ->%list_elem_of_singleton.
        rewrite Forall_forall in H3. specialize (H3 _ Hx1). simpl in H3. lia.
      * apply Forall_app. split.
        -- eapply Forall_impl; [exact H3|]. intros y Hy. simpl in Hy. lia.
        -- repeat constructor. lia.
  - apply parseTurn_Break in Hturn as ->. intros [= <-]. eauto.
Qed.

(** C8. Every definition returned by [parseGraphQLDefinitions] has for
    content the exact substring of the input from the offset of its
    keyword through the [}] at which the depth, counted from the first
    [{] after the keyword, is back to zero for the first time, and the
    definitions are returned in source order. Scenario 2 yields the
    query [A] (filename [A.js]) with content [query A{f}] and the
    fragment [B_x] (filename [B.js]) with content
    [fragment B_x on T{g}]. *)
Theorem content_exactness :
  (∀ input definitions,
     parseGraphQLDefinitions input = Ok definitions →
     ∃ extents, Forall2 (liesAt input) definitions extents ∧ inSourceOrder extents)
  ∧ parseGraphQLDefinitions scenario2
    = Ok [{| type := query; filename := "A.js"; content := "query A{f}" |};
          {| type := fragment; filename := "B.js";
             content := "fragment B_x on T{g}" |}].
Proof.
  split; [|by vm_compute].
  intros input definitions Hparse.
  destruct (parseLoop_collected (S (String.length input)) input 0 [] definitions)
    as (index' & extents & H1 & H2 & _); [|exact Hparse|by exists extents].
  exists []. split_and!; constructor.
Qed.

Lemma content_exactness_witness :
  ∃ extents,
    Forall2 (liesAt scenario2)
      [{| type := query; filename := "A.js"; content := "query A{f}" |};
       {| type := fragment; filename := "B.js"; content := "fragment B_x on T{g}" |}]
      extents
    ∧ inSourceOrder extents.
Proof.
  apply (proj1 content_exactness scenario2).
  by vm_compute.
Defined.

End DefinitionSplitter.

(** ** Collations and grouping *)

Module LocaleFacts.
Import Locales.

Lemma N_of_ascii_inj c d : N_of_ascii c = N_of_ascii d → c = d.
Proof. intros Heq. by rewrite <- (ascii_N_embedding c), Heq, ascii_N_embedding. Qed.

Lemma ordinalCompare_range a b :
  (ordinalCompare a b = -1 ∨ ordinalCompare a b = 0 ∨ ordinalCompare a b = 1)%Z.
Proof.
  revert b. induction a as [|c a IH]; intros [|d b]; simpl; auto.
  destruct (N.ltb_spec (N_of_ascii c) (N_of_ascii d)); [auto|].
  destruct (N.ltb_spec (N_of_ascii d) (N_of_ascii c)); auto.
Qed.

Lemma ordinalCompare_refl a : ordinalCompare a a = 0%Z.
Proof. induction a as [|c a IH]; simpl; [done|]. by rewrite N.ltb_irrefl. Qed.

Lemma ordinalCompare_antisym a b :
  (ordinalCompare a b < 0 ↔ 0 < ordinalCompare b a)%Z.
Proof.
  revert b. induction a as [|c a IH]; intros [|d b]; simpl; try lia.
  destruct (N.ltb_spec (N_of_ascii c) (N_of_ascii d)),
           (N.ltb_spec (N_of_ascii d) (N_of_ascii c)); try lia. apply IH.
Qed.

Lemma ordinalCompare_eq a b : ordinalCompare a b = 0%Z → a = b.
Proof.
  revert b. induction a as [|c a IH]; intros [|d b]; simpl; try done.
  destruct (N.ltb_spec (N_of_ascii c) (N_of_ascii d)); [done|].
  destruct (N.ltb_spec (N_of_ascii d) (N_of_ascii c)); [done|].
  intros ->%IH. f_equal. apply N_of_ascii_inj. lia.
Qed.

Lemma ordinalCompare_trans a b c :
  (ordinalCompare a b ≤ 0 → ordinalCompare b c ≤ 0 → ordinalCompare a c ≤ 0)%Z.
Proof.
  revert b c. induction a as [|x a IH]; intros [|y b] [|z c]; simpl; try lia.
  destruct (N.ltb_spec (N_of_ascii x) (N_of_ascii y)),
           (N.ltb_spec (N_of_ascii y) (N_of_ascii x)),
           (N.ltb_spec (N_of_ascii y) (N_of_ascii z)),
           (N.ltb_spec (N_of_ascii z) (N_of_ascii y)),
           (N.ltb_spec (N_of_ascii x) (N_of_ascii z)),
           (N.ltb_spec (N_of_ascii z) (N_of_ascii x)); try lia.
  apply IH.
Qed.

Lemma ordinal_consistent : ConsistentLocale ordinal.
Proof.
  split; [apply ordinalCompare_refl | apply ordinalCompare_antisym
         | apply ordinalCompare_trans | apply ordinalCompare_eq].
Qed.

Lemma swapCase_involutive c : swapCase (swapCase c) = c.
Proof.
  destruct c as [[] [] [] [] [] [] [] []]; reflexivity.
Qed.

Lemma swapCases_inj a b : swapCases a = swapCases b → a = b.
Proof.
  revert b. induction a as [|c a IH]; intros [|d b]; simpl; try done.
  intros [= Hc ->%IH]. f_equal.
  by rewrite <- (swapCase_involutive c), Hc, swapCase_involutive.
Qed.

Lemma lowerFirst_consistent : ConsistentLocale lowerFirst.
Proof.
  split; simpl.
  - intros a. apply ordinalCompare_refl.
  - intros a b. apply ordinalCompare_antisym.
  - intros a b c. apply ordinalCompare_trans.
  - intros a b ?%ordinalCompare_eq. by apply swapCases_inj.
Qed.

End LocaleFacts.

Module MergeFacts.
Import Parser Merge JsFacts SortFacts KeyFacts.

Lemma sort_map_key {A} (comparefn : A → A → Z) (g : A → A) l :
  (∀ x y, comparefn (g x) (g y) = comparefn x y) →
  Js.sort comparefn (map g l) = map g (Js.sort comparefn l).
Proof.
  intros Hg.
  assert (Hins : ∀ x k, Js.insertSorted comparefn (g x) (map g k)
                        = map g (Js.insertSorted comparefn x k)).
  { intros x k. induction k as [|y k IH]; simpl; [done|].
    rewrite Hg. destruct (comparefn x y <=? 0)%Z; simpl; [done | by rewrite IH]. }
  induction l as [|x l IH]; simpl; [done|]. by rewrite IH, Hins.
Qed.

(** *** [Object.entries] *)

Lemma filter_partition_perm {A} (p : A → bool) l :
  List.filter p l ++ List.filter (λ x, negb (p x)) l ≡ₚ l.
Proof.
  induction l as [|x l IH]; simpl; [done|].
  destruct (p x); simpl; [by rewrite IH|].
  by rewrite <- Permutation_middle, IH.
Qed.

Lemma entries_perm {V} (properties : list (string * V)) :
  Js.entries properties ≡ₚ properties.
Proof.
  unfold Js.entries. rewrite sort_perm. apply filter_partition_perm.
Qed.

(** Keys that are no array indices are gone through as they were
    created. *)
Lemma entries_names {V} (properties : list (string * V)) :
  Forall (λ entry, Js.arrayIndex entry.1 = None) properties →
  Js.entries properties = properties.
Proof.
  intros Hall. unfold Js.entries.
  assert (Hfilter : List.filter Js.isArrayIndex properties = []
                    ∧ List.filter (λ entry, negb (Js.isArrayIndex entry)) properties
                      = properties).
  { induction Hall as [|[k v] l Hk _ [IH1 IH2]]; [done|].
    assert (Hkv : Js.isArrayIndex (k, v) = false).
    { unfold Js.isArrayIndex. simpl in *. by rewrite Hk. }
    cbn [List.filter]. rewrite Hkv. cbn [negb]. by rewrite IH1, IH2. }
  destruct Hfilter as [-> ->]. done.
Qed.

(** *** The groups as they are built *)

Lemma get_pushed acc def f :
  Js.get f (pushed acc def)
  = if decide (filename def = f)
    then Some (default [] (Js.get f acc) ++ [def])
    else Js.get f acc.
Proof.
  unfold pushed. destruct (decide (filename def = f)) as [<-|Hne].
  - apply get_set_eq.
  - by apply get_set_ne.
Qed.

Lemma get_foldl_pushed acc definitions f :
  Js.get f (foldl pushed acc definitions)
  = match Js.get f acc, group f definitions with
    | None, [] => None
    | o, l => Some (default [] o ++ l)
    end.
Proof.
  revert acc. induction definitions as [|def definitions IH]; intros acc; simpl.
  - unfold group. simpl. destruct (Js.get f acc); simpl; by rewrite ?app_nil_r.
  - rewrite IH, get_pushed. unfold group. rewrite filter_cons.
    destruct (decide (filename def = f)) as [Heq|Hne]; [|done].
    destruct (Js.get f acc) as [l|]; simpl; by rewrite <- ?app_assoc.
Qed.

Lemma get_grouped definitions f :
  Js.get f (grouped definitions)
  = match group f definitions with [] => None | l => Some l end.
Proof. unfold grouped. rewrite get_foldl_pushed. simpl. by destruct (group _ _). Qed.

Lemma keys_pushed acc def :
  NoDup (map fst acc) → NoDup (map fst (pushed acc def)).
Proof.
  intros Hnd. unfold pushed. rewrite set_keys. destruct (decide _); [done|].
  apply NoDup_app. split_and!; [done| |apply NoDup_singleton].
  intros x Hx ->%list_elem_of_singleton. done.
Qed.

Lemma keys_grouped definitions : NoDup (map fst (grouped definitions)).
Proof.
  unfold grouped.
  apply (foldl_inv (λ acc, NoDup (map fst acc)) (λ _, True)).
  - constructor.
  - by apply Forall_true.
  - intros acc def Hacc _. by apply keys_pushed.
Qed.

Lemma elem_of_get {V} (m : list (string * V)) k v :
  NoDup (map fst m) → (k, v) ∈ m ↔ Js.get k m = Some v.
Proof.
  intros Hnd. split; [|apply get_Some_elem].
  induction m as [|[k0 v0] m IH]; simpl; [by intros ?%elem_of_nil|].
  apply NoDup_cons in Hnd as [Hk0 Hnd]. simpl in Hk0.
  intros [[= <- <-]|Hin]%elem_of_cons; [by rewrite String.eqb_refl|].
  destruct (String.eqb_spec k0 k) as [->|]; [|by apply IH].
  destruct Hk0. apply list_elem_of_fmap. by exists (k, v).
Qed.

Lemma elem_of_grouped definitions f l :
  (f, l) ∈ grouped definitions ↔ l = group f definitions ∧ l ≠ [].
Proof.
  rewrite elem_of_get, get_grouped; [|apply keys_grouped].
  destruct (group f definitions) eqn:Hn; split; try done.
  - by intros [-> ?].
  - by intros [= <-].
  - by intros [-> _].
Qed.

Lemma keys_entries_grouped definitions :
  NoDup (map fst (Js.entries (grouped definitions))).
Proof. rewrite entries_perm. apply keys_grouped. Qed.

Lemma named_permutation f l1 l2 : l1 ≡ₚ l2 → group f l1 ≡ₚ group f l2.
Proof. intros Hp. unfold group. by rewrite Hp. Qed.

(** *** The calls that throw *)

Section WithEngine.
Context {locale : Locale} {engine : Engine}.

Lemma addToGroup_eq acc def :
  Forall (λ entry, Js.inObjectPrototype entry.1 = false) acc →
  addToGroup acc def
  = if Js.inObjectPrototype (filename def) then Throw notAFunction
    else Ok (pushed acc def).
Proof.
  intros Hacc. unfold addToGroup, pushed.
  destruct (Js.get (filename def) acc) as [defs|] eqn:Hget; simpl.
  - apply get_Some_elem in Hget. rewrite Forall_forall in Hacc.
    pose proof (Hacc _ Hget) as Hown. simpl in Hown. by rewrite Hown.
  - by destruct (Js.inObjectPrototype (filename def)).
Qed.

Lemma forEach_addToGroup acc definitions :
  Forall (λ entry, Js.inObjectPrototype entry.1 = false) acc →
  Js.forEach addToGroup acc definitions
  = if pushable definitions then Ok (foldl pushed acc definitions)
    else Throw notAFunction.
Proof.
  revert acc. induction definitions as [|def definitions IH]; intros acc Hacc;
    simpl; [done|].
  rewrite addToGroup_eq by done.
  destruct (Js.inObjectPrototype (filename def)) eqn:Hdef; simpl; [done|].
  apply IH. unfold pushed. by apply Forall_set.
Qed.

Lemma groupByFilename_eq definitions :
  groupByFilename definitions
  = if pushable definitions then Ok (grouped definitions) else Throw notAFunction.
Proof. apply forEach_addToGroup. constructor. Qed.

Lemma sortedGroups_eq definitions :
  sortedGroups definitions
  = if pushable definitions then Ok (arranged definitions) else Throw notAFunction.
Proof.
  unfold sortedGroups. rewrite groupByFilename_eq.
  by destruct (pushable definitions).
Qed.

Lemma mergeDefinitions_eq definitions :
  mergeDefinitions definitions
  = if pushable definitions then Ok (map render (arranged definitions))
    else Throw notAFunction.
Proof.
  unfold mergeDefinitions. rewrite sortedGroups_eq.
  by destruct (pushable definitions).
Qed.

Lemma pushable_Forall definitions :
  pushable definitions = true
  ↔ Forall (λ def, Js.inObjectPrototype (filename def) = false) definitions.
Proof.
  unfold pushable. rewrite TreeFacts.forallb_Forall. apply Forall_iff.
  intros def. by destruct (Js.inObjectPrototype _).
Qed.

Lemma pushable_permutation l1 l2 : l1 ≡ₚ l2 → pushable l1 = pushable l2.
Proof.
  intros Hp. apply eq_true_iff_eq. rewrite !pushable_Forall. by rewrite Hp.
Qed.

(** *** The order of the groups *)

Lemma arranged_eq definitions :
  arranged definitions
  = Js.sort compareEntries (map ordered (Js.entries (grouped definitions))).
Proof. unfold arranged. by rewrite (sort_map_key compareEntries ordered). Qed.

Lemma arranged_perm definitions :
  arranged definitions ≡ₚ map ordered (grouped definitions).
Proof. rewrite arranged_eq, sort_perm. by rewrite entries_perm. Qed.

Lemma elem_of_ordered_groups definitions e :
  e ∈ map ordered (Js.entries (grouped definitions)) ↔
  e.2 = Js.sort compareDefinitions (group e.1 definitions)
  ∧ group e.1 definitions ≠ [].
Proof.
  rewrite entries_perm, list_elem_of_fmap. split.
  - intros ([f l] & -> & [-> Hne]%elem_of_grouped). done.
  - intros [He Hne]. exists (e.1, group e.1 definitions). split.
    + destruct e as [f l]. simpl in *. by subst.
    + by apply elem_of_grouped.
Qed.

Lemma keys_ordered_groups definitions :
  NoDup (map fst (map ordered (Js.entries (grouped definitions)))).
Proof. rewrite map_map. apply keys_entries_grouped. Qed.

Lemma keys_arranged definitions : NoDup (map fst (arranged definitions)).
Proof. rewrite arranged_eq, sort_perm. apply keys_ordered_groups. Qed.

Lemma precedes_compareDefinitions a b :
  precedes a b ↔ (compareDefinitions a b ≤ 0)%Z.
Proof. unfold precedes, compareDefinitions. destruct (type a), (type b); lia. Qed.

Section WithCollation.
Context {collation : Collation locale}.

#[local] Instance compareDefinitions_consistent : Js.Consistent compareDefinitions.
Proof.
  split.
  - intros a b. unfold compareDefinitions.
    destruct (type a), (type b); try lia; apply collation_antisym.
  - intros a b c. unfold compareDefinitions.
    destruct (type a), (type b), (type c); try lia; apply collation_trans.
Qed.

#[local] Instance compareEntries_consistent : Js.Consistent compareEntries.
Proof. apply (Consistent_on fst), localeCompare_consistent. Qed.

Lemma arranged_filenames definitions :
  StronglySorted (λ a b, (localeCompare a b ≤ 0)%Z) (map fst (arranged definitions)).
Proof.
  rewrite arranged_eq.
  pose proof (sort_sorted compareEntries
                (map ordered (Js.entries (grouped definitions)))) as Hsorted.
  induction Hsorted as [|x l Hl IH Hx]; [constructor|].
  rewrite map_cons. constructor; [done|]. by rewrite Forall_map.
Qed.

Lemma arranged_groups definitions :
  Forall (λ entry, entry.2 ≠ []
                   ∧ Forall (λ def, filename def = entry.1) entry.2
                   ∧ StronglySorted precedes entry.2)
    (arranged definitions).
Proof.
  rewrite arranged_eq, Forall_forall. intros e He.
  rewrite sort_perm in He. apply elem_of_ordered_groups in He as [-> Hne].
  split_and!.
  - intros Hnil. apply Hne, Permutation_nil. rewrite <- Hnil. apply sort_perm.
  - rewrite sort_perm. unfold group. apply Forall_forall.
    by intros def [? _]%list_elem_of_filter.
  - pose proof (sort_sorted compareDefinitions (group e.1 definitions)) as Hs.
    induction Hs as [|x l Hl IH Hx]; constructor; [done|].
    eapply Forall_impl; [exact Hx|]. intros y. apply precedes_compareDefinitions.
Qed.

End WithCollation.

Section WithConsistentLocale.
Context {consistent : ConsistentLocale locale}.

Lemma compareDefinitions_apart a b :
  filename a = filename b → compareDefinitions a b = 0%Z → a = b.
Proof.
  destruct a as [ta fa ca], b as [tb fb cb]. unfold compareDefinitions. simpl.
  intros ->. destruct ta, tb; try done; by intros ->%localeCompare_eq.
Qed.

Lemma named_apart f definitions x y :
  x ∈ group f definitions → y ∈ group f definitions →
  compareDefinitions x y = 0%Z → x = y.
Proof.
  unfold group. intros [Hx _]%list_elem_of_filter [Hy _]%list_elem_of_filter.
  apply compareDefinitions_apart. congruence.
Qed.

Lemma arranged_permutation l1 l2 :
  l1 ≡ₚ l2 → arranged l1 = arranged l2.
Proof.
  intros Hp. rewrite !arranged_eq. apply sort_permutation.
  - apply compareEntries_consistent.
  - intros x y Hx Hy Hxy. apply localeCompare_eq in Hxy.
    eapply NoDup_fst_inj; [apply keys_ordered_groups|done..].
  - apply NoDup_Permutation.
    + eapply NoDup_fmap_1, keys_ordered_groups.
    + eapply NoDup_fmap_1, keys_ordered_groups.
    + intros e. rewrite !elem_of_ordered_groups.
      assert (Hsort : Js.sort compareDefinitions (group e.1 l1)
                      = Js.sort compareDefinitions (group e.1 l2)).
      { apply sort_permutation; [apply compareDefinitions_consistent| |].
        - apply named_apart.
        - by apply named_permutation. }
      rewrite Hsort.
      assert (Hnil : group e.1 l1 = [] ↔ group e.1 l2 = []).
      { split; intros Hn.
        - apply Permutation_nil. by rewrite <- (named_permutation e.1 l1 l2 Hp), Hn.
        - apply Permutation_nil. by rewrite (named_permutation e.1 l1 l2 Hp), Hn. }
      by rewrite Hnil.
Qed.

Lemma mergeDefinitions_permutation l1 l2 :
  l1 ≡ₚ l2 → mergeDefinitions l1 = mergeDefinitions l2.
Proof.
  intros Hp. rewrite !mergeDefinitions_eq, (pushable_permutation l1 l2 Hp).
  by rewrite (arranged_permutation l1 l2 Hp).
Qed.

Lemma arranged_filenames_strict definitions :
  StronglySorted (λ a b, (localeCompare a b < 0)%Z) (map fst (arranged definitions)).
Proof.
  pose proof (arranged_filenames definitions) as Hsorted.
  pose proof (keys_arranged definitions) as Hnd.
  induction Hsorted as [|x l Hl IH Hx]; [constructor|].
  apply NoDup_cons in Hnd as [Hx' Hnd]. constructor; [by apply IH|].
  rewrite Forall_forall in Hx |- *. intros y Hy.
  specialize (Hx y Hy).
  destruct (Z.eq_dec (localeCompare x y) 0%Z) as [Heq|]; [|lia].
  apply localeCompare_eq in Heq. by subst.
Qed.

End WithConsistentLocale.
End WithEngine.
Lemma pushable_Exists definitions :
  Exists (λ def, Js.inObjectPrototype (filename def) = true) definitions →
  pushable definitions = false.
Proof.
  intros Hex. destruct (pushable definitions) eqn:Hp; [|done].
  apply pushable_Forall in Hp. apply Exists_exists in Hex as (def & Hdef & Hin).
  rewrite Forall_forall in Hp. specialize (Hp def Hdef). congruence.
Qed.

Lemma names_arranged {locale : Locale} definitions f :
  f ∈ map fst (arranged definitions) ↔ f ∈ map filename definitions.
Proof.
  rewrite arranged_perm, map_map. simpl. rewrite !list_elem_of_fmap. split.
  - intros ([f' l] & -> & [-> Hne]%elem_of_grouped). simpl.
    destruct (group f' definitions) as [|def rest] eqn:Hg; [done|].
    assert (Hin : def ∈ group f' definitions) by (rewrite Hg; left).
    apply list_elem_of_filter in Hin as [Hf Hin]. by exists def.
  - intros (def & -> & Hin). exists (filename def, group (filename def) definitions).
    split; [done|]. apply elem_of_grouped. split; [done|].
    intros Hnil. assert (Hd : def ∈ group (filename def) definitions)
      by by apply list_elem_of_filter.
    rewrite Hnil in Hd. by apply elem_of_nil in Hd.
Qed.

End MergeFacts.

(** ** The Selection Merger *)

Module SelectionMerger.
Import Json Ast TreeFacts JsFacts InlinerFacts SortFacts KeyFacts Examples.

Section MergeCorrectness.
Context {locale : Locale}.
Import Inliner.

Lemma deduplicateSelections_entry k l :
  filter (λ s, selectionKey s = k) (deduplicateSelections l)
  = match Js.get k (foldl (deduplicateStep mergeSelectionSets) [] l) with
    | Some v => [v]
    | None => []
    end.
Proof.
  rewrite deduplicateSelections_eq. apply filter_key_values.
  apply foldl_deduplicateStep_filed. split; constructor.
Qed.

Lemma deduplicateStep_new mergeSets m s :
  Js.get (selectionKey s) m = None →
  deduplicateStep mergeSets m s = Js.set (selectionKey s) s m.
Proof. intros Hm. unfold deduplicateStep. destruct s; by rewrite ?Hm. Qed.

Lemma deduplicateStep_adopt mergeSets m alias name arguments ss loc e s :
  Js.get (createFieldKey alias name arguments) m = Some e →
  (selectionSetOf e = Some s ∧ ss = None) ∨ (selectionSetOf e = None ∧ ss = Some s) →
  deduplicateStep mergeSets m (Field alias name arguments ss loc)
  = Js.set (createFieldKey alias name arguments) (withSelectionSet e s) m.
Proof.
  intros Hm Hcase. unfold deduplicateStep. cbn [selectionKey]. rewrite Hm.
  by destruct Hcase as [[-> ->] | [-> ->]].
Qed.

(** X1. Merge correctness of [deduplicateSelections]: when exactly two
    siblings have the key [k], both fields, one a leaf and one with a
    selection set, the result has one entry with that key: the first of
    the two, with its alias and arguments, carrying the selection set. *)
Theorem deduplicateSelections_leaf_and_set
    l1 l2 l3 alias name arguments loc alias' name' arguments' loc' selectionSet :
  let k := createFieldKey alias name arguments in
  createFieldKey alias' name' arguments' = k →
  Forall (λ s, selectionKey s ≠ k) (l1 ++ l2 ++ l3) →
  filter (λ s, selectionKey s = k)
    (deduplicateSelections
       (l1 ++ Field alias name arguments None loc
           :: l2 ++ Field alias' name' arguments' (Some selectionSet) loc' :: l3))
  = [Field alias name arguments (Some selectionSet) loc]
  ∧
  filter (λ s, selectionKey s = k)
    (deduplicateSelections
       (l1 ++ Field alias name arguments (Some selectionSet) loc
           :: l2 ++ Field alias' name' arguments' None loc' :: l3))
  = [Field alias name arguments (Some selectionSet) loc].
Proof.
  intros k Hk Hothers.
  apply Forall_app in Hothers as [H1 [H2 H3]%Forall_app].
  assert (Hfirst : ∀ ss, Js.get k
            (foldl (deduplicateStep mergeSelectionSets) []
               (l1 ++ Field alias name arguments ss loc :: l2))
            = Some (Field alias name arguments ss loc)).
  { intros ss. rewrite foldl_app. cbn [foldl].
    rewrite foldl_deduplicateStep_other; [|done].
    rewrite deduplicateStep_new.
    - apply get_set_eq.
    - cbn [selectionKey]. fold k. by rewrite foldl_deduplicateStep_other. }
  assert (Hsplit : ∀ x y : SelectionNode,
            l1 ++ x :: l2 ++ y :: l3 = (l1 ++ x :: l2) ++ y :: l3).
  { intros x y. by rewrite <- app_assoc. }
  split; rewrite deduplicateSelections_entry, Hsplit, foldl_app; cbn [foldl];
    (rewrite foldl_deduplicateStep_other; [|done]);
    (erewrite deduplicateStep_adopt;
       [|rewrite Hk; apply Hfirst | cbn [selectionSetOf SelectionNode_selectionSet]; eauto]);
    by rewrite Hk, get_set_eq.
Qed.

End MergeCorrectness.
Section ArgumentOrder.
Context {locale : Locale} {consistent : ConsistentLocale locale}.
Import Inliner.

Lemma normalizedArgs_names args :
  map fst (normalizedArgs args) = map (λ a, name_value (arg_name a)) args.
Proof. unfold normalizedArgs. rewrite map_map. done. Qed.

Lemma createArgumentKey_permutation args1 args2 :
  NoDup (map (λ a, name_value (arg_name a)) args1) →
  args1 ≡ₚ args2 →
  createArgumentKey args1 = createArgumentKey args2.
Proof.
  intros Hnd Hperm.
  assert (Hsort : Js.sort (λ a b, localeCompare a.1 b.1) (normalizedArgs args1)
                  = Js.sort (λ a b, localeCompare a.1 b.1) (normalizedArgs args2)).
  { apply sort_permutation.
    - apply (Consistent_on fst), localeCompare_consistent.
    - intros x y Hx Hy Hxy. apply localeCompare_eq in Hxy.
      eapply NoDup_fst_inj; [|done..]. by rewrite normalizedArgs_names.
    - unfold normalizedArgs. by apply Permutation_map. }
  unfold createArgumentKey. rewrite Hsort.
  destruct args1 as [|a1 args1], args2 as [|a2 args2]; try done.
  - by apply Permutation_nil_cons in Hperm.
  - symmetry in Hperm. by apply Permutation_nil_cons in Hperm.
Qed.

(** X2. Argument-order invariance of [createArgumentKey]: under a consistent
    collation, argument lists with distinct names that are equal up to
    order have the same key, and two fields that differ only in that
    order are merged into one. *)
Theorem argument_order_invariance
    args1 args2 alias name selectionSet1 selectionSet2 loc1 loc2 :
  NoDup (map (λ a, name_value (arg_name a)) args1) →
  args1 ≡ₚ args2 →
  createArgumentKey args1 = createArgumentKey args2
  ∧ selectionKey (Field alias name args1 selectionSet1 loc1)
    = selectionKey (Field alias name args2 selectionSet2 loc2)
  ∧ ∃ field,
      deduplicateSelections [Field alias name args1 selectionSet1 loc1;
                             Field alias name args2 selectionSet2 loc2]
      = [field].
Proof.
  intros Hnd Hperm.
  pose proof (createArgumentKey_permutation _ _ Hnd Hperm) as Hkey.
  split; [done|]. split; [cbn [selectionKey]; unfold createFieldKey; by rewrite Hkey|].
  rewrite deduplicateSelections_eq. cbn [foldl].
  rewrite (deduplicateStep_new _ []); [|done].
  unfold deduplicateStep. cbn [selectionKey Js.set]. unfold createFieldKey.
  rewrite <- Hkey. cbn [Js.get]. rewrite String.eqb_refl.
  cbn [selectionSetOf SelectionNode_selectionSet].
  destruct selectionSet1, selectionSet2; cbn [Js.set Js.values map snd];
    rewrite ?String.eqb_refl; eauto.
Qed.

End ArgumentOrder.

(** The same two questions asked of [mergeSelections] of
    [inline-relay-query.ts]. *)
Section FirstRevision.
Import InlineRelayQuery.

(** C1, for [mergeSelections]: among the siblings [f(a: 1)], [f] and
    [f { x }] the last two have the same key, one a leaf and one with a
    selection set, and the key of [f(a: 1)] is another. The result holds
    two fields with the shared key, [f { x }] and [f]: the merged field
    is written over [f(a: 1)], because the entry to replace is looked up
    by alias or name alone. *)
Example mergeSelections_replaces_wrong_entry :
  let f1 := Field None (identifier "f") [int "a" "1"] None None in
  let f2 := leaf "f" in
  let f3 := nested "f" [leaf "x"] in
  fieldKey None (identifier "f") [] ≠ fieldKey None (identifier "f") [int "a" "1"]
  ∧ mergeSelections [f1; f2; f3] = [f3; f2].
Proof. split; [by vm_compute | by vm_compute]. Qed.

(** C3, for [mergeSelections]: [f(a: 1, b: 2)] and [f(b: 2, a: 1)] get
    different keys, the arguments being serialized in the order written,
    and both fields stay in the result. *)
Example mergeSelections_argument_order :
  let f1 := Field None (identifier "f") [int "a" "1"; int "b" "2"] None None in
  let f2 := Field None (identifier "f") [int "b" "2"; int "a" "1"] None None in
  fieldKey None (identifier "f") [int "a" "1"; int "b" "2"]
  ≠ fieldKey None (identifier "f") [int "b" "2"; int "a" "1"]
  ∧ mergeSelections [f1; f2] = [f1; f2].
Proof. split; [by vm_compute | by vm_compute]. Qed.

End FirstRevision.
End SelectionMerger.

(** ** The Fragment Inliner *)

Module DistinctFacts.
Import Json Ast Walk InlineRelayQuery TreeFacts JsFacts InlineRelayQueryFacts.

(** A selection whose key has not been seen is pushed. *)
Lemma mergeStep_fresh mergeSets st s :
  (∀ k, mergeKey s = Some k → seen st !! k = None) →
  mergeStep mergeSets st s
  = {| merged := merged st ++ [s];
       seen := match mergeKey s with
               | Some k => <[k := s]> (seen st)
               | None => seen st
               end |}.
Proof.
  intros Hfresh. destruct s as [a n args ss l|t ss l|n l]; [| |done].
  - pose proof (Hfresh _ eq_refl) as Hk. unfold fieldKey in Hk.
    unfold mergeStep. cbv zeta. by rewrite Hk.
  - pose proof (Hfresh _ eq_refl) as Hk. unfold inlineFragmentKey, typeNameOf in Hk.
    unfold mergeStep. cbv zeta. by rewrite Hk.
Qed.

Lemma foldl_mergeStep_distinct mergeSets st l :
  NoDup (omap mergeKey l) →
  (∀ k, k ∈ omap mergeKey l → seen st !! k = None) →
  merged (foldl (mergeStep mergeSets) st l) = merged st ++ l.
Proof.
  revert st. induction l as [|s l IH]; intros st Hnd Hfresh; simpl.
  - by rewrite app_nil_r.
  - rewrite mergeStep_fresh.
    + rewrite IH; simpl.
      * by rewrite <- app_assoc.
      * simpl in Hnd. destruct (mergeKey s); [by apply NoDup_cons in Hnd as [_ ?] | done].
      * intros k Hk. simpl in Hnd, Hfresh.
        destruct (mergeKey s) as [k0|] eqn:Hs.
        -- apply NoDup_cons in Hnd as [Hk0 _].
           rewrite lookup_insert_ne; [|by intros ->].
           apply Hfresh. by right.
        -- by apply Hfresh.
    + intros k Hk. apply Hfresh. simpl. rewrite Hk. left.
Qed.

Lemma mergeSelections_distinct l :
  NoDup (omap mergeKey l) → mergeSelections l = l.
Proof.
  intros Hnd. rewrite mergeSelections_eq, foldl_mergeStep_distinct; [done..|].
  intros k _. apply lookup_empty.
Qed.

Lemma mergedAgain_distinct node :
  distinct node = true → mergedAgain mergeSelections node = node.
Proof.
  induction node as [a n args l | a n args ss l IH | t ss l IH | n l]
    using SelectionNode_tree_ind; simpl; try done.
  - intros [Hnd Hall]%andb_prop. apply bool_decide_eq_true_1 in Hnd.
    apply forallb_Forall in Hall.
    assert (Hmap : map (mergedAgain mergeSelections) ss = ss).
    { clear Hnd. induction ss as [|x ss IHss]; [done|]. simpl.
      apply Forall_cons in IH as [Hx IH]. apply Forall_cons in Hall as [Hcx Hall].
      rewrite Hx, IHss; done. }
    rewrite Hmap. by rewrite mergeSelections_distinct.
  - intros [Hnd Hall]%andb_prop. apply bool_decide_eq_true_1 in Hnd.
    apply forallb_Forall in Hall.
    assert (Hmap : map (mergedAgain mergeSelections) ss = ss).
    { clear Hnd. induction ss as [|x ss IHss]; [done|]. simpl.
      apply Forall_cons in IH as [Hx IH]. apply Forall_cons in Hall as [Hcx Hall].
      rewrite Hx, IHss; done. }
    rewrite Hmap. by rewrite mergeSelections_distinct.
Qed.

Lemma operationMergedAgain_distinct def :
  distinctList (op_selectionSet def) = true →
  operationMergedAgain mergeSelections def = def.
Proof.
  intros [Hnd Hall]%andb_prop. apply bool_decide_eq_true_1 in Hnd.
  apply forallb_Forall in Hall. destruct def as [op name ss]. simpl in *.
  unfold operationMergedAgain. simpl. f_equal.
  assert (Hmap : map (mergedAgain mergeSelections) ss = ss).
  { clear Hnd. induction Hall as [|x ss Hx _ IH]; [done|]. simpl.
    by rewrite mergedAgain_distinct, IH. }
  rewrite Hmap. by apply mergeSelections_distinct.
Qed.

End DistinctFacts.

Module DeduplicationFacts.
Import Json Ast Walk Inliner TreeFacts JsFacts InlinerFacts KeyFacts Canonical
  CanonicalFacts.
Section WithLocale.
Context {locale : Locale}.

Lemma operationMergedAgain_canonical def :
  canonicalList (op_selectionSet def) = true →
  operationMergedAgain deduplicateSelections def = def.
Proof.
  intros [Hnd Hall]%andb_prop. apply bool_decide_eq_true_1 in Hnd.
  apply forallb_Forall in Hall. destruct def as [op name ss]. simpl in *.
  unfold operationMergedAgain. simpl. f_equal.
  rewrite map_mergedAgain_canonical by done.
  by apply deduplicateSelections_distinct.
Qed.

Lemma selectionKey_mergedAgain merge node :
  selectionKey (mergedAgain merge node) = selectionKey node.
Proof. by destruct node as [? ? ? [?|] ?| |]. Qed.

(** The keys of an operation merged again: those of the operation, each
    once, as they come first. *)
Lemma operationMergedAgain_keys def :
  map selectionKey (op_selectionSet (operationMergedAgain deduplicateSelections def))
  = firstKeys (map selectionKey (op_selectionSet def)).
Proof.
  unfold operationMergedAgain. simpl.
  rewrite deduplicateSelections_keys_eq, map_map. f_equal.
  apply map_ext. intros s. apply selectionKey_mergedAgain.
Qed.

Lemma inlineFragmentsInDocument_canonicalDocument fuel ast out :
  inlineFragmentsInDocument fuel ast = Ok out → canonicalDocument out = true.
Proof.
  intros (defs & -> & Hlen & Hall)%inlineFragmentsInDocument_Ok.
  unfold canonicalDocument. rewrite forallb_Forall, Forall_map.
  eapply Forall_impl; [exact Hall|]. by intros def [Hc _].
Qed.

Lemma inlineFragmentsInDocument_again fuel fuel' ast out :
  inlineFragmentsInDocument fuel ast = Ok out →
  documentDepth out < fuel' →
  inlineFragmentsInDocument fuel' out = Ok out.
Proof.
  intros (defs & -> & _ & Hall)%inlineFragmentsInDocument_Ok Hdepth.
  unfold inlineFragmentsInDocument.
  rewrite DocumentLemmas.generic_spreadFree; [| |done].
  - f_equal. rewrite operations_map. apply map_ext_Forall.
    eapply Forall_impl; [exact Hall|]. intros def [Hc _].
    by rewrite operationMergedAgain_canonical.
  - unfold documentSpreadFree. rewrite forallb_Forall, Forall_map.
    eapply Forall_impl; [exact Hall|]. by intros def [_ Hf].
Qed.

End WithLocale.
End DeduplicationFacts.

Module FragmentInliner.
Import Json Ast Walk TreeFacts JsFacts PropertyFacts WalkFacts DocumentFacts
  DocumentLemmas FragmentMapFacts ResolutionFacts InlinerFacts InlineRelayQueryFacts
  Canonical CanonicalFacts DistinctFacts DeduplicationFacts Locales Examples.

(** C2. Scenario 1: the operation [{ id, account { id }, ...F }] with
    [fragment F on T { id, account { x } }] is inlined, by both
    revisions and with any stack of depth three or more, to the single
    operation [{ id, account { id, x } }]. *)
Theorem scenario1_inlines {locale : Locale} (n : nat) :
  InlineRelayQuery.inlineRelayQueryFromAST (3 + n) scenario1 = Ok scenario1_inlined
  ∧ Inliner.inlineFragmentsInDocument (3 + n) scenario1 = Ok scenario1_inlined.
Proof.
  split.
  - apply (inlineOperations_mono _ _ _ 3); [by vm_compute | done | lia].
  - apply (inlineOperations_mono _ _ _ 3); [by vm_compute | done | lia].
Qed.

(** C4, amended. When every fragment spread written in a document
    names a fragment of the map and the references between fragments
    have no cycle, both revisions return, with any stack deep enough, a
    document made of operation definitions only, in whose selection
    trees no fragment spread remains at any depth. *)
Theorem inliner_postcondition {locale : Locale} (ast : DocumentNode) :
  Forall (λ g, is_Some (buildFragmentMap ast !! g)) (documentSpreads ast) →
  acyclic (buildFragmentMap ast) →
  (∃ fuel out,
      (∀ fuel', fuel ≤ fuel' →
         InlineRelayQuery.inlineRelayQueryFromAST fuel' ast = Ok out)
      ∧ forallb isOperation out = true ∧ documentSpreadFree out = true)
  ∧ (∃ fuel out,
      (∀ fuel', fuel ≤ fuel' →
         Inliner.inlineFragmentsInDocument fuel' ast = Ok out)
      ∧ forallb isOperation out = true ∧ documentSpreadFree out = true).
Proof.
  intros Hres Hacyc. pose proof (documentSpreads_resolved ast Hres) as Hall.
  assert (Hdefined : ∀ g, reachedFrom (buildFragmentMap ast) ast g →
                          getProperty (buildFragmentMap ast) g ≠ Undefined).
  { intros g Hg. by apply lookup_is_Some, Hall. }
  split.
  - by apply generic_postcondition; [apply mergeSelections_spreadFree|..].
  - by apply generic_postcondition; [apply deduplicateSelections_spreadFree|..].
Qed.

Lemma inliner_postcondition_witness :
  (∃ fuel out,
      (∀ fuel', fuel ≤ fuel' →
         InlineRelayQuery.inlineRelayQueryFromAST fuel' scenario1 = Ok out)
      ∧ forallb isOperation out = true ∧ documentSpreadFree out = true)
  ∧ (∃ fuel out,
      (∀ fuel', fuel ≤ fuel' →
         Inliner.inlineFragmentsInDocument (locale := ordinal) fuel' scenario1 = Ok out)
      ∧ forallb isOperation out = true ∧ documentSpreadFree out = true).
Proof.
  apply (inliner_postcondition (locale := ordinal) scenario1).
  - repeat constructor; by eexists.
  - exists (λ _, 0). apply rankedBy_ranked. by vm_compute.
Defined.

(** A fragment whose first selection spreads the fragment itself. *)
Section Diverging.
Context (merge : list SelectionNode → list SelectionNode).
Context (notFound : string → string).
Context (fragmentMap : FragmentMap).

Lemma inline_first_spread fuel {T} `{HasSelectionSet T} (node : T) name loc rest fragment :
  selectionSetOf node = Some (FragmentSpread name loc :: rest) →
  fragmentMap !! name_value name = Some fragment →
  (∀ n, Walk.inline merge notFound fragmentMap n fragment = OutOfFuel) →
  Walk.inline merge notFound fragmentMap fuel node = OutOfFuel.
Proof.
  intros Hnode Hfrag%lookup_getProperty Hdiv. rewrite inline_unfold, Hnode.
  destruct fuel as [|n]; [done|]. cbn [Js.forEach].
  by rewrite inlineStep_spread, Hfrag, Hdiv.
Qed.

Lemma inline_self_spread fuel name loc rest fragment :
  frag_selectionSet fragment = FragmentSpread name loc :: rest →
  fragmentMap !! name_value name = Some fragment →
  Walk.inline merge notFound fragmentMap fuel fragment = OutOfFuel.
Proof.
  intros Hsel Hfrag%lookup_getProperty. induction fuel as [|n IH]; rewrite inline_unfold;
    cbn [selectionSetOf FragmentDefinitionNode_selectionSet]; [done|].
  rewrite Hsel. cbn [Js.forEach]. by rewrite inlineStep_spread, Hfrag, IH.
Qed.

End Diverging.

(** C4 as stated fails on [{ ...A }] with [fragment A on T { ...A }]:
    every spread names a fragment of the map, and no document is ever
    returned. *)
Lemma selfSpreading_never_returns :
  Forall (λ g, is_Some (buildFragmentMap selfSpreading !! g))
    (documentSpreads selfSpreading)
  ∧ ¬ (∃ fuel out,
         InlineRelayQuery.inlineRelayQueryFromAST fuel selfSpreading = Ok out)
  ∧ ¬ (∃ (L : Locale) fuel out,
         Inliner.inlineFragmentsInDocument fuel selfSpreading = Ok out).
Proof.
  split; [repeat constructor; by eexists|].
  assert (Hdiv : ∀ merge notFound fuel,
            Walk.inlineOperations merge notFound (buildFragmentMap selfSpreading)
              fuel selfSpreading = OutOfFuel).
  { intros merge notFound fuel. unfold Walk.inlineOperations. cbn [operations selfSpreading queryOf fragmentOf Js.mapArray].
    erewrite inline_first_spread; [done|done|done|].
    intros n. by eapply inline_self_spread. }
  split.
  - intros (fuel & out & Hout). unfold InlineRelayQuery.inlineRelayQueryFromAST in Hout.
    by rewrite Hdiv in Hout.
  - intros (L & fuel & out & Hout). unfold Inliner.inlineFragmentsInDocument in Hout.
    by rewrite Hdiv in Hout.
Qed.




(** C6, amended. When the references between fragments have no cycle,
    both revisions end, returning or throwing, with any stack deep
    enough. The only error they throw is [Fragment g not found] for a
    name [g] absent from the map: there is no guard against cycles. When
    every spread met from the operations names a fragment of the map and
    one of those fragments is reached from its own selections, the
    recursion uses up any stack it is given. *)
Theorem inliner_termination {locale : Locale} (ast : DocumentNode) :
  let fragmentMap := buildFragmentMap ast in
  (acyclic fragmentMap →
   (∃ fuel r, r ≠ OutOfFuel ∧ ∀ fuel', fuel ≤ fuel' →
       InlineRelayQuery.inlineRelayQueryFromAST fuel' ast = r)
   ∧ (∃ fuel r, r ≠ OutOfFuel ∧ ∀ fuel', fuel ≤ fuel' →
       Inliner.inlineFragmentsInDocument fuel' ast = r))
  ∧ (∀ fuel message,
       (InlineRelayQuery.inlineRelayQueryFromAST fuel ast = Throw message →
        ∃ g, message = "Fragment " +:+ g +:+ " not found" ∧ fragmentMap !! g = None)
       ∧ (Inliner.inlineFragmentsInDocument fuel ast = Throw message →
          ∃ g, message = "Fragment " +:+ String dquote g +:+ String dquote " not found"
               ∧ fragmentMap !! g = None))
  ∧ ((∀ g, reachedFrom fragmentMap ast g → is_Some (fragmentMap !! g)) →
     (∃ g, reachedFrom fragmentMap ast g ∧ onCycle fragmentMap g) →
     ∀ fuel,
       InlineRelayQuery.inlineRelayQueryFromAST fuel ast = OutOfFuel
       ∧ Inliner.inlineFragmentsInDocument fuel ast = OutOfFuel).
Proof.
  intros fragmentMap. split_and!.
  - intros Hacyc. split; by apply inlineOperations_settles.
  - intros fuel message. split.
    + intros (def & g & _ & -> & Hg & _)%inlineOperations_Throw.
      exists g. split; [done | by apply getProperty_Undefined].
    + intros (def & g & _ & -> & Hg & _)%inlineOperations_Throw.
      exists g. split; [done | by apply getProperty_Undefined].
  - intros Hres Hcyc fuel.
    assert (Hdefined : ∀ g, reachedFrom fragmentMap ast g →
                            getProperty fragmentMap g ≠ Undefined).
    { intros g Hg. by apply lookup_is_Some, Hres. }
    split; by apply generic_cycle.
Qed.

Lemma inliner_termination_witness :
  (∃ fuel r, r ≠ OutOfFuel ∧ ∀ fuel', fuel ≤ fuel' →
      InlineRelayQuery.inlineRelayQueryFromAST fuel' scenario1 = r)
  ∧ (∃ fuel r, r ≠ OutOfFuel ∧ ∀ fuel', fuel ≤ fuel' →
      Inliner.inlineFragmentsInDocument (locale := ordinal) fuel' scenario1 = r).
Proof.
  apply (proj1 (inliner_termination (locale := ordinal) scenario1)).
  exists (λ _, 0). apply rankedBy_ranked. by vm_compute.
Defined.

(** C6 as stated fails on [{ ...A }] with A spreading B and B
    spreading A: the inliner throws no error at all. *)
Lemma mutualCycle_never_throws :
  onCycle (buildFragmentMap mutualCycle) "A"
  ∧ ¬ (∃ fuel message,
         InlineRelayQuery.inlineRelayQueryFromAST fuel mutualCycle = Throw message)
  ∧ ¬ (∃ (L : Locale) fuel message,
         Inliner.inlineFragmentsInDocument fuel mutualCycle = Throw message).
Proof.
  assert (Hcyc : onCycle (buildFragmentMap mutualCycle) "A").
  { eexists. split; [done|].
    eapply reaches_via; [by left | done |]. apply reaches_here. by left. }
  assert (Hdiv : ∀ merge notFound fuel,
            Walk.inlineOperations merge notFound (buildFragmentMap mutualCycle)
              fuel mutualCycle = OutOfFuel).
  { intros merge notFound fuel. apply generic_cycle.
    - intros g Hg. apply lookup_is_Some. revert g Hg.
      apply documentSpreads_resolved. repeat constructor; by eexists.
    - exists "A". split; [|done].
      eexists. split; [left|]. apply reaches_here. by left. }
  split_and!; [done| |].
  - intros (fuel & out & Hout). unfold InlineRelayQuery.inlineRelayQueryFromAST in Hout.
    by rewrite Hdiv in Hout.
  - intros (L & fuel & out & Hout). unfold Inliner.inlineFragmentsInDocument in Hout.
    by rewrite Hdiv in Hout.
Qed.




End FragmentInliner.

(** ** The Definition Grouper *)

Module DefinitionGrouper.
Import Parser Merge JsFacts SortFacts KeyFacts MergeFacts Locales LocaleFacts Examples.




End DefinitionGrouper.

(** * Further properties of the code *)

(** ** Merged selections of the second revision *)

Module MergerProperties.
Import Json Ast Walk Inliner TreeFacts JsFacts InlinerFacts KeyFacts WalkFacts
  DocumentFacts DocumentLemmas Canonical CanonicalFacts Locales Examples.

Section WithLocale.
Context {locale : Locale}.

(** X3. The result of [deduplicateSelections] has one entry for every
    key of its input and no other, no key twice, in the order in which
    the keys occur first in the input. *)
Theorem deduplicateSelections_first_occurrences (l : list SelectionNode) :
  map selectionKey (deduplicateSelections l) = firstKeys (map selectionKey l)
  ∧ NoDup (map selectionKey (deduplicateSelections l))
  ∧ ∀ k, k ∈ map selectionKey (deduplicateSelections l) ↔ k ∈ map selectionKey l.
Proof.
  split_and!.
  - apply deduplicateSelections_keys_eq.
  - apply deduplicateSelections_NoDup.
  - intros k. rewrite deduplicateSelections_keys_eq. unfold firstKeys.
    rewrite elem_of_firstKeys_acc. split; [intros [?%elem_of_nil|?]; done | by right].
Qed.

(** X4. Selections whose keys are pairwise distinct come back from
    [deduplicateSelections] as they are, their nested selection sets
    untouched: only siblings with the same key are merged. *)
Theorem deduplicateSelections_distinct_keys (l : list SelectionNode) :
  NoDup (map selectionKey l) → deduplicateSelections l = l.
Proof. apply deduplicateSelections_distinct. Qed.

(** X5. [deduplicateSelections] is idempotent. *)
Theorem deduplicateSelections_idempotent (l : list SelectionNode) :
  deduplicateSelections (deduplicateSelections l) = deduplicateSelections l.
Proof. apply deduplicateSelections_distinct, deduplicateSelections_NoDup. Qed.

(** X6. In a document returned by [inlineFragmentsInDocument] no two
    sibling selections have the same key, at any level of any
    operation, and there are as many definitions as the input has
    operations. *)
Theorem inlineFragmentsInDocument_canonical
    (fuel : nat) (ast out : DocumentNode) :
  inlineFragmentsInDocument fuel ast = Ok out →
  canonicalDocument out = true ∧ length out = length (operations ast).
Proof.
  intros (defs & -> & Hlen & Hall)%inlineFragmentsInDocument_Ok. split.
  - unfold canonicalDocument. rewrite forallb_Forall, Forall_map.
    eapply Forall_impl; [exact Hall|]. by intros def [Hc _].
  - by rewrite length_map.
Qed.

(** X7. A document returned by [inlineFragmentsInDocument] is a fixed
    point of it: inlined again, with a stack deeper than its selections
    are nested, it is returned unchanged. *)
Theorem inlineFragmentsInDocument_fixed_point
    (fuel fuel' : nat) (ast out : DocumentNode) :
  inlineFragmentsInDocument fuel ast = Ok out →
  documentDepth out < fuel' →
  inlineFragmentsInDocument fuel' out = Ok out.
Proof.
  intros (defs & -> & _ & Hall)%inlineFragmentsInDocument_Ok Hdepth.
  unfold inlineFragmentsInDocument.
  rewrite generic_spreadFree; [| |done].
  - f_equal. rewrite operations_map. apply map_ext_Forall.
    eapply Forall_impl; [exact Hall|]. intros [op name ss] [Hc _]. simpl in *.
    unfold operationMergedAgain. simpl.
    apply andb_prop in Hc as [Hnd Hcs]. apply bool_decide_eq_true_1 in Hnd.
    apply forallb_Forall in Hcs.
    rewrite map_mergedAgain_canonical; [|done].
    by rewrite deduplicateSelections_distinct.
  - unfold documentSpreadFree. rewrite forallb_Forall, Forall_map.
    eapply Forall_impl; [exact Hall|]. by intros def [_ Hf].
Qed.

End WithLocale.

Lemma deduplicateSelections_distinct_keys_witness :
  deduplicateSelections (locale := ordinal)
    [leaf "id"; nested "account" [leaf "x"; leaf "x"]]
  = [leaf "id"; nested "account" [leaf "x"; leaf "x"]].
Proof.
  apply (deduplicateSelections_distinct_keys (locale := ordinal)).
  apply (bool_decide_eq_true_1 _). by vm_compute.
Defined.

Lemma inlineFragmentsInDocument_canonical_witness :
  canonicalDocument (locale := ordinal) scenario1_inlined = true
  ∧ length scenario1_inlined = length (operations scenario1).
Proof.
  apply (inlineFragmentsInDocument_canonical (locale := ordinal) 3 scenario1).
  by vm_compute.
Defined.

Lemma inlineFragmentsInDocument_fixed_point_witness :
  inlineFragmentsInDocument (locale := ordinal) 3 scenario1_inlined
  = Ok scenario1_inlined.
Proof.
  apply (inlineFragmentsInDocument_fixed_point (locale := ordinal) 3 3 scenario1).
  - by vm_compute.
  - vm_compute. lia.
Defined.

Lemma deduplicateSelections_leaf_and_set_witness :
  filter (λ s, selectionKey (locale := ordinal) s = "f")
    (deduplicateSelections (locale := ordinal)
       [leaf "f"; leaf "g"; nested "f" [leaf "x"]])
  = [nested "f" [leaf "x"]]
  ∧ filter (λ s, selectionKey (locale := ordinal) s = "f")
      (deduplicateSelections (locale := ordinal)
         [nested "f" [leaf "x"]; leaf "g"; leaf "f"])
    = [nested "f" [leaf "x"]].
Proof.
  apply (SelectionMerger.deduplicateSelections_leaf_and_set (locale := ordinal)
           [] [leaf "g"] [] None (identifier "f") [] None
           None (identifier "f") [] None [leaf "x"]).
  - reflexivity.
  - repeat constructor. by vm_compute.
Defined.

Lemma argument_order_invariance_witness :
  let args1 := [int "a" "1"; int "b" "2"] in
  let args2 := [int "b" "2"; int "a" "1"] in
  createArgumentKey (locale := ordinal) args1 = createArgumentKey (locale := ordinal) args2
  ∧ selectionKey (locale := ordinal) (Field None (identifier "f") args1 None None)
    = selectionKey (locale := ordinal) (Field None (identifier "f") args2 None None)
  ∧ ∃ field,
      deduplicateSelections (locale := ordinal)
        [Field None (identifier "f") args1 None None;
         Field None (identifier "f") args2 None None]
      = [field].
Proof.
  apply (SelectionMerger.argument_order_invariance
           (locale := ordinal) (consistent := LocaleFacts.ordinal_consistent)
           [int "a" "1"; int "b" "2"] [int "b" "2"; int "a" "1"]
           None (identifier "f") None None None None).
  - apply (bool_decide_eq_true_1 _). by vm_compute.
  - apply perm_swap.
Defined.

End MergerProperties.

(** ** Keys and positions *)

Module PositionFacts.
Import Json Ast Inliner Positions.

Section WithLocale.
Context {locale : Locale}.

Lemma normalizeValueNode_withoutLoc value :
  normalizeValueNode (valueWithoutLoc value) = normalizeValueNode value.
Proof.
  revert value. fix IH 1. intros [name l|v l|v l|v b l|b l|l|v l|values l|fields l];
    simpl; try done.
  - f_equal. induction values as [|v values IHvs]; [done|]. by rewrite IH, IHvs.
  - match goal with
    | |- NObject (foldl _ _ ?a).1 _ = NObject (foldl _ _ ?b).1 _ =>
        assert (a = b) as ->; [|done]
    end.
    induction fields as [|[n v fl] fields IHfs]; [done|].
    by rewrite IH, IHfs.
Qed.

Lemma normalizedArgs_withoutLoc args :
  normalizedArgs (map argumentWithoutLoc args) = normalizedArgs args.
Proof.
  unfold normalizedArgs. rewrite map_map. apply map_ext. intros arg. simpl.
  by rewrite normalizeValueNode_withoutLoc.
Qed.

Lemma createArgumentKey_withoutLoc args :
  createArgumentKey (map argumentWithoutLoc args) = createArgumentKey args.
Proof.
  unfold createArgumentKey. rewrite normalizedArgs_withoutLoc. by destruct args.
Qed.

Lemma deduplicateSelections_same_key a1 n1 args1 ss1 l1 a2 n2 args2 ss2 l2 :
  createFieldKey a1 n1 args1 = createFieldKey a2 n2 args2 →
  ∃ ss, deduplicateSelections [Field a1 n1 args1 ss1 l1; Field a2 n2 args2 ss2 l2]
        = [Field a1 n1 args1 ss l1].
Proof.
  intros Hkey. rewrite InlinerFacts.deduplicateSelections_eq. cbn [foldl].
  unfold deduplicateStep at 2. cbn [selectionKey Js.get Js.set].
  unfold deduplicateStep. cbn [selectionKey]. rewrite <- Hkey.
  cbn [Js.get]. rewrite String.eqb_refl.
  cbn [selectionSetOf SelectionNode_selectionSet].
  destruct ss1, ss2; cbn [Js.set Js.values map snd withSelectionSet];
    rewrite ?String.eqb_refl; cbn [map snd]; eauto.
Qed.

End WithLocale.
End PositionFacts.

Module PositionProperties.
Import Json Ast Inliner Positions PositionFacts Locales Examples.

(** X8. The key of a field does not depend on position information:
    two fields with the same alias (or, without alias, the same name)
    whose arguments are the same once the positions are removed have the
    same key, and as siblings they are merged into one field, the first
    of the two. *)
Theorem createFieldKey_ignores_positions {locale : Locale}
    alias name args selectionSet loc alias' name' args' selectionSet' loc' :
  name_value <$> alias = name_value <$> alias' →
  name_value name = name_value name' →
  map argumentWithoutLoc args = map argumentWithoutLoc args' →
  createFieldKey alias name args = createFieldKey alias' name' args'
  ∧ ∃ merged,
      deduplicateSelections [Field alias name args selectionSet loc;
                             Field alias' name' args' selectionSet' loc']
      = [Field alias name args merged loc].
Proof.
  intros Halias Hname Hargs.
  assert (Hkey : createFieldKey alias name args = createFieldKey alias' name' args').
  { unfold createFieldKey.
    rewrite <- (createArgumentKey_withoutLoc args), Hargs, createArgumentKey_withoutLoc.
    f_equal. destruct alias, alias'; simpl in *; congruence. }
  split; [done|]. by apply deduplicateSelections_same_key.
Qed.

Lemma createFieldKey_ignores_positions_witness :
  let at1 := Some {| loc_start := 10; loc_end := 14 |} in
  let at2 := Some {| loc_start := 40; loc_end := 44 |} in
  let a1 := [{| arg_name := {| name_value := "a"; name_loc := at1 |};
               arg_value := IntValue "1" at1; arg_loc := at1 |}] in
  let a2 := [{| arg_name := {| name_value := "a"; name_loc := at2 |};
               arg_value := IntValue "1" at2; arg_loc := at2 |}] in
  createFieldKey (locale := ordinal) None (identifier "f") a1
  = createFieldKey (locale := ordinal) None (identifier "f") a2
  ∧ ∃ merged,
      deduplicateSelections (locale := ordinal)
        [Field None (identifier "f") a1 None at1;
         Field None (identifier "f") a2 (Some [leaf "x"]) at2]
      = [Field None (identifier "f") a1 merged at1].
Proof.
  apply (createFieldKey_ignores_positions (locale := ordinal)); reflexivity.
Defined.

End PositionProperties.

(** ** Keys and the kinds of literals *)

Module LiteralProperties.
Import Json Ast Inliner Literals PositionFacts Locales Examples.

(** X28. The key of a field does not tell the kinds of literals
    apart: an integer, a float, a string and an enum value with the same
    text give the same key, so that of two sibling fields that differ
    only in the kind of such an argument, as [f(a: 1)] and
    [f(a: "1")], the second is merged into the first. *)
Theorem literal_kind_is_not_in_the_key {locale : Locale}
    alias name argument value1 value2 text loc1 loc2 ss1 ss2 l1 l2 :
  scalarText value1 = Some text →
  scalarText value2 = Some text →
  let f1 := Field alias name
              [{| arg_name := argument; arg_value := value1; arg_loc := loc1 |}] ss1 l1 in
  let f2 := Field alias name
              [{| arg_name := argument; arg_value := value2; arg_loc := loc2 |}] ss2 l2 in
  selectionKey f1 = selectionKey f2
  ∧ ∃ merged,
      deduplicateSelections [f1; f2]
      = [Field alias name
           [{| arg_name := argument; arg_value := value1; arg_loc := loc1 |}] merged l1].
Proof.
  intros H1 H2 f1 f2.
  assert (Hvalue : normalizeValueNode value1 = normalizeValueNode value2).
  { destruct value1, value2; simpl in *; congruence. }
  assert (Hkey : selectionKey f1 = selectionKey f2).
  { unfold f1, f2. cbn [selectionKey]. unfold createFieldKey, createArgumentKey,
      normalizedArgs. cbn [map arg_name arg_value]. by rewrite Hvalue. }
  split; [done|]. by apply deduplicateSelections_same_key.
Qed.

Lemma literal_kind_is_not_in_the_key_witness :
  let f1 := Field None (identifier "f")
              [{| arg_name := identifier "a"; arg_value := IntValue "1" None;
                  arg_loc := None |}] None None in
  let f2 := Field None (identifier "f")
              [{| arg_name := identifier "a"; arg_value := StringValue "1" false None;
                  arg_loc := None |}] None None in
  selectionKey (locale := ordinal) f1 = selectionKey (locale := ordinal) f2
  ∧ ∃ merged,
      deduplicateSelections (locale := ordinal) [f1; f2]
      = [Field None (identifier "f")
           [{| arg_name := identifier "a"; arg_value := IntValue "1" None;
               arg_loc := None |}] merged None].
Proof.
  apply (literal_kind_is_not_in_the_key (locale := ordinal) None (identifier "f")
           (identifier "a") (IntValue "1" None) (StringValue "1" false None) "1");
    reflexivity.
Defined.

End LiteralProperties.

(** ** The fragment map *)

Module FragmentFacts.
Import Ast Walk TreeFacts JsFacts PropertyFacts WalkFacts DocumentFacts Fragments.

Lemma buildFragmentMap_app ast ast' :
  buildFragmentMap (ast ++ ast')
  = foldl (λ fragmentMap def,
             match def with
             | FragmentDefinition d =>
                 setProperty (name_value (frag_name d)) d fragmentMap
             | _ => fragmentMap
             end) (buildFragmentMap ast) ast'.
Proof. unfold buildFragmentMap. apply foldl_app. Qed.

Lemma fragmentsNamed_snoc g ast def :
  fragmentsNamed g (ast ++ [def])
  = fragmentsNamed g ast
    ++ match def with
       | FragmentDefinition d =>
           if String.eqb (name_value (frag_name d)) g then [d] else []
       | _ => []
       end.
Proof.
  unfold fragmentsNamed. rewrite flat_map_app. simpl. by rewrite app_nil_r.
Qed.

(** The fragment [__proto__] is never a property of the map's own. *)
Lemma ownFragments_buildFragmentMap ast g :
  ownFragments (buildFragmentMap ast) !! g
  = if String.eqb g "__proto__" then None else last (fragmentsNamed g ast).
Proof.
  induction ast as [|def ast IH] using rev_ind.
  - simpl. rewrite lookup_empty. by destruct (String.eqb g "__proto__").
  - rewrite buildFragmentMap_app, fragmentsNamed_snoc. simpl.
    destruct def as [d|d|k]; try (by rewrite app_nil_r).
    unfold setProperty.
    destruct (String.eqb_spec (name_value (frag_name d)) "__proto__") as [Hd|Hd]; simpl.
    + rewrite IH. destruct (String.eqb_spec g "__proto__") as [Hg|Hg]; [done|].
      destruct (String.eqb_spec (name_value (frag_name d)) g) as [Heq|Hne];
        [congruence|].
      by rewrite app_nil_r.
    + destruct (String.eqb_spec (name_value (frag_name d)) g) as [Heq|Hne].
      * rewrite Heq, lookup_insert_eq, last_snoc.
        destruct (String.eqb_spec g "__proto__"); [congruence|done].
      * rewrite lookup_insert_ne by done. by rewrite app_nil_r.
Qed.

(** The last fragment [__proto__] is the prototype of the map. *)
Lemma prototypeNode_buildFragmentMap ast :
  prototypeNode (buildFragmentMap ast) = last (fragmentsNamed "__proto__" ast).
Proof.
  induction ast as [|def ast IH] using rev_ind; [done|].
  rewrite buildFragmentMap_app, fragmentsNamed_snoc. simpl.
  destruct def as [d|d|k]; try (by rewrite app_nil_r).
  unfold setProperty.
  destruct (String.eqb_spec (name_value (frag_name d)) "__proto__") as [Hd|Hd]; simpl.
  - by rewrite last_snoc.
  - by rewrite app_nil_r.
Qed.

Lemma getProperty_buildFragmentMap ast g :
  getProperty (buildFragmentMap ast) g
  = match last (fragmentsNamed g ast) with
    | Some def => Fragment def
    | None =>
        if String.eqb g "__proto__"
           || match last (fragmentsNamed "__proto__" ast) with
              | Some prototype => bool_decide (g ∈ nodeProperties prototype)
              | None => false
              end
           || bool_decide (g ∈ Js.objectPrototypeMethods)
        then Inherited
        else Undefined
    end.
Proof.
  unfold getProperty.
  rewrite ownFragments_buildFragmentMap, prototypeNode_buildFragmentMap.
  destruct (String.eqb_spec g "__proto__") as [->|Hg]; [|done].
  by destruct (last (fragmentsNamed "__proto__" ast)).
Qed.

Lemma forEach_ext {A B} (f g : A → B → result A) a l :
  (∀ a x, x ∈ l → f a x = g a x) → Js.forEach f a l = Js.forEach g a l.
Proof.
  revert a. induction l as [|x l IH]; intros a Hfg; simpl; [done|].
  rewrite (Hfg a x) by left. destruct (g a x); simpl; [|done..].
  apply IH. intros a' y Hy. apply Hfg. by right.
Qed.

Section Ext.
Context (merge : list SelectionNode → list SelectionNode).
Context (notFound : string → string).
Context (fm fm' : FragmentMap).

(** A call depends on the map only through what the map has under the
    names it reaches. *)
Lemma inline_ext fuel {T} `{HasSelectionSet T} (node : T) :
  (∀ g, reaches fm (selectionsOf node) g → getProperty fm' g = getProperty fm g) →
  Walk.inline merge notFound fm' fuel node = Walk.inline merge notFound fm fuel node.
Proof.
  revert T H node. induction fuel as [|n IH]; intros T H node Hsame;
    rewrite !inline_unfold; destruct (selectionSetOf node) as [ss|] eqn:Hss;
    try done.
  unfold selectionsOf in Hsame. rewrite Hss in Hsame. simpl in Hsame.
  rewrite (forEach_ext _ (Walk.inlineStep notFound fm (@Walk.inline merge notFound fm n)));
    [done|].
  intros a x Hx. destruct x as [al nm args sx l|t sx l|name loc].
  - rewrite !inlineStep_other by done. rewrite IH; [done|].
    intros g Hg. apply Hsame. by eapply reaches_child.
  - rewrite !inlineStep_other by done. rewrite IH; [done|].
    intros g Hg. apply Hsame. by eapply reaches_child.
  - rewrite !inlineStep_spread.
    assert (Hname : name_value name ∈ spreadsOf ss) by (by eapply spreadsOf_spread).
    rewrite (Hsame _ (reaches_here _ _ _ Hname)).
    destruct (getProperty fm (name_value name)) as [fragment| |] eqn:Hfrag; [|done..].
    rewrite IH; [done|]. intros g Hg. apply Hsame.
    eapply reaches_via; [done| |done]. by apply lookup_getProperty.
Qed.

Lemma mapArray_ext {A B} (f g : A → result B) l :
  (∀ x, x ∈ l → f x = g x) → Js.mapArray f l = Js.mapArray g l.
Proof.
  induction l as [|x l IH]; intros Hfg; simpl; [done|].
  rewrite (Hfg x) by left. rewrite IH; [done|]. intros y Hy. apply Hfg. by right.
Qed.

Lemma inlineOperations_ext fuel ast ast' :
  operations ast' = operations ast →
  (∀ g, reachedFrom fm ast g → getProperty fm' g = getProperty fm g) →
  Walk.inlineOperations merge notFound fm' fuel ast'
  = Walk.inlineOperations merge notFound fm fuel ast.
Proof.
  intros Hops Hsame. unfold Walk.inlineOperations. rewrite Hops.
  rewrite (mapArray_ext _ (Walk.inline merge notFound fm fuel)); [done|].
  intros def Hdef. apply inline_ext. intros g Hg. apply Hsame. by exists def.
Qed.

End Ext.
End FragmentFacts.

Module FragmentProperties.
Import Json Ast Walk TreeFacts JsFacts PropertyFacts WalkFacts DocumentFacts Fragments
  FragmentFacts Locales Examples.

(** X22. What the inliners find in the fragment map under a name: the
    last of the fragment definitions with that name, if there is one;
    else a value that is not a fragment definition, not falsy and
    without a selection set, if the name is [__proto__], the name of a
    method of [Object.prototype], or the name of a property of the last
    fragment definition called [__proto__], which is the prototype of the
    map; else [undefined]. *)
Theorem buildFragmentMap_last (ast : DocumentNode) (g : string) :
  buildFragmentMap ast !! g = last (fragmentsNamed g ast)
  ∧ getProperty (buildFragmentMap ast) g
    = match last (fragmentsNamed g ast) with
      | Some def => Fragment def
      | None =>
          if String.eqb g "__proto__"
             || match last (fragmentsNamed "__proto__" ast) with
                | Some prototype => bool_decide (g ∈ nodeProperties prototype)
                | None => false
                end
             || bool_decide (g ∈ Js.objectPrototypeMethods)
          then Inherited
          else Undefined
      end.
Proof.
  split; [|apply getProperty_buildFragmentMap].
  unfold lookup, FragmentMap_lookup. rewrite getProperty_buildFragmentMap.
  destruct (last (fragmentsNamed g ast)); [done|]. by destruct (_ || _).
Qed.

(** X23. What the inliners return, or throw, depends only on the
    operations of the document and on what the fragment map has under
    the names that are reached from them: two documents with the same
    operations whose maps have the same under every name so reached are
    inlined alike, with any stack. *)
Theorem unreached_fragments_are_irrelevant {locale : Locale}
    (fuel : nat) (ast ast' : DocumentNode) :
  operations ast' = operations ast →
  (∀ g, reachedFrom (buildFragmentMap ast) ast g →
        getProperty (buildFragmentMap ast') g = getProperty (buildFragmentMap ast) g) →
  InlineRelayQuery.inlineRelayQueryFromAST fuel ast'
  = InlineRelayQuery.inlineRelayQueryFromAST fuel ast
  ∧ Inliner.inlineFragmentsInDocument fuel ast'
    = Inliner.inlineFragmentsInDocument fuel ast.
Proof.
  intros Hops Hsame. split; by apply inlineOperations_ext.
Qed.

Lemma unreached_fragments_are_irrelevant_witness :
  let more := scenario1 ++ [fragmentOf "Unused" [spread "Unused"; spread "Missing"]] in
  InlineRelayQuery.inlineRelayQueryFromAST 3 more
  = InlineRelayQuery.inlineRelayQueryFromAST 3 scenario1
  ∧ Inliner.inlineFragmentsInDocument (locale := ordinal) 3 more
    = Inliner.inlineFragmentsInDocument (locale := ordinal) 3 scenario1.
Proof.
  apply (unreached_fragments_are_irrelevant (locale := ordinal) 3 scenario1).
  - reflexivity.
  - intros g (def & Hdef & Hreach).
    apply list_elem_of_singleton in Hdef as ->.
    assert (Hg : g = "F").
    { inversion Hreach as [ss g' Hin|ss h fragment g' Hin Hh Hvia]; subst.
      - by apply list_elem_of_singleton in Hin.
      - apply list_elem_of_singleton in Hin as ->.
        vm_compute in Hh. injection Hh as <-.
        inversion Hvia as [ss g' Hin'|ss h' fragment' g' Hin' Hh' Hvia']; subst;
          by apply elem_of_nil in Hin'. }
    subst g. by vm_compute.
Defined.

(** X30. A fragment definition that no spread names can change what
    the inliners do: [query Q { ...kind }] makes both throw, and with
    [fragment __proto__ on T { x }] in the document, which becomes the
    prototype of the fragment map, both return the query without
    selections. *)
Theorem prototype_fragment_changes_resolution (n : nat) :
  operations kindSpreadWithPrototype = operations kindSpread
  ∧ (∀ g, ¬ reachedFrom (buildFragmentMap kindSpreadWithPrototype)
              kindSpreadWithPrototype g ∨ g = "kind")
  ∧ InlineRelayQuery.inlineRelayQueryFromAST (1 + n) kindSpread
    = Throw "Fragment kind not found"
  ∧ Inliner.inlineFragmentsInDocument (locale := ordinal) (1 + n) kindSpread
    = Throw ("Fragment " +:+ String dquote "kind" +:+ String dquote " not found")
  ∧ InlineRelayQuery.inlineRelayQueryFromAST (1 + n) kindSpreadWithPrototype
    = Ok [queryOf []]
  ∧ Inliner.inlineFragmentsInDocument (locale := ordinal) (1 + n) kindSpreadWithPrototype
    = Ok [queryOf []].
Proof.
  split_and!; try done.
  intros g. destruct (decide (g = "kind")) as [->|Hne]; [by right|left].
  intros (def & Hdef & Hreach). apply list_elem_of_singleton in Hdef as ->.
  inversion Hreach as [ss g' Hin|ss h fragment g' Hin Hh Hvia]; subst.
  - by apply list_elem_of_singleton in Hin.
  - apply list_elem_of_singleton in Hin as ->. by vm_compute in Hh.
Qed.

End FragmentProperties.

(** ** The scanner: ends and errors *)

Module ScannerFacts.
Import Parser StringFacts ParserFacts DefinitionSplitter.

Lemma parseTurn_no_keyword input index definitions :
  let i1 := skipWhile isSpace input index in
  i1 < String.length input →
  startsWith input "query" i1 = false →
  startsWith input "fragment" i1 = false →
  parseTurn input index definitions = Next (i1 + 1) definitions.
Proof.
  intros i1 Hlt Hq Hf. unfold parseTurn. fold i1.
  destruct (Nat.leb_spec (String.length input) i1) as [|_]; [lia|].
  by rewrite Hq, Hf.
Qed.

Lemma parseLoop_no_keyword fuel input index definitions :
  (∀ i, startsWith input "query" i = false ∧ startsWith input "fragment" i = false) →
  String.length input - index < fuel →
  parseLoop fuel input index definitions = Ok definitions.
Proof.
  intros Hnone. revert index.
  induction fuel as [|n IH]; intros index Hfuel; [lia|].
  rewrite parseLoop_unfold.
  destruct (Nat.leb_spec (String.length input) index) as [|Hlt]; [done|].
  unfold parseTurn.
  pose proof (skipWhile_ge isSpace input index) as Hge.
  destruct (Nat.leb_spec (String.length input) (skipWhile isSpace input index))
    as [|Hlt1]; [done|].
  destruct (Hnone (skipWhile isSpace input index)) as [-> ->]. simpl.
  apply IH. lia.
Qed.

(** What a turn does at a keyword that no name follows. *)
Lemma parseTurn_no_name input index definitions t :
  let i1 := skipWhile isSpace input index in
  let i3 := skipWhile isSpace input (i1 + String.length (keyword t)) in
  i1 < String.length input →
  startsWith input (keyword t) i1 = true →
  span isNameChar (from i3 input) = "" →
  parseTurn input index definitions
  = Raise ("Could not parse definition name at position " +:+ pretty i3).
Proof.
  intros i1 i3 Hi1 Hkw Hname. unfold parseTurn. fold i1.
  destruct (Nat.leb_spec (String.length input) i1) as [|_]; [lia|].
  destruct (startsWith_keyword _ _ _ Hkw) as [-> ->]. fold i3.
  by rewrite Hname.
Qed.

(** What a turn does at a definition whose first [{] is never closed. *)
Lemma parseTurn_unbalanced input index definitions t :
  let i1 := skipWhile isSpace input index in
  let i3 := skipWhile isSpace input (i1 + String.length (keyword t)) in
  let name := span isNameChar (from i3 input) in
  let i5 := skipWhile (isNot "{") input (i3 + String.length name) in
  i1 < String.length input →
  startsWith input (keyword t) i1 = true →
  name ≠ "" →
  i5 < String.length input →
  (∀ e, ¬ closesAt input i5 e) →
  parseTurn input index definitions
  = Raise ("No matching closing brace found for definition " +:+ name).
Proof.
  intros i1 i3 name i5 Hi1 Hkw Hname Hi5 Hopen. unfold parseTurn. fold i1.
  destruct (Nat.leb_spec (String.length input) i1) as [|_]; [lia|].
  destruct (startsWith_keyword _ _ _ Hkw) as [-> ->]. fold i3. fold name.
  destruct (String.eqb_spec name "") as [|_]; [done|]. fold i5.
  destruct (Nat.leb_spec (String.length input) i5) as [|_]; [lia|].
  destruct (matchBraces (from i5 input) i5 0) as [e|] eqn:Hmatch; [|done].
  destruct (skipWhile_stop (isNot "{") input (i3 + String.length name) Hi5)
    as (c & Hc & Hp).
  fold i5 in Hc. unfold isNot in Hp. apply negb_false_iff, Ascii.eqb_eq in Hp. subst c.
  destruct (matchBraces_closesAt input i5 e Hc Hmatch) as (_ & Hclose & _).
  by destruct (Hopen e).
Qed.

Lemma scans_Raise input index definitions message :
  scans input index definitions →
  index < String.length input →
  parseTurn input index definitions = Raise message →
  parseGraphQLDefinitions input = Throw message.
Proof.
  intros Hscans Hlt Hturn.
  rewrite (scans_parseLoop _ _ _ Hscans), parseLoop_unfold.
  destruct (Nat.leb_spec (String.length input) index) as [|_]; [lia|].
  by rewrite Hturn.
Qed.

End ScannerFacts.

Module ScannerProperties.
Import Parser StringFacts ParserFacts DefinitionSplitter ScannerFacts Examples.

(** X9. The scanner ends: every turn of its loop moves the index
    forward, and the loop is through after at most as many turns as the
    input has code units, whatever more it is allowed. *)
Theorem parseGraphQLDefinitions_terminates (input : string) (more : nat) :
  parseGraphQLDefinitions input ≠ OutOfFuel
  ∧ parseLoop (S (String.length input) + more) input 0 []
    = parseGraphQLDefinitions input.
Proof.
  split; [apply parseGraphQLDefinitions_returns|].
  apply parseLoop_stable; lia.
Qed.

(** X10. An input in which no code unit starts the word [query] or the
    word [fragment] yields no definition and no error, whatever else it
    holds. *)
Theorem no_keyword_no_definition (input : string) :
  (∀ i, startsWith input "query" i = false ∧ startsWith input "fragment" i = false) →
  parseGraphQLDefinitions input = Ok [].
Proof. intros Hnone. apply parseLoop_no_keyword; [done | lia]. Qed.

Lemma no_keyword_no_definition_witness :
  parseGraphQLDefinitions "{ a }" = Ok [].
Proof.
  apply (no_keyword_no_definition "{ a }").
  intros i. do 5 (destruct i as [|i]; [by vm_compute|]). by destruct i.
Defined.

(** X11. When the scanner, having collected [definitions], stands
    before a keyword that is followed, after any white space, by no name
    character (an anonymous [query { ... }], or the end of the input),
    [parseGraphQLDefinitions] throws [Could not parse definition name at
    position i], [i] being the offset at which the name was looked for;
    the definitions collected before are not returned. *)
Theorem missing_name_is_an_error input index definitions t :
  let i1 := skipWhile isSpace input index in
  let i3 := skipWhile isSpace input (i1 + String.length (keyword t)) in
  scans input index definitions →
  i1 < String.length input →
  startsWith input (keyword t) i1 = true →
  span isNameChar (from i3 input) = "" →
  parseGraphQLDefinitions input
  = Throw ("Could not parse definition name at position " +:+ pretty i3).
Proof.
  intros i1 i3 Hscans Hi1 Hkw Hname.
  pose proof (skipWhile_ge isSpace input index) as Hge. fold i1 in Hge.
  apply (scans_Raise _ _ _ _ Hscans); [lia|]. by apply parseTurn_no_name.
Qed.

Lemma missing_name_is_an_error_witness :
  parseGraphQLDefinitions "query A{f} query { g }"
  = Throw "Could not parse definition name at position 17".
Proof.
  apply (missing_name_is_an_error "query A{f} query { g }" 10
           [{| type := query; filename := "A.js"; content := "query A{f}" |}] query).
  - eapply (scans_next _ 0 []); [apply scans_start | vm_compute; lia | by vm_compute].
  - vm_compute. lia.
  - by vm_compute.
  - by vm_compute.
Defined.

(** X12. When the scanner stands before a keyword and a name, a [{]
    follows, and no [}] brings the depth counted from that [{] back to
    zero, [parseGraphQLDefinitions] throws [No matching closing brace
    found for definition] followed by the name. *)
Theorem unclosed_brace_is_an_error input index definitions t :
  let i1 := skipWhile isSpace input index in
  let i3 := skipWhile isSpace input (i1 + String.length (keyword t)) in
  let name := span isNameChar (from i3 input) in
  let i5 := skipWhile (isNot "{") input (i3 + String.length name) in
  scans input index definitions →
  i1 < String.length input →
  startsWith input (keyword t) i1 = true →
  name ≠ "" →
  i5 < String.length input →
  (∀ e, ¬ closesAt input i5 e) →
  parseGraphQLDefinitions input
  = Throw ("No matching closing brace found for definition " +:+ name).
Proof.
  intros i1 i3 name i5 Hscans Hi1 Hkw Hname Hi5 Hopen.
  pose proof (skipWhile_ge isSpace input index) as Hge. fold i1 in Hge.
  apply (scans_Raise _ _ _ _ Hscans); [lia|]. by apply parseTurn_unbalanced.
Qed.

Lemma unclosed_brace_is_an_error_witness :
  parseGraphQLDefinitions "fragment F_a on T { a { b }"
  = Throw "No matching closing brace found for definition F_a".
Proof.
  apply (unclosed_brace_is_an_error "fragment F_a on T { a { b }" 0 [] fragment).
  - apply scans_start.
  - vm_compute. lia.
  - by vm_compute.
  - by vm_compute.
  - vm_compute. lia.
  - intros e (Hget & Hzero & Hpos).
    do 27 (destruct e as [|e]; [by vm_compute in Hget, Hzero|]).
    by vm_compute in Hget.
Defined.

End ScannerProperties.

(** ** Names and filenames *)

Module NameFacts.
Import Parser StringFacts ParserFacts DefinitionSplitter Names.

Lemma append_String c a b : String c a +:+ b = String c (a +:+ b).
Proof. reflexivity. Qed.

Lemma length_append a b : String.length (a +:+ b) = String.length a + String.length b.
Proof. induction a as [|c a IH]; simpl; [done|]. by rewrite IH. Qed.

Lemma from_append a b : from (String.length a) (a +:+ b) = b.
Proof. induction a as [|c a IH]; simpl; [by destruct b | done]. Qed.

Lemma substring_append a b : String.substring 0 (String.length a) (a +:+ b) = a.
Proof.
  induction a as [|c a IH]; simpl; [by destruct b|]. by rewrite IH.
Qed.

Lemma substring_from_split n s :
  n ≤ String.length s → s = String.substring 0 n s +:+ from n s.
Proof.
  revert s. induction n as [|n IH]; intros [|c s] Hn; simpl in *; try done; try lia.
  rewrite append_String, <- IH; [done | lia].
Qed.

Lemma endsWith_spec s suffix :
  endsWith s suffix = true ↔ ∃ base, s = base +:+ suffix.
Proof.
  unfold endsWith. split.
  - intros [Hlen Heq]%andb_prop. apply Nat.leb_le in Hlen. apply String.eqb_eq in Heq.
    exists (String.substring 0 (String.length s - String.length suffix) s).
    pose proof (substring_from_split (String.length s - String.length suffix) s) as Hs.
    rewrite Heq in Hs. apply Hs. lia.
  - intros [base ->]. rewrite length_append. apply andb_true_intro. split.
    + apply Nat.leb_le. lia.
    + replace (String.length base + String.length suffix - String.length suffix)
        with (String.length base) by lia.
      rewrite from_append. apply String.eqb_refl.
Qed.

Lemma indexOf_Some c s k :
  indexOf c s = Some k →
  s = String.substring 0 k s +:+ String c (from (S k) s)
  ∧ c ∉ chars (String.substring 0 k s).
Proof.
  revert k. induction s as [|d s IH]; intros k; simpl; [done|].
  destruct (Ascii.eqb_spec d c) as [->|Hne].
  - intros [= <-]. simpl. split; [done | apply not_elem_of_nil].
  - destruct (indexOf c s) as [j|]; simpl; [|done]. intros [= <-].
    destruct (IH j eq_refl) as [Hs Hc].
    change (String d s = String d (String.substring 0 j s +:+ String c (from (S j) s))
            ∧ c ∉ chars (String d (String.substring 0 j s))).
    split.
    + by rewrite <- Hs.
    + unfold chars in *. simpl. intros [?|?]%elem_of_cons; congruence.
Qed.

Lemma indexOf_None c s : indexOf c s = None → c ∉ chars s.
Proof.
  induction s as [|d s IH]; simpl; [intros _; apply not_elem_of_nil|].
  destruct (Ascii.eqb_spec d c) as [->|Hne]; [done|].
  destruct (indexOf c s); simpl; [done|]. intros _.
  unfold chars in *. simpl. intros [?|?]%elem_of_cons; [congruence | by apply IH].
Qed.

Lemma span_substring p m s :
  String.length (span p s) < m → span p (String.substring 0 m s) = span p s.
Proof.
  revert m. induction s as [|c s IH]; intros [|m]; simpl; try lia; [done|].
  destruct (p c); simpl; [|done]. intros Hlt. rewrite IH; [done | lia].
Qed.

Lemma from_substring k m s :
  k ≤ m → from k (String.substring 0 m s) = String.substring 0 (m - k) (from k s).
Proof.
  revert m s. induction k as [|k IH]; intros m s Hk.
  - by rewrite !from_0, Nat.sub_0_r.
  - destruct m as [|m]; [lia|]. destruct s as [|c s]; simpl.
    + by destruct (m - k).
    + apply IH. lia.
Qed.

Lemma span_content p input a b k :
  a + k + String.length (span p (from (a + k) input)) < b →
  span p (from k (substring input a b)) = span p (from (a + k) input).
Proof.
  intros Hlt. unfold substring.
  rewrite substring_from, from_substring, from_from by lia.
  apply span_substring. lia.
Qed.

Lemma span_Forall p s : Forall (λ c, p c = true) (chars (span p s)).
Proof.
  unfold chars. induction s as [|c s IH]; simpl; [constructor|].
  destruct (p c) eqn:Hc; simpl; by constructor.
Qed.

Lemma substring_Forall (P : ascii → Prop) k s :
  Forall P (chars s) → Forall P (chars (String.substring 0 k s)).
Proof.
  unfold chars. revert k. induction s as [|c s IH]; intros [|k] Hs; simpl;
    try constructor.
  - by inversion Hs.
  - apply IH. by inversion Hs.
Qed.

(** A definition collected by a turn has the filename computed from its
    type and from the name that stands in its content. *)
Lemma parseTurn_Next_name input index definitions index' definitions' :
  index < String.length input →
  parseTurn input index definitions = Next index' definitions' →
  definitions' = definitions
  ∨ ∃ def, definitions' = definitions ++ [def]
           ∧ definitionName def ≠ ""
           ∧ filename def = computeFilename (type def) (definitionName def).
Proof.
  intros Hlt. unfold parseTurn.
  pose proof (skipWhile_ge isSpace input index) as Hi1.
  set (i1 := skipWhile isSpace input index) in *.
  destruct (String.length input <=? i1) eqn:Hend1; [done|].
  apply Nat.leb_gt in Hend1.
  destruct (startsWith input "query" i1 || startsWith input "fragment" i1) eqn:Hkw.
  2:{ intros [= <- <-]. by left. }
  set (t := if startsWith input "query" i1 then query else fragment).
  set (i2 := i1 + String.length (keyword t)).
  pose proof (skipWhile_ge isSpace input i2) as Hi3.
  set (i3 := skipWhile isSpace input i2) in *.
  set (name := span isNameChar (from i3 input)).
  destruct (String.eqb_spec name "") as [|Hname]; [done|].
  set (i4 := i3 + String.length name).
  pose proof (skipWhile_ge (isNot "{") input i4) as Hi5.
  set (i5 := skipWhile (isNot "{") input i4) in *.
  destruct (String.length input <=? i5) eqn:Hend5; [done|].
  apply Nat.leb_gt in Hend5.
  destruct (matchBraces (from i5 input) i5 0) as [e|] eqn:Hmatch; [|done].
  intros [= <- <-]. right.
  destruct (skipWhile_stop (isNot "{") input i4 Hend5) as (c & Hc & Hp).
  fold i5 in Hc. unfold isNot in Hp. apply negb_false_iff, Ascii.eqb_eq in Hp. subst c.
  destruct (matchBraces_closesAt input i5 e Hc Hmatch) as (Hbe & _ & He).
  eexists. split; [done|].
  assert (Hdef : definitionName
                   {| type := t; filename := computeFilename t name;
                      content := substring input i1 (e + 1) |} = name).
  { unfold definitionName. cbn [type content].
    assert (Hskip : skipWhile isSpace (substring input i1 (e + 1))
                      (String.length (keyword t)) = i3 - i1).
    { unfold skipWhile at 1. rewrite span_content.
      - fold i2. unfold i3, skipWhile. lia.
      - fold i2. unfold i3, skipWhile in *. lia. }
    rewrite Hskip, span_content.
    - by replace (i1 + (i3 - i1)) with i3 by lia.
    - replace (i1 + (i3 - i1)) with i3 by lia. fold name. unfold i4 in *. lia. }
  by rewrite Hdef.
Qed.

Lemma parseLoop_Forall (P : ParsedDefinition → Prop) fuel input index definitions out :
  (∀ index definitions index' definitions',
     index < String.length input →
     parseTurn input index definitions = Next index' definitions' →
     definitions' = definitions ∨ ∃ def, definitions' = definitions ++ [def] ∧ P def) →
  Forall P definitions →
  parseLoop fuel input index definitions = Ok out →
  Forall P out.
Proof.
  intros Hturn. revert index definitions.
  induction fuel as [|n IH]; intros index definitions Hinv; [done|].
  rewrite parseLoop_unfold.
  destruct (Nat.leb_spec (String.length input) index) as [|Hlt].
  { by intros [= <-]. }
  destruct (parseTurn input index definitions) as [i' d'|d'|] eqn:Hstep; [| |done].
  - destruct (Hturn _ _ _ _ Hlt Hstep) as [->|(def & -> & Hdef)]; apply IH; [done|].
    apply Forall_app. split; [done|]. by constructor.
  - apply parseTurn_Break in Hstep as ->. by intros [= <-].
Qed.

(** The definitions returned have the filename computed from their
    type and from the name in their content. *)
Lemma parseGraphQLDefinitions_names input definitions :
  parseGraphQLDefinitions input = Ok definitions →
  Forall (λ def,
            definitionName def ≠ ""
            ∧ filename def = computeFilename (type def) (definitionName def)
            ∧ ∃ base, filename def = base +:+ ".js"
                      ∧ Forall (λ c, isNameChar c = true) (chars base))
    definitions.
Proof.
  intros Hparse.
  eapply Forall_impl.
  - eapply (parseLoop_Forall
              (λ def, definitionName def ≠ ""
                      ∧ filename def = computeFilename (type def) (definitionName def)));
      [|constructor|exact Hparse].
    intros index defs index' defs' Hlt Hturn.
    destruct (parseTurn_Next_name _ _ _ _ _ Hlt Hturn) as [->|(def & -> & ? & ?)];
      [by left | right; eauto].
  - intros def [Hname Hfile]. split_and!; [done..|].
    assert (Hchars : Forall (λ c, isNameChar c = true) (chars (definitionName def))).
    { apply span_Forall. }
    rewrite Hfile. unfold computeFilename.
    destruct (type def).
    + destruct (endsWith _ _); eexists; (split; [done|]); [|done].
      unfold substring. rewrite Nat.sub_0_r. by apply substring_Forall.
    + destruct (indexOf _ _); eexists; (split; [done|]); [|done].
      unfold substring. rewrite Nat.sub_0_r. by apply substring_Forall.
Qed.

End NameFacts.

Module NameProperties.
Import Parser StringFacts ParserFacts DefinitionSplitter Names NameFacts Examples.

(** X13. The filename of a definition. For a query it is the name
    without one trailing [Query], if the name ends so, and the whole
    name otherwise; for a fragment it is the part of the name before its
    first underscore, and the whole name if it has none; [.js] is
    appended in every case. *)
Theorem computeFilename_characterised :
  (∀ name,
     (∃ base, name = base +:+ "Query" ∧ computeFilename query name = base +:+ ".js")
     ∨ ((∀ base, name ≠ (base +:+ "Query"))
        ∧ computeFilename query name = name +:+ ".js"))
  ∧ (∀ name,
       (∃ base rest, name = base +:+ String "_" rest
                     ∧ ("_"%char ∉ chars base)
                     ∧ computeFilename fragment name = base +:+ ".js")
       ∨ (("_"%char ∉ chars name) ∧ computeFilename fragment name = name +:+ ".js")).
Proof.
  split; intros name; unfold computeFilename.
  - destruct (endsWith name "Query") eqn:Hends.
    + left. apply endsWith_spec in Hends as [base ->]. exists base. split; [done|].
      unfold substring. rewrite length_append, Nat.sub_0_r.
      replace (String.length base + String.length "Query" - String.length "Query")
        with (String.length base) by lia.
      by rewrite substring_append.
    + right. split; [|done]. intros base ->.
      assert (endsWith (base +:+ "Query") "Query" = true) by (apply endsWith_spec; eauto).
      congruence.
  - destruct (indexOf "_" name) as [k|] eqn:Hidx.
    + left. apply indexOf_Some in Hidx as [Hname Hbase].
      exists (String.substring 0 k name), (from (S k) name). split_and!; [done..|].
      unfold substring. by rewrite Nat.sub_0_r.
    + right. split; [by apply indexOf_None | done].
Qed.

(** X14. The filename of every definition returned by
    [parseGraphQLDefinitions] is the one computed from its type and from
    the name that can be read back from its content; the name is not
    empty, and the filename is made of name characters, [A-Za-z0-9_],
    followed by [.js]. *)
Theorem filename_from_content (input : string) (definitions : list ParsedDefinition) :
  parseGraphQLDefinitions input = Ok definitions →
  Forall (λ def,
            definitionName def ≠ ""
            ∧ filename def = computeFilename (type def) (definitionName def)
            ∧ ∃ base, filename def = base +:+ ".js"
                      ∧ Forall (λ c, isNameChar c = true) (chars base))
    definitions.
Proof. apply parseGraphQLDefinitions_names. Qed.

Lemma filename_from_content_witness :
  Forall (λ def,
            definitionName def ≠ ""
            ∧ filename def = computeFilename (type def) (definitionName def)
            ∧ ∃ base, filename def = base +:+ ".js"
                      ∧ Forall (λ c, isNameChar c = true) (chars base))
    [{| type := query; filename := "A.js"; content := "query A{f}" |};
     {| type := fragment; filename := "B.js"; content := "fragment B_x on T{g}" |}].
Proof.
  apply (filename_from_content scenario2). by vm_compute.
Defined.

End NameProperties.

(** ** Contents scanned again *)

Module ReparseFacts.
Import Parser StringFacts ParserFacts DefinitionSplitter Names NameFacts.

Lemma substring_full s : String.substring 0 (String.length s) s = s.
Proof. induction s as [|c s IH]; simpl; [done|]. by rewrite IH. Qed.

Lemma length_substring m s :
  m ≤ String.length s → String.length (String.substring 0 m s) = m.
Proof.
  revert s. induction m as [|m IH]; intros [|c s] Hm; simpl in *; try done; try lia.
  rewrite IH; lia.
Qed.

Lemma prefix_substring w m s :
  String.length w ≤ m →
  String.prefix w (String.substring 0 m s) = String.prefix w s.
Proof.
  revert m s. induction w as [|c w IH]; intros m s Hm.
  - by destruct (String.substring 0 m s), s.
  - simpl in Hm. destruct m as [|m]; [lia|]. destruct s as [|d s]; [done|].
    simpl. destruct (ascii_dec c d); [|done]. apply IH. lia.
Qed.

Lemma matchBraces_shift rest index d count :
  matchBraces rest (index + d) count = (λ e, e + d) <$> matchBraces rest index count.
Proof.
  revert index count. induction rest as [|c rest IH]; intros index count; simpl; [done|].
  destruct (Ascii.eqb c "{"); [apply (IH (S index))|].
  destruct (Ascii.eqb c "}"); [|apply (IH (S index))].
  destruct (count - 1 =? 0)%Z; [done | apply (IH (S index))].
Qed.

Lemma matchBraces_substring rest index count e m :
  matchBraces rest index count = Some e →
  e - index < m →
  matchBraces (String.substring 0 m rest) index count = Some e.
Proof.
  revert index count m. induction rest as [|c rest IH]; intros index count m; [done|].
  cbn [matchBraces]. intros Hmatch Hm. destruct m as [|m]; [lia|].
  cbn [String.substring matchBraces].
  assert (Hge : ∀ count', matchBraces rest (S index) count' = Some e → S index ≤ e).
  { intros count'. replace (S index) with (0 + S index) by lia.
    rewrite matchBraces_shift. destruct (matchBraces rest 0 count'); simpl; [|done].
    intros [= <-]. lia. }
  destruct (Ascii.eqb c "{").
  { pose proof (Hge _ Hmatch). apply IH; [done | lia]. }
  destruct (Ascii.eqb c "}").
  - destruct (count - 1 =? 0)%Z; [done|].
    pose proof (Hge _ Hmatch). apply IH; [done | lia].
  - pose proof (Hge _ Hmatch). apply IH; [done | lia].
Qed.

Lemma span_at_stop p i s c :
  String.get i s = Some c → p c = false → span p (from i s) = "".
Proof.
  intros Hget Hp. rewrite <- (Nat.add_0_r i), <- get_from in Hget.
  destruct (from i s) as [|d r]; simpl in *; [done|]. simplify_eq. by rewrite Hp.
Qed.

Lemma skipWhile_content p input a b k :
  a + k ≤ skipWhile p input (a + k) → skipWhile p input (a + k) < b →
  skipWhile p (substring input a b) k = skipWhile p input (a + k) - a.
Proof.
  unfold skipWhile. intros _ Hlt. rewrite span_content; lia.
Qed.

Lemma length_content input a b :
  a ≤ b → b ≤ String.length input → String.length (substring input a b) = b - a.
Proof.
  intros Hab Hb. unfold substring. rewrite substring_from, length_substring; [done|].
  rewrite from_length. lia.
Qed.

Lemma startsWith_content input a b w :
  String.length w ≤ b - a →
  startsWith (substring input a b) w 0 = startsWith input w a.
Proof.
  intros Hw. unfold startsWith, substring. rewrite from_0, substring_from.
  by apply prefix_substring.
Qed.

Lemma keyword_length t : 5 ≤ String.length (keyword t) ≤ 8.
Proof. destruct t; simpl; lia. Qed.

(** A definition collected by a turn is what the scanner returns for
    its content. *)
Lemma parseTurn_Next_reparse input index definitions index' definitions' :
  index < String.length input →
  parseTurn input index definitions = Next index' definitions' →
  definitions' = definitions
  ∨ ∃ def, definitions' = definitions ++ [def]
           ∧ parseGraphQLDefinitions (content def) = Ok [def].
Proof.
  intros Hlt. unfold parseTurn at 1.
  pose proof (skipWhile_ge isSpace input index) as Hi1.
  set (i1 := skipWhile isSpace input index) in *.
  destruct (String.length input <=? i1) eqn:Hend1; [done|].
  apply Nat.leb_gt in Hend1.
  destruct (startsWith input "query" i1 || startsWith input "fragment" i1) eqn:Hkw.
  2:{ intros [= <- <-]. by left. }
  set (t := if startsWith input "query" i1 then query else fragment).
  set (i2 := i1 + String.length (keyword t)).
  pose proof (skipWhile_ge isSpace input i2) as Hi3.
  set (i3 := skipWhile isSpace input i2) in *.
  set (name := span isNameChar (from i3 input)).
  destruct (String.eqb_spec name "") as [|Hname]; [done|].
  set (i4 := i3 + String.length name).
  pose proof (skipWhile_ge (isNot "{") input i4) as Hi5.
  set (i5 := skipWhile (isNot "{") input i4) in *.
  destruct (String.length input <=? i5) eqn:Hend5; [done|].
  apply Nat.leb_gt in Hend5.
  destruct (matchBraces (from i5 input) i5 0) as [e|] eqn:Hmatch; [|done].
  intros [= <- <-]. right. eexists. split; [done|]. cbn [content].
  destruct (skipWhile_stop (isNot "{") input i4 Hend5) as (c & Hc & Hp).
  fold i5 in Hc. unfold isNot in Hp. apply negb_false_iff, Ascii.eqb_eq in Hp. subst c.
  destruct (matchBraces_closesAt input i5 e Hc Hmatch) as (Hbe & _ & He).
  destruct (skipWhile_stop isSpace input index Hend1) as (c1 & Hc1 & Hp1). fold i1 in Hc1.
  pose proof (keyword_length t) as Hkwlen.
  assert (Hname_len : 0 < String.length name) by (destruct name; simpl; [done | lia]).
  set (C := substring input i1 (e + 1)).
  assert (HlenC : String.length C = e + 1 - i1) by (apply length_content; lia).
  assert (H1 : skipWhile isSpace C 0 = 0).
  { unfold C. rewrite skipWhile_content; rewrite Nat.add_0_r.
    - unfold skipWhile. rewrite (span_at_stop _ _ _ _ Hc1 Hp1). simpl. lia.
    - apply skipWhile_ge.
    - unfold skipWhile. rewrite (span_at_stop _ _ _ _ Hc1 Hp1). simpl. lia. }
  assert (Hq : startsWith C "query" 0 = startsWith input "query" i1).
  { apply startsWith_content. simpl. unfold i2, i4 in *. lia. }
  assert (Hf : startsWith C "fragment" 0 = startsWith input "fragment" i1).
  { apply startsWith_content. simpl. unfold i2, i4 in *. lia. }
  assert (H3 : skipWhile isSpace C (String.length (keyword t)) = i3 - i1).
  { unfold C. rewrite skipWhile_content; fold i2; fold i3; lia. }
  assert (Hn : span isNameChar (from (i3 - i1) C) = name).
  { unfold C. rewrite span_content; replace (i1 + (i3 - i1)) with i3 by lia; [done|].
    fold name. unfold i4 in *. lia. }
  assert (H5 : skipWhile (isNot "{") C (i3 - i1 + String.length name) = i5 - i1).
  { unfold C. replace (i3 - i1 + String.length name) with (i4 - i1) by (unfold i4; lia).
    rewrite skipWhile_content; replace (i1 + (i4 - i1)) with i4 by lia; fold i5; lia. }
  assert (Hm : matchBraces (from (i5 - i1) C) (i5 - i1) 0 = Some (e - i1)).
  { unfold C, substring.
    rewrite substring_from, from_substring, from_from by lia.
    replace (i1 + (i5 - i1)) with i5 by lia.
    set (R := String.substring 0 (e + 1 - i1 - (i5 - i1)) (from i5 input)).
    assert (Hsub : matchBraces R i5 0 = Some e).
    { apply matchBraces_substring; [done | lia]. }
    pose proof (matchBraces_shift R (i5 - i1) i1 0) as Hshift.
    replace (i5 - i1 + i1) with i5 in Hshift by lia. rewrite Hsub in Hshift.
    destruct (matchBraces R (i5 - i1) 0) as [e'|]; simpl in Hshift; [|done].
    injection Hshift as ->. f_equal. lia. }
  assert (Hturn : parseTurn C 0 []
                  = Next (e - i1 + 1)
                      [{| type := t; filename := computeFilename t name; content := C |}]).
  { unfold parseTurn. rewrite H1.
    destruct (Nat.leb_spec (String.length C) 0) as [|_]; [lia|].
    rewrite Hq, Hf, Hkw. fold t. rewrite Nat.add_0_l, H3, Hn.
    destruct (String.eqb_spec name "") as [|_]; [done|].
    rewrite H5.
    destruct (Nat.leb_spec (String.length C) (i5 - i1)) as [|_]; [lia|].
    rewrite Hm. simpl. do 3 f_equal.
    unfold substring at 1. rewrite Nat.sub_0_r.
    replace (e - i1 + 1) with (String.length C) by lia. apply substring_full. }
  unfold parseGraphQLDefinitions. rewrite parseLoop_unfold.
  destruct (Nat.leb_spec (String.length C) 0) as [|_]; [lia|].
  rewrite Hturn. destruct (String.length C) as [|n] eqn:Hn'; [lia|].
  rewrite parseLoop_unfold.
  destruct (Nat.leb_spec (String.length C) (e - i1 + 1)) as [|]; [done | lia].
Qed.

End ReparseFacts.

Module ReparseProperties.
Import Parser StringFacts ParserFacts DefinitionSplitter Names NameFacts ReparseFacts
  Examples.

(** X24. Every definition that [parseGraphQLDefinitions] returns is
    what it returns, alone, for the content of that definition: the
    content holds all that the scanner used of the input. *)
Theorem content_parses_to_its_definition
    (input : string) (definitions : list ParsedDefinition) :
  parseGraphQLDefinitions input = Ok definitions →
  Forall (λ def, parseGraphQLDefinitions (content def) = Ok [def]) definitions.
Proof.
  intros Hparse.
  eapply (parseLoop_Forall
            (λ def, parseGraphQLDefinitions (content def) = Ok [def]));
    [|constructor|exact Hparse].
  intros index defs index' defs' Hlt Hturn.
  by apply (parseTurn_Next_reparse _ _ _ _ _ Hlt Hturn).
Qed.

Lemma content_parses_to_its_definition_witness :
  Forall (λ def, parseGraphQLDefinitions (content def) = Ok [def])
    [{| type := query; filename := "A.js"; content := "query A{f}" |};
     {| type := fragment; filename := "B.js"; content := "fragment B_x on T{g}" |}].
Proof.
  apply (content_parses_to_its_definition scenario2). by vm_compute.
Defined.

End ReparseProperties.

(** ** Text before the definitions *)

Module PrefixFacts.
Import Parser StringFacts ParserFacts DefinitionSplitter ScannerFacts NameFacts ReparseFacts.

Lemma from_shift junk rest i :
  from (String.length junk + i) (junk +:+ rest) = from i rest.
Proof. by rewrite <- from_from, from_append. Qed.

Lemma skipWhile_shift p junk rest i :
  skipWhile p (junk +:+ rest) (String.length junk + i)
  = String.length junk + skipWhile p rest i.
Proof. unfold skipWhile. rewrite from_shift. lia. Qed.

Lemma startsWith_shift junk rest w i :
  startsWith (junk +:+ rest) w (String.length junk + i) = startsWith rest w i.
Proof. unfold startsWith. by rewrite from_shift. Qed.

Lemma substring_shift junk rest a b :
  substring (junk +:+ rest) (String.length junk + a) (String.length junk + b)
  = substring rest a b.
Proof.
  unfold substring. rewrite (substring_from (String.length junk + a)), from_shift.
  rewrite (substring_from a). f_equal. lia.
Qed.

Lemma leb_shift k a b : (k + a <=? k + b) = (a <=? b).
Proof.
  destruct (Nat.leb_spec a b); [apply Nat.leb_le | apply Nat.leb_gt]; lia.
Qed.

(** A turn on [rest] is the same turn on [junk +:+ rest], further on
    by the length of [junk]. *)
Lemma parseTurn_shift junk rest i definitions :
  match parseTurn rest i definitions with
  | Next i' definitions' =>
      parseTurn (junk +:+ rest) (String.length junk + i) definitions
      = Next (String.length junk + i') definitions'
  | Break definitions' =>
      parseTurn (junk +:+ rest) (String.length junk + i) definitions = Break definitions'
  | Raise _ =>
      ∃ message,
        parseTurn (junk +:+ rest) (String.length junk + i) definitions = Raise message
  end.
Proof.
  unfold parseTurn. cbv zeta.
  rewrite length_append, skipWhile_shift. set (i1 := skipWhile isSpace rest i).
  rewrite leb_shift. destruct (String.length rest <=? i1); [done|].
  rewrite !startsWith_shift.
  destruct (startsWith rest "query" i1 || startsWith rest "fragment" i1);
    [|f_equal; lia].
  set (t := if startsWith rest "query" i1 then query else fragment).
  replace (String.length junk + i1 + String.length (keyword t))
    with (String.length junk + (i1 + String.length (keyword t))) by lia.
  rewrite skipWhile_shift. set (i3 := skipWhile isSpace rest _).
  rewrite from_shift. set (name := span isNameChar (from i3 rest)).
  destruct (String.eqb name ""); [by eexists|].
  replace (String.length junk + i3 + String.length name)
    with (String.length junk + (i3 + String.length name)) by lia.
  rewrite skipWhile_shift. set (i5 := skipWhile (isNot "{") rest _).
  rewrite leb_shift. destruct (String.length rest <=? i5); [done|].
  rewrite from_shift, (Nat.add_comm (String.length junk) i5), matchBraces_shift.
  destruct (matchBraces (from i5 rest) i5 0) as [e|]; simpl; [|by eexists].
  replace (e + String.length junk + 1) with (String.length junk + (e + 1)) by lia.
  by rewrite substring_shift.
Qed.

Lemma parseLoop_shift fuel junk rest i definitions :
  match parseLoop fuel rest i definitions with
  | Ok out =>
      parseLoop fuel (junk +:+ rest) (String.length junk + i) definitions = Ok out
  | Throw _ =>
      ∃ message,
        parseLoop fuel (junk +:+ rest) (String.length junk + i) definitions
        = Throw message
  | OutOfFuel => True
  end.
Proof.
  revert i definitions. induction fuel as [|n IH]; intros i definitions; [done|].
  rewrite !parseLoop_unfold, length_append, leb_shift.
  destruct (String.length rest <=? i); [done|].
  pose proof (parseTurn_shift junk rest i definitions) as Hturn.
  destruct (parseTurn rest i definitions) as [i' d'|d'|m].
  - rewrite Hturn. apply IH.
  - by rewrite Hturn.
  - destruct Hturn as [m' ->]. by eexists.
Qed.

Lemma span_from p s m :
  m ≤ String.length (span p s) →
  m + String.length (span p (from m s)) = String.length (span p s).
Proof.
  revert s. induction m as [|m IH]; intros s Hm; [by rewrite from_0|].
  destruct s as [|c s]; simpl in *; [lia|].
  destruct (p c); simpl in *; [|lia]. rewrite <- (IH s); lia.
Qed.

Lemma skipWhile_between p s i k :
  i ≤ k → k ≤ skipWhile p s i → skipWhile p s k = skipWhile p s i.
Proof.
  unfold skipWhile. intros Hik Hk.
  pose proof (span_from p (from i s) (k - i)) as Hspan.
  rewrite from_from in Hspan. replace (i + (k - i)) with k in Hspan by lia. lia.
Qed.

(** A turn reads its index only through the white space skipped. *)
Lemma parseTurn_same s j k definitions :
  skipWhile isSpace s j = skipWhile isSpace s k →
  parseTurn s j definitions = parseTurn s k definitions.
Proof. unfold parseTurn. cbv zeta. by intros ->. Qed.

Lemma parseLoop_same s j k definitions :
  j ≤ k →
  skipWhile isSpace s j = skipWhile isSpace s k →
  parseLoop (S (String.length s - j)) s j definitions
  = parseLoop (S (String.length s - k)) s k definitions.
Proof.
  intros Hjk Hskip. rewrite !parseLoop_unfold.
  destruct (Nat.leb_spec (String.length s) j) as [|Hj].
  { destruct (Nat.leb_spec (String.length s) k); [done | lia]. }
  destruct (Nat.leb_spec (String.length s) k) as [Hk|Hk].
  - unfold parseTurn. cbv zeta. rewrite Hskip.
    pose proof (skipWhile_ge isSpace s k).
    destruct (Nat.leb_spec (String.length s) (skipWhile isSpace s k)); [done | lia].
  - rewrite (parseTurn_same s j k) by done.
    destruct (parseTurn s k definitions) as [i' d'| |] eqn:Hturn; [|done..].
    apply parseTurn_Next in Hturn as [Hadv _]; [|done].
    apply parseLoop_stable; lia.
Qed.

Section Junk.
Variables junk rest : string.
Hypothesis Hjunk :
  ∀ i, i < String.length junk →
       startsWith (junk +:+ rest) "query" i = false
       ∧ startsWith (junk +:+ rest) "fragment" i = false.

(** The scan of [junk +:+ rest] reaches a loop head from which it goes
    on as from the end of [junk], with nothing collected. *)
Lemma scans_junk n i :
  String.length junk - i ≤ n → i ≤ String.length junk →
  scans (junk +:+ rest) i [] →
  ∃ j, j ≤ String.length junk
       ∧ scans (junk +:+ rest) j []
       ∧ skipWhile isSpace (junk +:+ rest) j
         = skipWhile isSpace (junk +:+ rest) (String.length junk).
Proof.
  revert i. induction n as [|n IH]; intros i Hn Hi Hscans.
  { exists i. replace i with (String.length junk) in * by lia. done. }
  destruct (decide (i = String.length junk)) as [->|Hne]; [by eexists|].
  destruct (decide (skipWhile isSpace (junk +:+ rest) i < String.length junk))
    as [Hlt|Hge].
  - destruct (Hjunk _ Hlt) as [Hq Hf].
    assert (Hlen : String.length (junk +:+ rest) = String.length junk + String.length rest)
      by apply length_append.
    pose proof (skipWhile_ge isSpace (junk +:+ rest) i).
    apply (IH (skipWhile isSpace (junk +:+ rest) i + 1)); [lia..|].
    eapply (scans_next _ i []); [done | lia |].
    apply parseTurn_no_keyword; [lia | done..].
  - exists i. split; [done|]. split; [done|].
    symmetry. apply skipWhile_between; lia.
Qed.

Lemma parseGraphQLDefinitions_junk :
  match parseGraphQLDefinitions rest with
  | Ok out => parseGraphQLDefinitions (junk +:+ rest) = Ok out
  | Throw _ => ∃ message, parseGraphQLDefinitions (junk +:+ rest) = Throw message
  | OutOfFuel => False
  end.
Proof.
  destruct (scans_junk (String.length junk) 0) as (j & Hj & Hscans & Hskip);
    [lia.. | constructor |].
  rewrite (scans_parseLoop _ _ _ Hscans), (parseLoop_same _ j (String.length junk))
    by done.
  rewrite length_append.
  replace (String.length junk + String.length rest - String.length junk)
    with (String.length rest) by lia.
  pose proof (parseLoop_shift (S (String.length rest)) junk rest 0 []) as Hshift.
  rewrite Nat.add_0_r in Hshift.
  pose proof (parseGraphQLDefinitions_returns rest) as Hret.
  unfold parseGraphQLDefinitions in *.
  by destruct (parseLoop (S (String.length rest)) rest 0 []).
Qed.

End Junk.
End PrefixFacts.

Module PrefixProperties.
Import Parser StringFacts DefinitionSplitter PrefixFacts Examples.

(** X29. Text before the definitions is skipped: if no [query] and no
    [fragment] starts inside [junk], the scanner returns for
    [junk +:+ rest] the definitions it returns for [rest], with the same
    contents and filenames, and throws on the one exactly when it throws
    on the other. *)
Theorem text_before_the_definitions_is_skipped (junk rest : string) :
  (∀ i, i < String.length junk →
        startsWith (junk +:+ rest) "query" i = false
        ∧ startsWith (junk +:+ rest) "fragment" i = false) →
  (∀ definitions,
     parseGraphQLDefinitions (junk +:+ rest) = Ok definitions
     ↔ parseGraphQLDefinitions rest = Ok definitions)
  ∧ ((∃ message, parseGraphQLDefinitions (junk +:+ rest) = Throw message)
     ↔ (∃ message, parseGraphQLDefinitions rest = Throw message)).
Proof.
  intros Hjunk. pose proof (parseGraphQLDefinitions_junk junk rest Hjunk) as H.
  destruct (parseGraphQLDefinitions rest) as [out|m|]; [| |done].
  - rewrite H. split; [done|]. split; intros [? ?]; done.
  - destruct H as [m' ->]. split; [done|]. split; intros _; by eexists.
Qed.

Lemma text_before_the_definitions_is_skipped_witness :
  parseGraphQLDefinitions ("// note: " +:+ "query AQuery { a }")
  = Ok [{| type := query; filename := "A.js"; content := "query AQuery { a }" |}].
Proof.
  apply (text_before_the_definitions_is_skipped "// note: " "query AQuery { a }").
  - intros i Hi. do 9 (destruct i as [|i]; [by vm_compute|]). simpl in Hi. lia.
  - reflexivity.
Defined.

End PrefixProperties.

(** ** Groups and files *)

Module GroupFacts.
Import Parser Merge JsFacts SortFacts KeyFacts MergeFacts Names.

Lemma concat_perm {A} (l1 l2 : list (list A)) : l1 ≡ₚ l2 → concat l1 ≡ₚ concat l2.
Proof.
  induction 1 as [|x l1 l2 _ IH|x y l|l1 l2 l3 _ IH1 _ IH2]; simpl.
  - done.
  - by rewrite IH.
  - rewrite !app_assoc. by rewrite (Permutation_app_comm y x).
  - by rewrite IH1.
Qed.

Lemma concat_map_perm {A B} (f g : A → list B) l :
  (∀ x, f x ≡ₚ g x) → concat (map f l) ≡ₚ concat (map g l).
Proof.
  intros Hfg. induction l as [|x l IH]; simpl; [done|]. by rewrite Hfg, IH.
Qed.

Lemma concat_set {A} k (old : list A) x (m : list (string * list A)) :
  default [] (Js.get k m) = old →
  concat (map snd (Js.set k (old ++ [x]) m)) ≡ₚ x :: concat (map snd m).
Proof.
  induction m as [|[k0 v0] m IH]; simpl.
  - intros <-. simpl. done.
  - destruct (String.eqb_spec k0 k) as [->|Hne]; simpl.
    + intros <-. rewrite <- app_assoc. simpl.
      by rewrite <- Permutation_middle.
    + intros Hold. rewrite (IH Hold). by rewrite <- Permutation_middle.
Qed.

Lemma concat_grouped definitions :
  concat (map snd (grouped definitions)) ≡ₚ definitions.
Proof.
  unfold grouped.
  assert (Hgen : ∀ acc, concat (map snd (foldl pushed acc definitions))
                        ≡ₚ concat (map snd acc) ++ definitions).
  { induction definitions as [|def definitions IH]; intros acc; simpl.
    - by rewrite app_nil_r.
    - rewrite IH. unfold pushed. rewrite concat_set; [|done].
      by rewrite <- Permutation_middle. }
  by rewrite Hgen.
Qed.

(** *** Filenames that end in [.js] *)

Lemma chars_js base : "."%char ∈ chars (base +:+ ".js").
Proof. induction base as [|c base IH]; [left|by right]. Qed.

Lemma inObjectPrototype_chars key :
  Js.inObjectPrototype key = true → "."%char ∉ chars key.
Proof.
  unfold Js.inObjectPrototype. intros [Hkey|Hkey]%orb_true_iff.
  - apply String.eqb_eq in Hkey as ->. apply (bool_decide_eq_false_1 _). by vm_compute.
  - apply bool_decide_eq_true in Hkey. unfold Js.objectPrototypeMethods in Hkey.
    repeat (apply elem_of_cons in Hkey as [->|Hkey];
            [apply (bool_decide_eq_false_1 _); by vm_compute|]).
    by apply elem_of_nil in Hkey.
Qed.

Lemma inObjectPrototype_js base : Js.inObjectPrototype (base +:+ ".js") = false.
Proof.
  destruct (Js.inObjectPrototype (base +:+ ".js")) eqn:Hin; [|done].
  apply inObjectPrototype_chars in Hin. destruct Hin. apply chars_js.
Qed.

Lemma digits_chars s acc n :
  Js.digits acc s = Some n → Forall (λ c, Js.digit c ≠ None) (chars s).
Proof.
  revert acc. induction s as [|c s IH]; intros acc; simpl; [constructor|].
  destruct (Js.digit c) as [d|] eqn:Hd; [|done].
  intros Hs. constructor; [congruence|]. by eapply IH.
Qed.

Lemma arrayIndex_js base : Js.arrayIndex (base +:+ ".js") = None.
Proof.
  destruct (Js.arrayIndex (base +:+ ".js")) as [n|] eqn:Hidx; [|done].
  exfalso. unfold Js.arrayIndex in Hidx.
  assert (Hall : Forall (λ c, Js.digit c ≠ None) (chars (base +:+ ".js"))).
  { repeat case_match; simplify_eq; by eapply digits_chars. }
  rewrite Forall_forall in Hall. by apply (Hall _ (chars_js base)).
Qed.

Section WithLocale.
Context {locale : Locale}.

Lemma concat_arranged definitions :
  concat (map snd (arranged definitions)) ≡ₚ definitions.
Proof.
  rewrite (concat_perm _ _ (Permutation_map snd (arranged_perm definitions))).
  rewrite map_map. unfold ordered. simpl.
  rewrite (concat_map_perm _ snd); [apply concat_grouped|].
  intros x. apply sort_perm.
Qed.

Lemma arranged_contents definitions :
  Forall (λ entry, entry.2 = Js.sort compareDefinitions (group entry.1 definitions))
    (arranged definitions).
Proof.
  apply Forall_forall. intros e He. rewrite arranged_eq, sort_perm in He.
  by apply elem_of_ordered_groups in He as [He _].
Qed.

Import Locales.

Lemma arranged_complete definitions :
  NoDup (map merged_filename (map render (arranged definitions)))
  ∧ (∀ f, f ∈ map merged_filename (map render (arranged definitions))
          ↔ f ∈ map filename definitions)
  ∧ Forall (λ file,
              merged_content file
              = Json.join newline
                  (map wrap (Js.sort compareDefinitions
                               (group (merged_filename file) definitions))))
      (map render (arranged definitions))
  ∧ concat (map snd (arranged definitions)) ≡ₚ definitions.
Proof.
  assert (Hnames : map merged_filename (map render (arranged definitions))
                   = map fst (arranged definitions)) by by rewrite map_map.
  split_and!.
  - rewrite Hnames. apply keys_arranged.
  - intros f. rewrite Hnames. apply names_arranged.
  - rewrite Forall_map. eapply Forall_impl; [apply arranged_contents|].
    intros e He. simpl. by rewrite He.
  - apply concat_arranged.
Qed.

Context {engine : Engine}.

(** The filenames that the scanner computes can all be pushed. *)
Lemma parseGraphQLDefinitions_pushable input definitions :
  parseGraphQLDefinitions input = Ok definitions → pushable definitions = true.
Proof.
  intros Hparse%NameFacts.parseGraphQLDefinitions_names.
  apply pushable_Forall. eapply Forall_impl; [done|].
  intros def (_ & _ & base & -> & _). apply inObjectPrototype_js.
Qed.

Lemma mergedFiles_Ok operations files :
  CompileRelay.mergedFiles operations = Ok files →
  NoDup (map merged_filename files)
  ∧ Forall (λ file, ∃ base, merged_filename file = base +:+ ".js"
                            ∧ Forall (λ c, isNameChar c = true) (Names.chars base))
      files.
Proof.
  unfold CompileRelay.mergedFiles.
  destruct (parseGraphQLDefinitions operations) as [definitions| |] eqn:Hparse;
    simpl; [|done..].
  rewrite mergeDefinitions_eq. destruct (pushable definitions); [|done].
  intros [= <-].
  destruct (arranged_complete definitions) as (Hnd & Hnames & _ & _).
  split; [done|]. apply Forall_forall. intros file Hfile.
  assert (Hin : merged_filename file ∈ map filename definitions).
  { apply Hnames, list_elem_of_fmap. eauto. }
  apply list_elem_of_fmap in Hin as (def & -> & Hdef).
  pose proof (NameFacts.parseGraphQLDefinitions_names _ _ Hparse) as Hall.
  rewrite Forall_forall in Hall. by destruct (Hall _ Hdef) as (_ & _ & Hbase).
Qed.

End WithLocale.
End GroupFacts.

Module GrouperProperties.
Import Parser Merge JsFacts SortFacts KeyFacts MergeFacts GroupFacts Locales
  LocaleFacts Examples.
Import Names NameFacts CompileRelay.

(** X15. [mergeDefinitions] throws a [TypeError] when a filename is
    the name of a property of [Object.prototype]. Otherwise it loses and
    repeats nothing, whatever the collation: there is exactly one file
    for every filename of the input, and the definitions of all the
    groups together are those of the input; and under a collation that
    orders all strings the content of a file is the wrapped contents,
    joined by newlines, of the definitions that have its filename,
    sorted. *)
Theorem mergeDefinitions_keeps_every_definition {locale : Locale} {engine : Engine}
    (definitions : list ParsedDefinition) :
  (Exists (λ def, Js.inObjectPrototype (filename def) = true) definitions →
   mergeDefinitions definitions = Throw notAFunction)
  ∧ (Forall (λ def, Js.inObjectPrototype (filename def) = false) definitions →
     ∃ files groups,
       mergeDefinitions definitions = Ok files
       ∧ sortedGroups definitions = Ok groups
       ∧ NoDup (map merged_filename files)
       ∧ (∀ f, f ∈ map merged_filename files ↔ f ∈ map filename definitions)
       ∧ concat (map snd groups) ≡ₚ definitions
       ∧ (Collation locale →
          Forall (λ file,
                    merged_content file
                    = Json.join newline
                        (map wrap (Js.sort compareDefinitions
                                     (group (merged_filename file) definitions))))
            files)).
Proof.
  split.
  - intros Hex%pushable_Exists. by rewrite mergeDefinitions_eq, Hex.
  - intros Hall%pushable_Forall.
    exists (map render (arranged definitions)), (arranged definitions).
    rewrite mergeDefinitions_eq, sortedGroups_eq, Hall.
    destruct (arranged_complete definitions) as (Hnd & Hnames & Hcontent & Hperm).
    done.
Qed.

Lemma mergeDefinitions_keeps_every_definition_witness :
  mergeDefinitions (locale := ordinal) (engine := anEngine) inheritedFilename
  = Throw "acc[def.filename].push is not a function"
  ∧ ∃ files,
      mergeDefinitions (locale := ordinal) (engine := anEngine) threeDefinitions
      = Ok files
      ∧ NoDup (map merged_filename files)
      ∧ "a.js" ∈ map merged_filename files
      ∧ Forall (λ file,
                  merged_content file
                  = Json.join newline
                      (map wrap (Js.sort (compareDefinitions (locale := ordinal))
                                   (group (merged_filename file) threeDefinitions))))
          files.
Proof.
  split.
  - apply (proj1 (mergeDefinitions_keeps_every_definition
                    (locale := ordinal) (engine := anEngine) inheritedFilename)).
    by left.
  - destruct (proj2 (mergeDefinitions_keeps_every_definition
                       (locale := ordinal) (engine := anEngine) threeDefinitions))
      as (files & groups & Hfiles & _ & Hnd & Hnames & _ & Hcontent).
    + repeat constructor.
    + exists files. split_and!; [done..| |].
      * apply Hnames. simpl. do 2 right. left.
      * apply Hcontent, ConsistentLocale_collation, ordinal_consistent.
Defined.

(** X16. The files that [compileRelay] writes, when the scanner returns:
    no two have the same name, and every name is made of name
    characters, [A-Za-z0-9_], followed by [.js], so that it names a file
    directly in the source directory. *)
Theorem mergedFiles_names {locale : Locale} {engine : Engine}
    (operations : string) (files : list MergedDefinition) :
  mergedFiles operations = Ok files →
  NoDup (map merged_filename files)
  ∧ Forall (λ file, ∃ base, merged_filename file = base +:+ ".js"
                            ∧ Forall (λ c, isNameChar c = true) (chars base))
      files.
Proof. apply mergedFiles_Ok. Qed.

Lemma mergedFiles_names_witness :
  ∃ files,
    mergedFiles (locale := ordinal) (engine := anEngine) scenario2 = Ok files
    ∧ NoDup (map merged_filename files)
    ∧ Forall (λ file, ∃ base, merged_filename file = base +:+ ".js"
                              ∧ Forall (λ c, isNameChar c = true) (chars base))
        files.
Proof.
  eexists. split; [by vm_compute|].
  apply (mergedFiles_names (locale := ordinal) (engine := anEngine) scenario2).
  by vm_compute.
Defined.

(** X31. The grouper does not throw on what the scanner returns, since
    no filename that ends in [.js] is the name of a property of
    [Object.prototype]: when the scanner returns its definitions,
    [mergedFiles] returns files, those of [mergeDefinitions]; and when
    the scanner throws, [mergedFiles] throws the same. *)
Theorem mergedFiles_returns {locale : Locale} {engine : Engine} (operations : string) :
  match parseGraphQLDefinitions operations with
  | Ok definitions =>
      ∃ files, mergedFiles operations = Ok files
               ∧ mergeDefinitions definitions = Ok files
  | Throw message => mergedFiles operations = Throw message
  | OutOfFuel => mergedFiles operations = OutOfFuel
  end.
Proof.
  unfold mergedFiles.
  destruct (parseGraphQLDefinitions operations) as [definitions| |] eqn:Hparse;
    simpl; [|done..].
  apply parseGraphQLDefinitions_pushable in Hparse.
  rewrite mergeDefinitions_eq, Hparse. by eexists.
Qed.

End GrouperProperties.

(** ** Queries and their fragments *)

Module ColocationFacts.
Import Parser Merge StringFacts Names NameFacts.

Lemma indexOf_append c base rest :
  c ∉ chars base → indexOf c (base +:+ String c rest) = Some (String.length base).
Proof.
  unfold chars. induction base as [|d base IH]; simpl list_ascii_of_string; intros Hc.
  - change ("" +:+ String c rest) with (String c rest). simpl.
    by rewrite Ascii.eqb_refl.
  - rewrite append_String. simpl.
    destruct (Ascii.eqb_spec d c) as [->|Hne]; [destruct Hc; left|].
    rewrite IH; [done|]. intros ?. apply Hc. by right.
Qed.

Lemma computeFilename_query base :
  computeFilename query (base +:+ "Query") = base +:+ ".js".
Proof.
  unfold computeFilename.
  assert (Hends : endsWith (base +:+ "Query") "Query" = true).
  { apply endsWith_spec. eauto. }
  rewrite Hends. unfold substring. rewrite length_append, Nat.sub_0_r.
  replace (String.length base + String.length "Query" - String.length "Query")
    with (String.length base) by lia.
  by rewrite substring_append.
Qed.

Lemma computeFilename_fragment base rest :
  "_"%char ∉ chars base →
  computeFilename fragment (base +:+ String "_" rest) = base +:+ ".js".
Proof.
  intros Hbase. unfold computeFilename. rewrite indexOf_append by done.
  unfold substring. by rewrite Nat.sub_0_r, substring_append.
Qed.

End ColocationFacts.

Module ColocationProperties.
Import Parser Merge StringFacts Names NameFacts MergeFacts GroupFacts ColocationFacts
  Locales.

(** X25. A query named [N] followed by [Query] and a fragment named
    [N], an underscore and anything, [N] without underscore, go to the
    one file [N.js], the query first, in whatever order they are given
    and under any collation. *)
Theorem query_and_fragment_share_a_file {locale : Locale} {engine : Engine}
    (base rest contentQ contentF : string) :
  "_"%char ∉ chars base →
  let q := {| type := query;
              filename := computeFilename query (base +:+ "Query");
              content := contentQ |} in
  let f := {| type := fragment;
              filename := computeFilename fragment (base +:+ String "_" rest);
              content := contentF |} in
  let file := {| merged_filename := base +:+ ".js";
                 merged_content := wrap q +:+ newline +:+ wrap f |} in
  mergeDefinitions [q; f] = Ok [file] ∧ mergeDefinitions [f; q] = Ok [file].
Proof.
  intros Hbase q f file. unfold q, f, file.
  rewrite computeFilename_query, computeFilename_fragment by done.
  rewrite !mergeDefinitions_eq. unfold pushable. cbn [forallb filename].
  rewrite inObjectPrototype_js. cbn [negb andb].
  unfold arranged, grouped, pushed.
  cbn [foldl filename Js.get Js.set default]. rewrite !String.eqb_refl.
  cbn [app default].
  rewrite !entries_names by (repeat constructor; apply arrayIndex_js).
  cbn [Js.sort Js.insertSorted map fst snd app default ordered].
  unfold compareDefinitions. cbn [type]. simpl (_ <=? _)%Z. cbv iota.
  by split.
Qed.

Lemma query_and_fragment_share_a_file_witness :
  let q := {| type := query; filename := computeFilename query ("User" +:+ "Query");
              content := "query UserQuery{f}" |} in
  let f := {| type := fragment;
              filename := computeFilename fragment ("User" +:+ String "_" "name");
              content := "fragment User_name on User{g}" |} in
  let file := {| merged_filename := "User" +:+ ".js";
                 merged_content := wrap q +:+ newline +:+ wrap f |} in
  mergeDefinitions (locale := ordinal) (engine := anEngine) [q; f] = Ok [file]
  ∧ mergeDefinitions (locale := ordinal) (engine := anEngine) [f; q] = Ok [file].
Proof.
  apply (query_and_fragment_share_a_file
           (locale := ordinal) (engine := anEngine) "User" "name").
  apply (bool_decide_eq_true_1 _). by vm_compute.
Defined.

End ColocationProperties.

(** ** Errors as the editor shows them *)

Module EditorPanelFacts.
Import EditorPanel Names NameFacts.

Lemma includes_unfold c s searchString :
  includes (String c s) searchString
  = String.prefix searchString (String c s) || includes s searchString.
Proof. reflexivity. Qed.

Lemma prefix_head c w d s : c ≠ d → String.prefix (String c w) (String d s) = false.
Proof. intros Hne. simpl. by destruct (ascii_dec c d). Qed.

Lemma prefix_cons c w s : String.prefix (String c w) (String c s) = String.prefix w s.
Proof. simpl. by destruct (ascii_dec c c). Qed.

(** A word that starts with [c] does not start in a text without [c]. *)
Lemma includes_skip a r c w :
  c ∉ chars a → includes (a +:+ r) (String c w) = includes r (String c w).
Proof.
  unfold chars. induction a as [|d a IH]; simpl list_ascii_of_string; [done|].
  intros Hc. rewrite append_String, includes_unfold, prefix_head, IH; [done| |].
  - intros ?. apply Hc. by right.
  - intros ->. apply Hc. left.
Qed.

(** A word that has no [b] starts in [g] if it starts in [g] followed
    by [b]. *)
Lemma prefix_before w g b t :
  b ∉ chars w → w ≠ "" → String.prefix w (g +:+ String b t) = String.prefix w g.
Proof.
  unfold chars. revert g. induction w as [|c w IH]; intros g Hb Hne; [done|].
  simpl list_ascii_of_string in Hb.
  assert (Hcb : c ≠ b) by (intros ->; apply Hb; left).
  assert (Hw : b ∉ list_ascii_of_string w) by (intros ?; apply Hb; by right).
  destruct g as [|d g].
  - change ("" +:+ String b t) with (String b t). by rewrite prefix_head.
  - rewrite append_String. destruct (ascii_dec c d) as [->|Hcd].
    + rewrite !prefix_cons. destruct w as [|c' w']; [by destruct g|].
      by apply IH.
    + by rewrite !prefix_head.
Qed.

Lemma includes_before w g b t :
  b ∉ chars w → w ≠ "" → includes (String b t) w = false →
  includes (g +:+ String b t) w = includes g w.
Proof.
  intros Hb Hne Ht. induction g as [|d g IH].
  - change ("" +:+ String b t) with (String b t). rewrite Ht.
    destruct w; [done|]. reflexivity.
  - rewrite append_String, !includes_unfold, IH. f_equal.
    rewrite <- append_String. by apply prefix_before.
Qed.

(** Two words with a space between them do not start in a text that has
    no space before [b], unless the second goes on from [b]. *)
Lemma prefix_across w1 w2 g b t :
  b ∉ chars w1 → " "%char ∉ chars g →
  String.prefix (String " " w2) (String b t) = false →
  String.prefix (w1 +:+ String " " w2) (g +:+ String b t) = false.
Proof.
  unfold chars. revert g. induction w1 as [|c w1 IH]; intros g Hb Hg Ht.
  - change ("" +:+ String " " w2) with (String " " w2).
    destruct g as [|d g]; [done|]. rewrite append_String. apply prefix_head.
    intros <-. apply Hg. left.
  - simpl list_ascii_of_string in Hb. rewrite append_String.
    destruct g as [|d g].
    + change ("" +:+ String b t) with (String b t). apply prefix_head.
      intros ->. apply Hb. left.
    + rewrite append_String. destruct (ascii_dec c d) as [->|Hcd].
      * rewrite prefix_cons. apply IH; [| |done].
        -- intros ?. apply Hb. by right.
        -- intros ?. apply Hg. by right.
      * by apply prefix_head.
Qed.

Lemma includes_across w1 w2 g b t :
  b ∉ chars w1 → " "%char ∉ chars g →
  String.prefix (String " " w2) (String b t) = false →
  includes (String b t) (w1 +:+ String " " w2) = false →
  includes (g +:+ String b t) (w1 +:+ String " " w2) = false.
Proof.
  intros Hb Hg Hw2 Ht. induction g as [|d g IH].
  - done.
  - rewrite append_String, includes_unfold, IH.
    + rewrite <- append_String, prefix_across; done.
    + unfold chars in *. intros ?. apply Hg. by right.
Qed.

Lemma chars_fixed (c : ascii) (s : string) :
  forallb (λ d, negb (Ascii.eqb d c)) (list_ascii_of_string s) = true → c ∉ chars s.
Proof.
  unfold chars. rewrite forallb_forall. intros Hall Hin.
  apply list_elem_of_In, Hall in Hin. by rewrite Ascii.eqb_refl in Hin.
Qed.

(** Where the three phrases of [userFriendlyError] occur in
    [before g after], when [g] has no space, [before] none of their first
    letters, and [after] starts with [b], which is in none of them. *)
Lemma includes_message before g b t :
  " "%char ∉ chars g →
  (∀ c, c ∈ ["S"; "C"; "E"]%char → c ∉ chars before) →
  (∀ w, w ∈ ["SyntaxError"; "Cannot"; "Expected"] → b ∉ chars w) →
  (∀ w, w ∈ ["SyntaxError"; "Cannot find fragment"; "Expected Name"] →
        includes (String b t) w = false) →
  (∀ w, w ∈ ["find fragment"; "Name"] →
        String.prefix (String " " w) (String b t) = false) →
  let message := before +:+ (g +:+ String b t) in
  includes message "SyntaxError" = includes g "SyntaxError"
  ∧ includes message "Cannot find fragment" = false
  ∧ includes message "Expected Name" = false.
Proof.
  intros Hg Hbefore Hb Ht Hw message. unfold message. split_and!.
  - rewrite includes_skip by (apply Hbefore; set_solver).
    apply includes_before; [apply Hb; set_solver | done | apply Ht; set_solver].
  - rewrite includes_skip by (apply Hbefore; set_solver).
    apply (includes_across "Cannot" "find fragment");
      [apply Hb; set_solver | done | apply Hw; set_solver | apply Ht; set_solver].
  - rewrite includes_skip by (apply Hbefore; set_solver).
    apply (includes_across "Expected" "Name");
      [apply Hb; set_solver | done | apply Hw; set_solver | apply Ht; set_solver].
Qed.

Lemma userFriendlyError_message before g b t :
  " "%char ∉ chars g →
  (∀ c, c ∈ ["S"; "C"; "E"]%char → c ∉ chars before) →
  (∀ w, w ∈ ["SyntaxError"; "Cannot"; "Expected"] → b ∉ chars w) →
  (∀ w, w ∈ ["SyntaxError"; "Cannot find fragment"; "Expected Name"] →
        includes (String b t) w = false) →
  (∀ w, w ∈ ["find fragment"; "Name"] →
        String.prefix (String " " w) (String b t) = false) →
  userFriendlyError (before +:+ (g +:+ String b t))
  = if includes g "SyntaxError"
    then "Syntax Error: Please check your GraphQL syntax"
    else before +:+ (g +:+ String b t).
Proof.
  intros Hg Hbefore Hb Ht Hw.
  destruct (includes_message before g b t Hg Hbefore Hb Ht Hw) as (H1 & H2 & H3).
  unfold userFriendlyError. rewrite H1, H2, H3. done.
Qed.

Ltac each_of :=
  intros ? ?; repeat match goal with
    | H : _ ∈ _ :: _ |- _ => apply elem_of_cons in H as [->|H]
    | H : _ ∈ [] |- _ => by apply elem_of_nil in H
    end.

Lemma userFriendlyError_notFound g :
  " "%char ∉ chars g →
  userFriendlyError (InlineRelayQuery.notFound g)
  = if includes g "SyntaxError"
    then "Syntax Error: Please check your GraphQL syntax"
    else InlineRelayQuery.notFound g.
Proof.
  intros Hg. unfold InlineRelayQuery.notFound.
  apply (userFriendlyError_message "Fragment " g " " "not found"); [done|..];
    each_of; try (apply chars_fixed); by vm_compute.
Qed.

Lemma userFriendlyError_notFound_quoted g :
  " "%char ∉ chars g →
  userFriendlyError (Inliner.notFound g)
  = if includes g "SyntaxError"
    then "Syntax Error: Please check your GraphQL syntax"
    else Inliner.notFound g.
Proof.
  intros Hg. unfold Inliner.notFound.
  change ("Fragment " +:+ String Json.dquote g +:+ String Json.dquote " not found")
    with (("Fragment " +:+ String Json.dquote "")
          +:+ (g +:+ String Json.dquote " not found")).
  apply (userFriendlyError_message _ g Json.dquote " not found"); [done|..];
    each_of; try (apply chars_fixed); by vm_compute.
Qed.

End EditorPanelFacts.

Module EditorPanelProperties.
Import EditorPanel Names NameFacts EditorPanelFacts.

(** X21. The error that the panel shows when the inliner does not
    find a fragment: the message of the inliner itself, [Fragment g not
    found] (with [g] in quotes in the second revision), and never the
    text that the panel has for a fragment that cannot be found; a
    fragment whose name contains [SyntaxError] is reported as a syntax
    error. The name [g] is any text without a space. *)
Theorem unresolved_fragment_as_shown (g : string) :
  " "%char ∉ chars g →
  userFriendlyError (InlineRelayQuery.notFound g)
  = (if includes g "SyntaxError"
     then "Syntax Error: Please check your GraphQL syntax"
     else "Fragment " +:+ g +:+ " not found")
  ∧ userFriendlyError (Inliner.notFound g)
    = (if includes g "SyntaxError"
       then "Syntax Error: Please check your GraphQL syntax"
       else "Fragment " +:+ String Json.dquote g +:+ String Json.dquote " not found").
Proof.
  intros Hg. split.
  - by apply userFriendlyError_notFound.
  - by apply userFriendlyError_notFound_quoted.
Qed.

Lemma unresolved_fragment_as_shown_witness :
  userFriendlyError (InlineRelayQuery.notFound "UserFragment")
  = "Fragment UserFragment not found"
  ∧ userFriendlyError (Inliner.notFound "UserFragment")
    = "Fragment " +:+ String Json.dquote "UserFragment"
      +:+ String Json.dquote " not found".
Proof.
  apply (unresolved_fragment_as_shown "UserFragment").
  apply chars_fixed. by vm_compute.
Defined.

End EditorPanelProperties.

(** ** The tab store *)

Module TabStoreFacts.
Import TabStore.

Lemma findIndex_Some {A} (p : A → bool) l i :
  Js.findIndex p l = Some i →
  ∃ x, l !! i = Some x ∧ p x = true ∧ ∀ j y, j < i → l !! j = Some y → p y = false.
Proof.
  revert i. induction l as [|x l IH]; intros i; simpl; [done|].
  destruct (p x) eqn:Hx.
  - intros [= <-]. exists x. split_and!; [done..|]. intros j y Hj. lia.
  - destruct (Js.findIndex p l) as [k|]; simpl; [|done]. intros [= <-].
    destruct (IH k eq_refl) as (y & Hy & Hpy & Hbefore).
    exists y. split_and!; [done..|].
    intros [|j] z Hj; simpl; [by intros [= <-]|]. apply Hbefore. lia.
Qed.

Lemma findIndex_None {A} (p : A → bool) l :
  Js.findIndex p l = None ↔ Forall (λ x, p x = false) l.
Proof.
  induction l as [|x l IH]; simpl; [by split; [constructor|]|].
  destruct (p x) eqn:Hx.
  - split; [done|]. intros [? _]%Forall_cons. congruence.
  - destruct (Js.findIndex p l) as [k|]; simpl.
    + split; [done|]. intros [_ Hl]%Forall_cons. by apply IH in Hl.
    + split; [|done]. intros _. constructor; [done | by apply IH].
Qed.

Lemma hasId_true tabId tab : hasId tabId tab = true ↔ id tab = tabId.
Proof. unfold hasId. apply String.eqb_eq. Qed.

Lemma hasId_false tabId tab : hasId tabId tab = false ↔ id tab ≠ tabId.
Proof. unfold hasId. apply String.eqb_neq. Qed.

Lemma findIndex_hasId_None tabId l :
  Js.findIndex (hasId tabId) l = None ↔ tabId ∉ map id l.
Proof.
  rewrite findIndex_None, Forall_forall. split.
  - intros Hall (tab & -> & Htab)%list_elem_of_fmap.
    specialize (Hall _ Htab). by apply hasId_false in Hall.
  - intros Hnot tab Htab. apply hasId_false. intros <-. apply Hnot.
    apply list_elem_of_fmap. eauto.
Qed.

Lemma find_hasId tabId l :
  tabId ∈ map id l → ∃ tab, find (hasId tabId) l = Some tab ∧ id tab = tabId ∧ tab ∈ l.
Proof.
  induction l as [|x l IH]; simpl; [by intros ?%elem_of_nil|].
  destruct (hasId tabId x) eqn:Hx.
  - intros _. exists x. split_and!; [done | by apply hasId_true | left].
  - intros [Heq|Hin]%elem_of_cons.
    + apply hasId_false in Hx. congruence.
    + destruct (IH Hin) as (tab & ? & ? & ?). exists tab. split_and!; [done..|by right].
Qed.

Lemma alter_id (f : Tab → Tab) i l :
  (∀ tab, id (f tab) = id tab) → map id (alter f i l) = map id l.
Proof.
  intros Hf. revert i. induction l as [|x l IH]; intros [|i]; simpl; try done.
  - by rewrite Hf.
  - f_equal. apply IH.
Qed.

Lemma updateFirst_ids tabId f st :
  (∀ tab, id (f tab) = id tab) →
  ids (updateFirst tabId f st) = ids st ∧ activeTabId (updateFirst tabId f st) = activeTabId st.
Proof.
  intros Hf. unfold updateFirst, ids.
  destruct (Js.findIndex _ _); simpl; [|done]. by rewrite alter_id.
Qed.

Lemma filter_all {A} (P : A → Prop) `{∀ x, Decision (P x)} (l : list A) :
  Forall P l → filter P l = l.
Proof.
  induction 1 as [|x l Hx _ IH]; [done|].
  rewrite filter_cons, decide_True by done. by rewrite IH.
Qed.

Lemma delete_filter tabId i l :
  NoDup (map id l) → Js.findIndex (hasId tabId) l = Some i →
  delete i l = filter (λ tab, id tab ≠ tabId) l.
Proof.
  revert i. induction l as [|x l IH]; intros i; simpl; [done|].
  intros [Hx Hnd]%NoDup_cons. rewrite filter_cons.
  destruct (hasId tabId x) eqn:Hp.
  - intros [= <-]. apply hasId_true in Hp. rewrite decide_False by auto. simpl.
    symmetry. apply filter_all, Forall_forall. intros tab Htab Heq.
    apply Hx. rewrite Hp, <- Heq. apply list_elem_of_fmap. eauto.
  - destruct (Js.findIndex (hasId tabId) l) as [k|]; simpl; [|done].
    intros [= <-]. apply hasId_false in Hp. rewrite decide_True by done.
    simpl. f_equal. by apply IH.
Qed.

Lemma delete_NoDup i (l : list Tab) : NoDup (map id l) → NoDup (map id (delete i l)).
Proof.
  revert i. induction l as [|x l IH]; intros [|i]; simpl; try done.
  - by intros [_ ?]%NoDup_cons.
  - intros [Hx Hnd]%NoDup_cons. apply NoDup_cons. split; [|by apply IH].
    intros (tab & Heq & Htab)%list_elem_of_fmap. apply Hx.
    apply list_elem_of_fmap. exists tab. split; [done|].
    by eapply list_elem_of_delete_inv.
Qed.

(** The tab made active by [closeTab] is not the one that is removed. *)
Lemma closeTab_active tabId st :
  activeTabId st ∈ ids st →
  tabs (closeTab tabId st) ≠ [] →
  activeTabId (closeTab tabId st) ∈ ids (closeTab tabId st).
Proof.
  destruct st as [l active]. unfold closeTab, ids. simpl. intros Hactive Hne.
  destruct (String.eqb_spec active tabId) as [->|Hother].
  - destruct (Js.findIndex (hasId tabId) l) as [[|i]|] eqn:Hidx.
    + destruct l as [|x [|y l]]; simpl in *; try done. unfold idAt. simpl. left.
    + apply findIndex_Some in Hidx as (x & Hx & _).
      assert (Hi : i < length l).
      { apply lookup_lt_Some in Hx. lia. }
      destruct (lookup_lt_is_Some_2 l i Hi) as [y Hy].
      unfold idAt. rewrite Hy. apply list_elem_of_fmap. exists y. split; [done|].
      apply list_elem_of_lookup. exists i. rewrite list_lookup_delete_lt; [done | lia].
    + apply findIndex_hasId_None in Hidx. done.
  - apply list_elem_of_fmap in Hactive as (tab & -> & Htab).
    apply list_elem_of_fmap. exists tab. split; [done|].
    destruct (Js.findIndex (hasId tabId) l) as [i|] eqn:Hidx; [|done].
    apply findIndex_Some in Hidx as (x & Hx & Hpx & _). apply hasId_true in Hpx.
    apply list_elem_of_lookup in Htab as [j Hj].
    assert (j ≠ i) by (intros ->; congruence).
    apply list_elem_of_lookup.
    destruct (decide (j < i)).
    + exists j. by rewrite list_lookup_delete_lt.
    + exists (j - 1). rewrite list_lookup_delete_ge by lia.
      by replace (S (j - 1)) with j by lia.
Qed.

Lemma closeTab_NoDup tabId st : NoDup (ids st) → NoDup (ids (closeTab tabId st)).
Proof.
  unfold closeTab, ids. simpl. intros Hnd.
  destruct (Js.findIndex _ _); [by apply delete_NoDup | done].
Qed.

Lemma consistent_act a st : consistent st → expected a st → consistent (act a st).
Proof.
  intros [Hnd Hactive] Hexp. destruct a as [newId w|tabId|tabId|tabId t|tabId o p]; simpl.
  - split.
    + unfold ids, addTab. simpl. rewrite map_app. simpl.
      apply NoDup_app. split_and!; [done | | apply NoDup_singleton].
      intros x Hx ->%list_elem_of_singleton. done.
    + intros _. unfold ids, addTab. simpl. rewrite map_app. simpl.
      apply elem_of_app. right. left.
  - split; [by apply closeTab_NoDup|]. intros Hne.
    apply closeTab_active; [|done]. apply Hactive.
    intros Hnil. apply Hne. unfold closeTab. simpl. rewrite Hnil. by simpl.
  - split; [done|]. intros _. exact Hexp.
  - unfold consistent, updateTabTitle.
    destruct (updateFirst_ids tabId
                (λ tab, {| id := id tab;
                           title := if String.eqb t "" then title tab else t;
                           operationText := operationText tab;
                           optimizedOperationText := optimizedOperationText tab |}) st)
      as [Hids Hact]; [done|].
    rewrite Hids, Hact. split; [done|]. intros Hne. apply Hactive.
    intros Hnil. apply Hne. unfold updateFirst. rewrite Hnil. by simpl.
  - unfold consistent, updateTabContent.
    destruct (updateFirst_ids tabId
                (λ tab, {| id := id tab; title := title tab;
                           operationText := o;
                           optimizedOperationText := p |}) st)
      as [Hids Hact]; [done|].
    rewrite Hids, Hact. split; [done|]. intros Hne. apply Hactive.
    intros Hnil. apply Hne. unfold updateFirst. rewrite Hnil. by simpl.
Qed.

Lemma activeTab_Some st :
  tabs st ≠ [] → ∃ tab, activeTab st = Some tab ∧ tab ∈ tabs st.
Proof.
  unfold activeTab. intros Hne.
  destruct (find _ _) as [tab|] eqn:Hfind.
  - exists tab. split; [done|]. apply find_some in Hfind as [Hin _].
    by apply list_elem_of_In.
  - destruct (tabs st) as [|x l]; [done|]. exists x. split; [done | left].
Qed.

Lemma activeTab_consistent st :
  NoDup (ids st) → activeTabId st ∈ ids st →
  ∃ tab, activeTab st = Some tab ∧ id tab = activeTabId st ∧ tab ∈ tabs st.
Proof.
  intros _ Hactive. unfold activeTab.
  destruct (find_hasId _ _ Hactive) as (tab & -> & ? & ?). eauto.
Qed.

Lemma loadFromStorage_active parse storage :
  (loadFromStorage parse storage).1 ≠ [] →
  (loadFromStorage parse storage).2 ∈ map id (loadFromStorage parse storage).1.
Proof.
  unfold loadFromStorage. destruct storage as [storage|]; [|done].
  unfold readStorage.
  destruct (getItem storage TABS_STORAGE_KEY) as [storedTabs|]; [|done]. simpl.
  destruct (getItem storage ACTIVE_TAB_STORAGE_KEY) as [storedActive|]; [|done]. simpl.
  destruct (match storedTabs with
            | Some text => if String.eqb text "" then Some [] else parse text
            | None => Some []
            end) as [[|first l]|]; simpl; try done.
  intros _. destruct (hasId (default "" storedActive) first) eqn:Hfirst; simpl.
  - apply hasId_true in Hfirst. rewrite <- Hfirst. left.
  - destruct (existsb _ l) eqn:Hex; [|left].
    apply existsb_exists in Hex as (tab & Htab & Hid). apply hasId_true in Hid.
    right. apply list_elem_of_fmap. exists tab. split; [done | by apply list_elem_of_In].
Qed.

Lemma createTabStore_loaded parse storage newId :
  let loaded := loadFromStorage parse storage in
  let st := createTabStore parse storage newId in
  (loaded.1 ≠ [] → tabs st = loaded.1 ∧ activeTabId st ∈ ids st)
  ∧ (loaded.1 = [] →
     tabs st = [createTab newId [] "Example Query" true]
     ∧ activeTabId st = if String.eqb loaded.2 "" then newId else loaded.2).
Proof.
  intros loaded st. pose proof (loadFromStorage_active parse storage) as Hactive.
  fold loaded in Hactive. unfold st, createTabStore, ids. fold loaded.
  destruct loaded as [[|first l] active]; simpl in *.
  - split; [done|]. intros _. split; [done|]. by destruct (String.eqb active "").
  - split; [|done]. intros _. split; [done|].
    destruct (String.eqb active ""); simpl; [left | by apply Hactive].
Qed.

Lemma updateFirst_NoDup tabId f st :
  NoDup (ids st) →
  tabs (updateFirst tabId f st)
  = map (λ tab, if hasId tabId tab then f tab else tab) (tabs st).
Proof.
  unfold updateFirst, ids. destruct st as [l active]. simpl. intros Hnd.
  destruct (Js.findIndex (hasId tabId) l) as [i|] eqn:Hidx; simpl.
  - revert i Hidx. induction l as [|x l IH]; intros i; simpl; [done|].
    apply NoDup_cons in Hnd as [Hx Hnd].
    destruct (hasId tabId x) eqn:Hp.
    + intros [= <-]. simpl. f_equal. symmetry.
      rewrite <- (map_id l) at 2. apply map_ext_Forall, Forall_forall.
      intros tab Htab. destruct (hasId tabId tab) eqn:Hq; [|done].
      apply hasId_true in Hp, Hq. destruct Hx. rewrite Hp, <- Hq.
      apply list_elem_of_fmap. eauto.
    + destruct (Js.findIndex (hasId tabId) l) as [k|]; simpl; [|done].
      intros [= <-]. simpl. f_equal. by apply IH.
  - apply findIndex_None in Hidx. symmetry. rewrite <- (map_id l) at 2.
    apply map_ext_Forall. eapply Forall_impl; [exact Hidx|].
    intros tab Hq. simpl in Hq. by rewrite Hq.
Qed.

End TabStoreFacts.

Module TabStoreProperties.
Import TabStore TabStoreFacts.

(** X17. A store that is created has at least one tab, and its active
    tab is one of its tabs, whatever the storage holds or does. When
    tabs are read from the storage they are the tabs of the store and
    the active identifier is that of one of them. When none is read the
    store has the one example tab, and a non-empty active identifier
    read from the storage is kept although no tab has it. *)
Theorem createTabStore_initial
    (parse : string → option (list Tab)) (storage : option Storage) (newId : string) :
  let loaded := loadFromStorage parse storage in
  let st := createTabStore parse storage newId in
  (∃ tab, activeTab st = Some tab ∧ tab ∈ tabs st)
  ∧ (loaded.1 ≠ [] → tabs st = loaded.1 ∧ activeTabId st ∈ ids st)
  ∧ (loaded.1 = [] →
     tabs st = [createTab newId [] "Example Query" true]
     ∧ activeTabId st = if String.eqb loaded.2 "" then newId else loaded.2).
Proof.
  intros loaded st.
  destruct (createTabStore_loaded parse storage newId) as [Hsome Hnone].
  split; [|by split].
  apply activeTab_Some. fold loaded st in Hsome, Hnone.
  destruct (loaded.1) as [|first l] eqn:Hl.
  - destruct (Hnone eq_refl) as [-> _]. done.
  - destruct Hsome as [-> _]; done.
Qed.

(** X18. Closing a tab of a consistent store removes the tab that has
    the identifier and no other, and leaves the store consistent: the
    active identifier is kept unless it is the one closed, and is that
    of a remaining tab while one remains. *)
Theorem closeTab_consistent (tabId : string) (st : Store) :
  consistent st →
  tabs (closeTab tabId st) = filter (λ tab, id tab ≠ tabId) (tabs st)
  ∧ consistent (closeTab tabId st)
  ∧ (activeTabId st ≠ tabId → activeTabId (closeTab tabId st) = activeTabId st).
Proof.
  intros [Hnd Hactive]. split_and!.
  - unfold closeTab. simpl.
    destruct (Js.findIndex (hasId tabId) (tabs st)) as [i|] eqn:Hidx.
    + by apply delete_filter.
    + apply findIndex_None in Hidx. symmetry. apply filter_all.
      eapply Forall_impl; [exact Hidx|]. intros tab. apply hasId_false.
  - by apply (consistent_act (CloseTab tabId)).
  - intros Hne. unfold closeTab. simpl.
    by destruct (String.eqb_spec (activeTabId st) tabId).
Qed.

(** X19. Every action keeps a consistent store consistent, provided an
    added tab gets an identifier that is not in use and the tab made
    active is one of the tabs: no two tabs share an identifier, and
    while there are tabs the active tab is the one that has the active
    identifier. *)
Theorem actions_keep_consistency (a : Action) (st : Store) :
  consistent st → expected a st →
  consistent (act a st)
  ∧ (tabs (act a st) ≠ [] →
     ∃ tab, activeTab (act a st) = Some tab
            ∧ id tab = activeTabId (act a st)
            ∧ tab ∈ tabs (act a st)).
Proof.
  intros Hst Hexp.
  destruct (consistent_act a st Hst Hexp) as [Hnd Hactive].
  split; [done|]. intros Hne. by apply activeTab_consistent; [|apply Hactive].
Qed.

(** X20. [updateTabTitle] changes the title of the tab that has the
    identifier and nothing else; an empty title, or an identifier that
    no tab has, leaves the store as it is. *)
Theorem updateTabTitle_spec (tabId newTitle : string) (st : Store) :
  NoDup (ids st) →
  updateTabTitle tabId "" st = st
  ∧ (tabId ∉ ids st → updateTabTitle tabId newTitle st = st)
  ∧ activeTabId (updateTabTitle tabId newTitle st) = activeTabId st
  ∧ (newTitle ≠ "" →
     tabs (updateTabTitle tabId newTitle st)
     = map (λ tab, if hasId tabId tab
                   then {| id := id tab; title := newTitle;
                           operationText := operationText tab;
                           optimizedOperationText := optimizedOperationText tab |}
                   else tab) (tabs st)).
Proof.
  intros Hnd. split_and!.
  - destruct st as [l active]. unfold updateTabTitle, updateFirst. simpl.
    destruct (Js.findIndex (hasId tabId) l) as [i|]; [|done]. f_equal.
    clear. revert i. induction l as [|[] l IH]; intros [|i]; simpl; try done.
    f_equal. apply IH.
  - intros Hnot%findIndex_hasId_None. unfold updateTabTitle, updateFirst, ids in *.
    by rewrite Hnot.
  - unfold updateTabTitle. by apply updateFirst_ids.
  - intros Hne. unfold updateTabTitle. rewrite updateFirst_NoDup; [|done].
    apply map_ext. intros tab. destruct (hasId tabId tab); [|done].
    by destruct (String.eqb_spec newTitle "").
Qed.

Lemma threeTabs_consistent : consistent threeTabs.
Proof.
  split.
  - apply (bool_decide_eq_true_1 _). by vm_compute.
  - intros _. apply (bool_decide_eq_true_1 _). by vm_compute.
Defined.

Lemma closeTab_consistent_witness :
  tabs (closeTab "tab-2" threeTabs)
  = filter (λ tab, id tab ≠ "tab-2") (tabs threeTabs)
  ∧ consistent (closeTab "tab-2" threeTabs)
  ∧ (activeTabId threeTabs ≠ "tab-2" →
     activeTabId (closeTab "tab-2" threeTabs) = activeTabId threeTabs).
Proof. apply (closeTab_consistent "tab-2" threeTabs), threeTabs_consistent. Defined.

Lemma actions_keep_consistency_witness :
  consistent (act (AddTab "tab-4" false) threeTabs)
  ∧ (tabs (act (AddTab "tab-4" false) threeTabs) ≠ [] →
     ∃ tab, activeTab (act (AddTab "tab-4" false) threeTabs) = Some tab
            ∧ id tab = activeTabId (act (AddTab "tab-4" false) threeTabs)
            ∧ tab ∈ tabs (act (AddTab "tab-4" false) threeTabs)).
Proof.
  apply (actions_keep_consistency (AddTab "tab-4" false) threeTabs).
  - apply threeTabs_consistent.
  - apply (bool_decide_eq_true_1 _). by vm_compute.
Defined.

Lemma updateTabTitle_spec_witness :
  updateTabTitle "tab-2" "" threeTabs = threeTabs
  ∧ ("tab-2" ∉ ids threeTabs → updateTabTitle "tab-2" "Mine" threeTabs = threeTabs)
  ∧ activeTabId (updateTabTitle "tab-2" "Mine" threeTabs) = activeTabId threeTabs
  ∧ ("Mine" ≠ "" →
     tabs (updateTabTitle "tab-2" "Mine" threeTabs)
     = map (λ tab, if hasId "tab-2" tab
                   then {| id := id tab; title := "Mine";
                           operationText := operationText tab;
                           optimizedOperationText := optimizedOperationText tab |}
                   else tab) (tabs threeTabs)).
Proof.
  apply (updateTabTitle_spec "tab-2" "Mine" threeTabs), threeTabs_consistent.
Defined.

End TabStoreProperties.

